(** * subflow: command specifications, message envelopes and the
      subprocess controller

    A shallow embedding of the Go package [subflow] (command.go, the
    controller file, the message file) together with the properties of
    its specification.

    Go values are modelled as follows.
    - [string] and [[]string] are [string] and [list string]; a nil
      slice and an empty slice are both the empty list.
    - [[]byte] is [list byte].
    - [int] is [Z] (exit codes are far from the 64-bit bounds).
    - an interface value is the record of the methods its dynamic type
      offers; a type assertion to a wider interface succeeds exactly
      when the extra method is there.
    - [error] is an inductive type, the nil error is [None]. *)

From Stdlib Require Import ZArith NArith Lia Bool.
From Stdlib Require Import Strings.String Strings.Ascii Strings.Byte.
From Stdlib Require Import DecimalString DecimalZ DecimalPos.
From stdpp Require Import base option list.

Local Open Scope string_scope.
Local Open Scope list_scope.

Set Warnings "-register-all".

#[global] Instance byte_eq_dec : EqDecision byte := Byte.byte_eq_dec.

(** ** Command specifications (command.go) *)

Module CommandSpec.

(** A value of interface type [Command].  [Command] is the method every
    spec has; [Args] and [Environment] are present when the dynamic type
    also implements [CommandArgs] and [CommandEnv]. *)
Record Command := {
  Command_ : string;
  Args_ : option (list string);
  Environment_ : option (list string)
}.

(** [cmd.(CommandArgs)] and [cmd.(CommandEnv)]: the assertion gives the
    method when the dynamic type has it. *)
Definition asCommandArgs (cmd : Command) : option (list string) := Args_ cmd.
Definition asCommandEnv (cmd : Command) : option (list string) := Environment_ cmd.

Record basicCommandArgs := {
  command : string;
  args : list string;
  env : list string
}.

(** The method set of [*basicCommandArgs]: it has all three methods,
    whichever constructor built it. *)
Definition iface (cmd : basicCommandArgs) : Command :=
  {| Command_ := command cmd;
     Args_ := Some (args cmd);
     Environment_ := Some (env cmd) |}.

Definition NewCommand (c : string) : Command :=
  iface {| command := c; args := []; env := [] |}.

Definition NewCommandArgs (c : string) (a : list string) : Command :=
  iface {| command := c; args := a; env := [] |}.

Definition NewCommandEnv (c : string) (e : list string) : Command :=
  iface {| command := c; args := []; env := e |}.

Definition NewCommandArgsEnv (c : string) (a e : list string) : Command :=
  iface {| command := c; args := a; env := e |}.

(** [commandCollect], statement by statement.  The three results are
    named results, so they start as zero values; the second [if]
    assigns to [args], as the source does. *)
Definition commandCollect (cmd : Command) : string * list string * list string :=
  let command := Command_ cmd in
  let args := [] in
  let env := [] in
  let args := match asCommandArgs cmd with Some a => a | None => args end in
  let args := match asCommandEnv cmd with Some e => e | None => args end in
  (command, args, env).

(** [WithEnv]: [append(subEnv, env...)] on the collected triple. *)
Definition WithEnv (cmd : Command) (e : list string) : Command :=
  let '(command, args, subEnv) := commandCollect cmd in
  iface {| command := command; args := args; env := subEnv ++ e |}.

(** What the specification asks of the collection: each capability read
    on its own, the empty sequence for a missing one. *)
Definition collect_spec (cmd : Command) : string * list string * list string :=
  (Command_ cmd, default [] (Args_ cmd), default [] (Environment_ cmd)).

(** A spec written by a user of the package that offers the environment
    capability only. *)
Definition envOnly (c : string) (e : list string) : Command :=
  {| Command_ := c; Args_ := None; Environment_ := Some e |}.

End CommandSpec.

(** ** Errors (the [error] values the package handles) *)

Module Errors.

Inductive error :=
| ErrExitCode (code : Z)           (* subflow.ErrExitCode *)
| ExitError (code : Z)             (* *exec.ExitError; [code] is its ExitCode() *)
| errorString (msg : string)       (* any other error value *)
| UnmarshalTypeError               (* encoding/json: value of the wrong JSON type *)
| FormatError (want got : list byte)
    (* fmt.Errorf("expected static string %q, got %q", want, got) *)
| joinError (errs : list error).   (* the result of errors.Join *)

(** [context.Canceled]. *)
Definition Canceled : error := errorString "context canceled".

(** [errors.Join(a, b)]: nil when both are nil, else a join of the
    non-nil ones (a join is built even around a single error). *)
Definition Join (a b : option error) : option error :=
  match a, b with
  | None, None => None
  | Some x, None => Some (joinError [x])
  | None, Some y => Some (joinError [y])
  | Some x, Some y => Some (joinError [x; y])
  end.

(** [errors.As(err, &exit)] for [*exec.ExitError]: depth-first through
    joins, the first match wins. *)
Fixpoint As_ExitError (e : error) : option Z :=
  match e with
  | ExitError c => Some c
  | joinError l =>
      (fix first (l : list error) : option Z :=
         match l with
         | [] => None
         | x :: r => match As_ExitError x with
                     | Some c => Some c
                     | None => first r
                     end
         end) l
  | _ => None
  end.

(** [errors.As(err, &code)] for [ErrExitCode]. *)
Fixpoint As_ErrExitCode (e : error) : option Z :=
  match e with
  | ErrExitCode c => Some c
  | joinError l =>
      (fix first (l : list error) : option Z :=
         match l with
         | [] => None
         | x :: r => match As_ErrExitCode x with
                     | Some c => Some c
                     | None => first r
                     end
         end) l
  | _ => None
  end.

Fixpoint error_eqb (a b : error) : bool :=
  match a, b with
  | ErrExitCode x, ErrExitCode y => Z.eqb x y
  | ExitError x, ExitError y => Z.eqb x y
  | errorString x, errorString y => String.eqb x y
  | UnmarshalTypeError, UnmarshalTypeError => true
  | FormatError w g, FormatError w' g' =>
      bool_decide (w = w') && bool_decide (g = g')
  | joinError l, joinError l' =>
      (fix all2 (l l' : list error) : bool :=
         match l, l' with
         | [], [] => true
         | x :: r, y :: r' => error_eqb x y && all2 r r'
         | _, _ => false
         end) l l'
  | _, _ => false
  end.

(** [errors.Is(err, target)]: [target] is [err] itself or is reached
    through joins. *)
Fixpoint Is (target e : error) : bool :=
  error_eqb e target ||
  match e with
  | joinError l =>
      (fix any (l : list error) : bool :=
         match l with
         | [] => false
         | x :: r => Is target x || any r
         end) l
  | _ => false
  end.

Definition IsIn (target : error) (e : option error) : bool :=
  match e with Some e => Is target e | None => false end.

Inductive result (A : Type) :=
| Ok (a : A)
| Err (e : error).
Arguments Ok {A} a.
Arguments Err {A} e.

Definition bind {A B} (r : result A) (f : A -> result B) : result B :=
  match r with Ok a => f a | Err e => Err e end.

End Errors.

Notation "'letE' x <- r 'in' k" := (Errors.bind r (fun x => k))
  (at level 10, x name, r at level 100, k at level 200).

(** ** UTF-8 as the JSON encoder sees it (unicode/utf8, encoding/json)

    [json.Marshal] of a Go string keeps every well-formed UTF-8 sequence
    and writes U+FFFD for every byte that does not start one;
    [json.Unmarshal] into a string gives back the bytes of the string it
    reads, coerced the same way. *)

Module UTF8.

Definition between (lo hi : N) (b : byte) : bool :=
  (lo <=? Byte.to_N b)%N && (Byte.to_N b <=? hi)%N.

(** The table [first] with its accept ranges: for a leading byte, the
    length of the sequence and the range allowed for the second byte. *)
Definition first (b : byte) : option (nat * N * N) :=
  let n := Byte.to_N b in
  if (n <? 0x80)%N then Some (1%nat, 0x80%N, 0xBF%N)
  else if (n <? 0xC2)%N then None
  else if (n <? 0xE0)%N then Some (2%nat, 0x80%N, 0xBF%N)
  else if (n =? 0xE0)%N then Some (3%nat, 0xA0%N, 0xBF%N)
  else if (n =? 0xED)%N then Some (3%nat, 0x80%N, 0x9F%N)
  else if (n <? 0xF0)%N then Some (3%nat, 0x80%N, 0xBF%N)
  else if (n =? 0xF0)%N then Some (4%nat, 0x90%N, 0xBF%N)
  else if (n <? 0xF4)%N then Some (4%nat, 0x80%N, 0xBF%N)
  else if (n =? 0xF4)%N then Some (4%nat, 0x80%N, 0x8F%N)
  else None.

(** [utf8.DecodeRune]: the width of the well-formed sequence at the
    head of [s], or [None] for (RuneError, 1). *)
Definition DecodeRune (s : list byte) : option nat :=
  match s with
  | [] => None
  | b0 :: r =>
      match first b0 with
      | None => None
      | Some (1%nat, _, _) => Some 1%nat
      | Some (sz, lo, hi) =>
          match r with
          | b1 :: r1 =>
              if negb (between lo hi b1) then None
              else if Nat.eqb sz 2 then Some 2%nat
              else match r1 with
                   | b2 :: r2 =>
                       if negb (between 0x80 0xBF b2) then None
                       else if Nat.eqb sz 3 then Some 3%nat
                       else match r2 with
                            | b3 :: _ =>
                                if negb (between 0x80 0xBF b3) then None
                                else Some 4%nat
                            | [] => None
                            end
                   | [] => None
                   end
          | [] => None
          end
      end
  end.

(** U+FFFD in UTF-8. *)
Definition RuneError : list byte := [xef; xbf; xbd]%byte.

Fixpoint coerce (fuel : nat) (s : list byte) : list byte :=
  match fuel, s with
  | S fuel, _ :: r =>
      match DecodeRune s with
      | Some w => take w s ++ coerce fuel (drop w s)
      | None => RuneError ++ coerce fuel r
      end
  | _, _ => []
  end.

(** The string that comes out of a trip through JSON text. *)
Definition ToValidUTF8 (s : list byte) : list byte := coerce (length s) s.

Fixpoint valid (fuel : nat) (s : list byte) : bool :=
  match fuel, s with
  | _, [] => true
  | S fuel, _ :: _ =>
      match DecodeRune s with
      | Some w => valid fuel (drop w s)
      | None => false
      end
  | O, _ :: _ => false
  end.

(** [utf8.Valid]. *)
Definition Valid (s : list byte) : bool := valid (length s) s.

End UTF8.

(** ** Messages (the message file) *)

Module Messages.
Import Errors.

(** A [time.Time]: the instant, as the seconds since the Unix epoch
    and the nanoseconds within the second; the offset east of UTC, in
    seconds, that the location of the value has at that instant; and
    the reading of the monotonic clock, which [time.Now()] attaches and
    which no other field depends on.  The location is held as its
    offset only: two locations with the same offset at the instant are
    not told apart. *)
Record Time := {
  unixSec : Z;
  nanos : Z;
  zoneOffset : Z;
  monotonic : option Z
}.

(** The zero [time.Time], January 1 of year 1, 00:00:00 UTC. *)
Definition zeroTime : Time :=
  {| unixSec := -62135596800; nanos := 0; zoneOffset := 0;
     monotonic := None |}.

(** A reading of [time.Now()] in UTC, [s] seconds after the epoch, the
    monotonic clock showing [s] too. *)
Definition clock (s : Z) : Time :=
  {| unixSec := s; nanos := 0; zoneOffset := 0; monotonic := Some s |}.

(** The marker types; [kind[K]] has no fields, only its name. *)
Inductive kind := stdio | start | exit | stderr | stdout | stdin | text.

#[global] Instance kind_eq_dec : EqDecision kind.
Proof. solve_decision. Defined.

(** [kind[K].String()]: [reflect.TypeFor[K]().Name()]. *)
Definition kind_String (k : kind) : string :=
  match k with
  | stdio => "stdio"
  | start => "start"
  | exit => "exit"
  | stderr => "stderr"
  | stdout => "stdout"
  | stdin => "stdin"
  | text => "text"
  end.

(** [JSONString[kind[K]]] is an empty struct: its only content is the
    type parameter. *)
Definition JSONString_String (k : kind) : list byte :=
  list_byte_of_string (kind_String k).

Record BaseMessage (K : kind) := { Time_ : Time }.
Arguments Time_ {K} _.

Definition NewBaseMessage (K : kind) (now : Time) : BaseMessage K :=
  {| Time_ := now |}.

Record StartMessage := { start_BaseMessage : BaseMessage start }.

Record ExitMessage := {
  exit_BaseMessage : BaseMessage exit;
  Code : Z
}.

Record stdioMessage (K : kind) := {
  stdio_BaseMessage : BaseMessage stdio;
  Data : list byte
}.
Arguments stdio_BaseMessage {K} _.
Arguments Data {K} _.

(** The type set [StdioLike]. *)
Inductive StdioLike := StderrMessage | StdoutMessage | StdinMessage.

#[global] Instance StdioLike_eq_dec : EqDecision StdioLike.
Proof. solve_decision. Defined.

Definition stdio_kind (T : StdioLike) : kind :=
  match T with
  | StderrMessage => stderr
  | StdoutMessage => stdout
  | StdinMessage => stdin
  end.

(** A value of interface type [Message]: the dynamic type and the
    value. *)
Inductive Message :=
| MStart (m : StartMessage)
| MExit (m : ExitMessage)
| MStdio (T : StdioLike) (m : stdioMessage (stdio_kind T)).

Definition NewStartMessage (now : Time) : Message :=
  MStart {| start_BaseMessage := NewBaseMessage start now |}.

Definition NewExitMessage (now : Time) (code : Z) : Message :=
  MExit {| exit_BaseMessage := NewBaseMessage exit now; Code := code |}.

(** [slices.Clone] gives a fresh slice with the same elements; in a
    value model it is the identity on the contents. *)
Definition Clone {A} (s : list A) : list A := s.

Definition newStdioMessage (K : kind) (now : Time) (data : list byte)
  : stdioMessage K :=
  {| stdio_BaseMessage := NewBaseMessage stdio now; Data := Clone data |}.

Definition NewStdioMessage (T : StdioLike) (now : Time) (data : list byte)
  : Message :=
  match T with
  | StderrMessage => MStdio StderrMessage (newStdioMessage stderr now data)
  | StdoutMessage => MStdio StdoutMessage (newStdioMessage stdout now data)
  | StdinMessage => MStdio StdinMessage (newStdioMessage stdin now data)
  end.

(** [TextInput]; [newTextInput] leaves the embedded time at its zero
    value. *)
Record TextInput := {
  text_BaseMessage : BaseMessage text;
  text_Data : list byte
}.

(** A value of interface type [Input]. *)
Definition Input := TextInput.
Definition Input_ (ti : TextInput) : list byte := text_Data ti.

Definition newTextInput (data : list byte) : TextInput :=
  {| text_BaseMessage := {| Time_ := zeroTime |}; text_Data := data |}.

Definition NewInputln (data : list byte) : Input :=
  newTextInput (Clone data ++ ["010"%byte]).

Definition NewInput (data : list byte) : Input := newTextInput (Clone data).

(** The fields of a message, for comparing messages of any variant. *)
Definition msg_time (m : Message) : Time :=
  match m with
  | MStart m => Time_ (start_BaseMessage m)
  | MExit m => Time_ (exit_BaseMessage m)
  | MStdio _ m => Time_ (stdio_BaseMessage m)
  end.

(** The message [m] with its timestamp replaced. *)
Definition set_time (t : Time) (m : Message) : Message :=
  match m with
  | MStart _ => MStart {| start_BaseMessage := {| Time_ := t |} |}
  | MExit m => MExit {| exit_BaseMessage := {| Time_ := t |}; Code := Code m |}
  | MStdio T m =>
      MStdio T {| stdio_BaseMessage := {| Time_ := t |}; Data := Data m |}
  end.

Definition is_Exit (code : Z) (m : Message) : bool :=
  match m with
  | MExit m => Z.eqb (Code m) code
  | _ => false
  end.

Definition is_Start (m : Message) : bool :=
  match m with MStart _ => true | _ => false end.

Definition is_Stdio (T : StdioLike) (data : list byte) (m : Message) : bool :=
  match m with
  | MStdio T' m =>
      bool_decide (T' = T) && bool_decide (Data m = data)
  | _ => false
  end.

End Messages.

(** ** The wire format (encoding/json over the message structs) *)

Module Wire.
Import Errors Messages.

(** What an RFC 3339 timestamp shows: the date and time of day, as the
    seconds from 1970-01-01T00:00:00 to them when read without a zone;
    the fraction of the second in nanoseconds; and the zone, [None] for
    "Z" and the minutes east of UTC for "+hh:mm" and "-hh:mm". *)
Record Stamp := {
  civil : Z;
  fraction : Z;
  zone : option Z
}.

(** A JSON document as the decoder sees it.  A JSON string is held as
    the bytes between its quotes with the escapes undone; a string
    that is an RFC 3339 timestamp, which [time.Time] writes and parses
    itself, is held as what it shows ([JTime]), every other string as
    its bytes ([JString]). *)
Inductive json :=
| JNull
| JString (s : list byte)
| JNumber (n : Z)
| JTime (t : Stamp)
| JObject (fields : list (string * json)).

(** The text of a timestamp in the layout
    "2006-01-02T15:04:05.999999999Z07:00". *)
Definition digit (n : Z) : byte :=
  match (n mod 10)%Z with
  | 0%Z => "0" | 1%Z => "1" | 2%Z => "2" | 3%Z => "3" | 4%Z => "4"
  | 5%Z => "5" | 6%Z => "6" | 7%Z => "7" | 8%Z => "8" | _ => "9"
  end%byte.

Definition num2 (n : Z) : list byte := [digit (n / 10); digit n].

Definition num4 (n : Z) : list byte :=
  [digit (n / 1000); digit (n / 100); digit (n / 10); digit n].

(** The year, month and day of the day [z] days after 1970-01-01, in
    the proleptic Gregorian calendar (years of 400-year eras that
    begin on March 1). *)
Definition date_of_days (z : Z) : Z * Z * Z :=
  let z := (z + 719468)%Z in
  let era := (z / 146097)%Z in
  let doe := (z - era * 146097)%Z in
  let yoe := ((doe - doe / 1460 + doe / 36524 - doe / 146096) / 365)%Z in
  let doy := (doe - (365 * yoe + yoe / 4 - yoe / 100))%Z in
  let mp := ((5 * doy + 2) / 153)%Z in
  let d := (doy - (153 * mp + 2) / 5 + 1)%Z in
  let m := if (mp <? 10)%Z then (mp + 3)%Z else (mp - 9)%Z in
  let y := (yoe + era * 400)%Z in
  (if (m <=? 2)%Z then (y + 1)%Z else y, m, d).

Fixpoint drop_zeros (rev_digits : list byte) : list byte :=
  match rev_digits with
  | "0"%byte :: r => drop_zeros r
  | _ => rev_digits
  end.

Definition fraction_text (n : Z) : list byte :=
  if (n =? 0)%Z then []
  else "."%byte ::
       rev (drop_zeros (rev (map (fun k => digit (n / 10 ^ k))
                               [8; 7; 6; 5; 4; 3; 2; 1; 0]%Z))).

Definition zone_text (z : option Z) : list byte :=
  match z with
  | None => ["Z"%byte]
  | Some z =>
      (if (z <? 0)%Z then "-" else "+")%byte
      :: num2 (Z.abs z / 60) ++ ":"%byte :: num2 (Z.abs z mod 60)
  end.

Definition RFC3339 (t : Stamp) : list byte :=
  let secs := (civil t mod 86400)%Z in
  let '(y, m, d) := date_of_days (civil t / 86400) in
  num4 y ++ "-"%byte :: num2 m ++ "-"%byte :: num2 d
  ++ "T"%byte :: num2 (secs / 3600) ++ ":"%byte :: num2 (secs / 60 mod 60)
  ++ ":"%byte :: num2 (secs mod 60)
  ++ fraction_text (fraction t) ++ zone_text (zone t).

(** [json.Marshal(s)] for a Go string [s]. *)
Definition Marshal_string (s : list byte) : json :=
  JString (UTF8.ToValidUTF8 s).

(** [json.Unmarshal(b, &s)] for a string variable [s] whose value was
    [old]: a JSON null leaves it alone, a JSON string gives its text,
    anything else is a type error. *)
Definition Unmarshal_string (old : list byte) (j : json) : result (list byte) :=
  match j with
  | JNull => Ok old
  | JString s => Ok (UTF8.ToValidUTF8 s)
  | JTime t => Ok (UTF8.ToValidUTF8 (RFC3339 t))
  | _ => Err UnmarshalTypeError
  end.

Definition JSONString_MarshalJSON (K : kind) : json :=
  Marshal_string (JSONString_String K).

Definition JSONString_UnmarshalJSON (K : kind) (j : json) : result unit :=
  letE s <- Unmarshal_string [] j in
  if bool_decide (s <> JSONString_String K)
  then Err (FormatError (JSONString_String K) s)
  else Ok tt.

Definition Data_MarshalJSON (d : list byte) : json := Marshal_string d.

Definition Data_UnmarshalJSON (j : json) : result (list byte) :=
  letE s <- Unmarshal_string [] j in Ok s.

(** [time.Time]'s own methods.  [MarshalJSON] writes the date and time
    of day that the instant has in the location of the value, and the
    zone in whole minutes; it refuses a year outside 0..9999 and a zone
    of 24 hours or more.  The reading of the monotonic clock is not
    written. *)
Definition year_0 : Z := (-62167219200)%Z.     (* 0000-01-01T00:00:00 *)
Definition year_10000 : Z := 253402300800%Z.   (* 10000-01-01T00:00:00 *)

Definition year_ok (t : Time) : bool :=
  (year_0 <=? unixSec t + zoneOffset t)%Z
  && (unixSec t + zoneOffset t <? year_10000)%Z.

Definition zone_ok (t : Time) : bool :=
  (Z.abs (Z.quot (zoneOffset t) 60) / 60 <? 24)%Z.

Definition Time_MarshalJSON (t : Time) : result json :=
  if negb (year_ok t)
  then Err (errorString "Time.MarshalJSON: year outside of range [0,9999]")
  else if negb (zone_ok t)
  then Err (errorString
              "Time.MarshalJSON: timezone hour outside of range [0,23]")
  else Ok (JTime {| civil := unixSec t + zoneOffset t;
                    fraction := nanos t;
                    zone := if (zoneOffset t =? 0)%Z then None
                            else Some (Z.quot (zoneOffset t) 60) |}).

(** [UnmarshalJSON] on a variable whose value was [old]: a JSON null
    leaves it alone; a timestamp gives the instant it shows in the
    zone it shows, without a monotonic reading; anything else is
    refused. *)
Definition Time_UnmarshalJSON (old : Time) (j : json) : result Time :=
  match j with
  | JNull => Ok old
  | JTime s =>
      Ok {| unixSec := civil s - 60 * default 0%Z (zone s);
            nanos := fraction s;
            zoneOffset := 60 * default 0%Z (zone s);
            monotonic := None |}
  | JString _ => Err (errorString "parsing time: not in RFC 3339")
  | _ => Err (errorString "Time.UnmarshalJSON: input is not a JSON string")
  end.

(** A Go [int] field. *)
Definition int_min : Z := (- 2 ^ 63)%Z.
Definition int_max : Z := (2 ^ 63 - 1)%Z.
Definition is_int (n : Z) : bool := (int_min <=? n)%Z && (n <=? int_max)%Z.

Definition int_Unmarshal (old : Z) (j : json) : result Z :=
  match j with
  | JNull => Ok old
  | JNumber n => if is_int n then Ok n else Err UnmarshalTypeError
  | _ => Err UnmarshalTypeError
  end.

(** How the decoder matches the key of a member against the name of a
    field: exactly or, failing that, with the case folded.  Folding
    takes an ASCII letter to its upper case, and so the two letters
    outside ASCII that fold onto ASCII ones: U+017F onto S and U+212A
    onto K.  The names of the fields here are ASCII and differ from
    one another when folded, so a key belongs to a field exactly when
    the two fold to the same bytes. *)
Definition upper (b : byte) : byte :=
  if ((0x61 <=? Byte.to_N b) && (Byte.to_N b <=? 0x7A))%N
  then default b (Byte.of_N (Byte.to_N b - 0x20))
  else b.

Fixpoint foldName (s : list byte) : list byte :=
  match s with
  | [] => []
  | xc5 :: xbf :: r => x53 :: foldName r
  | xe2 :: x84 :: xaa :: r => x4b :: foldName r
  | b :: r => upper b :: foldName r
  end%byte.

Fixpoint bytes_eqb (a b : list byte) : bool :=
  match a, b with
  | [], [] => true
  | x :: a, y :: b => Byte.eqb x y && bytes_eqb a b
  | _, _ => false
  end.

Definition key_is (name key : string) : bool :=
  bytes_eqb (foldName (list_byte_of_string key))
            (foldName (list_byte_of_string name)).

(** What decoding one member into its field does: the field is set; or
    the value has the wrong JSON type for a plain field, then the
    error is saved, the field is left alone and the decoding goes on;
    or the [UnmarshalJSON] method of the field returns an error, then
    the decoding ends with it. *)
Inductive outcome (S : Type) :=
| Stored (v : S)
| Saved (e : error)
| Failed (e : error).
Arguments Stored {S} v.
Arguments Saved {S} e.
Arguments Failed {S} e.

(** A field with an [UnmarshalJSON] method, and a plain field. *)
Definition by_method {A S : Type} (r : result A) (store : A -> S) : outcome S :=
  match r with Ok a => Stored (store a) | Err e => Failed e end.

Definition plain {A S : Type} (r : result A) (store : A -> S) : outcome S :=
  match r with Ok a => Stored (store a) | Err e => Saved e end.

(** Decoding an object into a struct: the members are taken in the
    order of the document, a member that matches no field is skipped.
    At the end the first saved error is returned, if there is one. *)
Fixpoint decode_object {S : Type}
    (member : string -> json -> S -> option (outcome S))
    (fields : list (string * json)) (v : S) (saved : option error)
  : result S :=
  match fields with
  | [] => match saved with Some e => Err e | None => Ok v end
  | (k, j) :: rest =>
      match member k j v with
      | None => decode_object member rest v saved
      | Some (Stored v') => decode_object member rest v' saved
      | Some (Saved e) =>
          decode_object member rest v
            (match saved with Some e0 => Some e0 | None => Some e end)
      | Some (Failed e) => Err e
      end
  end.

Definition decode_struct {S : Type}
    (member : string -> json -> S -> option (outcome S))
    (j : json) (v : S) : result S :=
  match j with
  | JNull => Ok v
  | JObject fields => decode_object member fields v None
  | _ => Err UnmarshalTypeError
  end.

(** The two members of the embedded [BaseMessage[kind[K]]]. *)
Definition BaseMessage_member (K : kind) (k : string) (j : json)
    (b : BaseMessage K) : option (outcome (BaseMessage K)) :=
  if key_is "time" k then
    Some (by_method (Time_UnmarshalJSON (Time_ b) j)
            (fun t => {| Time_ := t |}))
  else if key_is "kind" k then
    Some (by_method (JSONString_UnmarshalJSON K j) (fun _ => b))
  else None.

Definition BaseMessage_fields (K : kind) (b : BaseMessage K)
  : result (list (string * json)) :=
  letE t <- Time_MarshalJSON (Time_ b) in
  Ok [("time", t); ("kind", JSONString_MarshalJSON K)].

(** [json.Marshal] of each variant; it fails when the timestamp cannot
    be written. *)
Definition Marshal_StartMessage (m : StartMessage) : result json :=
  letE base <- BaseMessage_fields start (start_BaseMessage m) in
  Ok (JObject base).

Definition Marshal_ExitMessage (m : ExitMessage) : result json :=
  letE base <- BaseMessage_fields exit (exit_BaseMessage m) in
  Ok (JObject (base ++ [("code", JNumber (Code m))])).

Definition Marshal_stdioMessage (K : kind) (m : stdioMessage K) : result json :=
  letE base <- BaseMessage_fields stdio (stdio_BaseMessage m) in
  Ok (JObject (base ++ [("stdio", JSONString_MarshalJSON K);
                        ("data", Data_MarshalJSON (Data m))])).

Definition Marshal (m : Message) : result json :=
  match m with
  | MStart m => Marshal_StartMessage m
  | MExit m => Marshal_ExitMessage m
  | MStdio T m => Marshal_stdioMessage (stdio_kind T) m
  end.

(** [json.Unmarshal] into a zero value of each variant. *)
Definition lift {A S : Type} (o : option (outcome A)) (store : A -> S)
  : option (outcome S) :=
  match o with
  | Some (Stored a) => Some (Stored (store a))
  | Some (Saved e) => Some (Saved e)
  | Some (Failed e) => Some (Failed e)
  | None => None
  end.

Definition StartMessage_member (k : string) (j : json) (m : StartMessage)
  : option (outcome StartMessage) :=
  lift (BaseMessage_member start k j (start_BaseMessage m))
       (fun b => {| start_BaseMessage := b |}).

Definition ExitMessage_member (k : string) (j : json) (m : ExitMessage)
  : option (outcome ExitMessage) :=
  match BaseMessage_member exit k j (exit_BaseMessage m) with
  | Some o =>
      lift (Some o) (fun b => {| exit_BaseMessage := b; Code := Code m |})
  | None =>
      if key_is "code" k then
        Some (plain (int_Unmarshal (Code m) j)
                (fun c => {| exit_BaseMessage := exit_BaseMessage m;
                             Code := c |}))
      else None
  end.

Definition stdioMessage_member (K : kind) (k : string) (j : json)
    (m : stdioMessage K) : option (outcome (stdioMessage K)) :=
  match BaseMessage_member stdio k j (stdio_BaseMessage m) with
  | Some o =>
      lift (Some o) (fun b => {| stdio_BaseMessage := b; Data := Data m |})
  | None =>
      if key_is "stdio" k then
        Some (by_method (JSONString_UnmarshalJSON K j) (fun _ => m))
      else if key_is "data" k then
        Some (by_method (Data_UnmarshalJSON j)
                (fun d => {| stdio_BaseMessage := stdio_BaseMessage m;
                             Data := d |}))
      else None
  end.

Definition zeroBase (K : kind) : BaseMessage K := {| Time_ := zeroTime |}.

Definition Unmarshal_StartMessage (j : json) : result StartMessage :=
  decode_struct StartMessage_member j {| start_BaseMessage := zeroBase start |}.

Definition Unmarshal_ExitMessage (j : json) : result ExitMessage :=
  decode_struct ExitMessage_member j
    {| exit_BaseMessage := zeroBase exit; Code := 0 |}.

Definition Unmarshal_stdioMessage (K : kind) (j : json) : result (stdioMessage K) :=
  decode_struct (stdioMessage_member K) j
    {| stdio_BaseMessage := zeroBase stdio; Data := [] |}.

(** The five variants a caller can ask to decode into. *)
Inductive Variant := VStart | VExit | VStdio (T : StdioLike).

Definition variant_of (m : Message) : Variant :=
  match m with
  | MStart _ => VStart
  | MExit _ => VExit
  | MStdio T _ => VStdio T
  end.

Definition Unmarshal (v : Variant) (j : json) : result Message :=
  match v with
  | VStart => letE m <- Unmarshal_StartMessage j in Ok (MStart m)
  | VExit => letE m <- Unmarshal_ExitMessage j in Ok (MExit m)
  | VStdio T => letE m <- Unmarshal_stdioMessage (stdio_kind T) j in Ok (MStdio T m)
  end.

(** [json.Marshal] and then [json.Unmarshal] into a variant. *)
Definition round_trip (v : Variant) (m : Message) : result Message :=
  letE j <- Marshal m in Unmarshal v j.

Definition is_FormatError {A} (r : result A) : bool :=
  match r with
  | Err (FormatError _ _) => true
  | _ => false
  end.

(** What a message must satisfy to be a Go value at all: its [int]
    field is an [int]. *)
Definition well_typed (m : Message) : bool :=
  match m with
  | MExit m => is_int (Code m)
  | _ => true
  end.

(** The payload of a message is text in UTF-8. *)
Definition utf8_data (m : Message) : bool :=
  match m with
  | MStdio _ m => UTF8.Valid (Data m)
  | _ => true
  end.

(** The timestamp of a message can be written: its year is in 0..9999
    and its zone is under 24 hours. *)
Definition writable (t : Time) : bool := year_ok t && zone_ok t.

End Wire.

(** ** The broadcast stream (package flow) *)

Module Flow.

(** Modelled from the spec: the broadcast primitive [flow.Stream] is an
    outside package; section 6 of the specification gives the contract
    the controller relies on.  A stream is the sequence of items it has
    published and whether it was ended.  [Push] publishes; [Close]
    publishes its final items and ends the stream for good, so nothing
    is published after it; a subscription starts at the moment of
    [Listen] and sees no earlier item. *)
Record Stream (T : Type) := { items : list T; closed : bool }.
Arguments items {T} _.
Arguments closed {T} _.

Definition empty (T : Type) : Stream T := {| items := []; closed := false |}.

Definition Push {T} (s : Stream T) (xs : list T) : Stream T :=
  if closed s then s else {| items := items s ++ xs; closed := false |}.

Definition Close {T} (s : Stream T) (xs : list T) : Stream T :=
  if closed s then s else {| items := items s ++ xs; closed := true |}.

(** A subscription is a cursor into the published sequence. *)
Definition Listen {T} (s : Stream T) : nat := length (items s).

Inductive Recv (T : Type) :=
| RItem (x : T)      (* the next item *)
| RClosed            (* the channel is closed *)
| RBlock.            (* nothing to receive yet *)
Arguments RItem {T} x.
Arguments RClosed {T}.
Arguments RBlock {T}.

Definition recv {T} (s : Stream T) (cur : nat) : Recv T :=
  match items s !! cur with
  | Some x => RItem x
  | None => if closed s then RClosed else RBlock
  end.

End Flow.

(** ** The subprocess controller (the controller file) *)

Module Controller.
Import Errors.

(** The pipe to the process's standard input, seen from the writer:
    the chunks the pipe accepted, in order, and how often [Close] was
    called on it. *)
Record Pipe := { written : list (list byte); closes : nat }.

Definition Pipe_Write (p : Pipe) (chunk : list byte) : Pipe :=
  {| written := written p ++ [chunk]; closes := closes p |}.

Definition Pipe_Close (p : Pipe) : Pipe :=
  {| written := written p; closes := S (closes p) |}.

(** [context.AfterFunc(ctx, func() { c.Close() })]: the function is
    started in a goroutine of its own when the context is cancelled,
    unless [stop] was called before. *)
Inductive Watcher := Armed | Fired | Stopped.

(** A [sync.Once]. *)
Inductive Once := Fresh | Running | Finished.

Record Cmd := {
  stdin : Pipe;  (* the write end of the process's standard input *)
  in_ : Flow.Stream Messages.Input;  (* cmd.in *)
  out : Flow.Stream Messages.Message;  (* cmd.out *)
  Process : bool;  (* cmd.cmd.Process is not nil *)
  running : bool;  (* cmd.cmd.Run() has started the process and has not returned *)
  ctx : option error;  (* cmd.ctx.Err() *)
  stop : Watcher;  (* the AfterFunc registration behind cmd.stop *)
  started : bool;  (* cmd.started *)
  wait : nat;  (* how many times close(cmd.wait) was executed *)
  waitErr : option error;  (* cmd.waitErr *)
  killOnce : Once;  (* cmd.killOnce *)
  spawned : nat;  (* processes started so far *)
  killed : nat;  (* calls of cmd.cmd.Process.Signal(os.Kill) so far *)
  cancelKills : nat;  (* kills sent by os/exec because cmd.ctx was cancelled *)
  log : list string;  (* records written through slog.Error *)
  panic : option string  (* the panic that ended the program, if any *)
}.

Definition set_stdin (v : Pipe) (c : Cmd) : Cmd :=
  {| stdin := v; in_ := in_ c; out := out c; Process := Process c;
     running := running c; ctx := ctx c; stop := stop c;
     started := started c; wait := wait c; waitErr := waitErr c;
     killOnce := killOnce c; spawned := spawned c; killed := killed c;
     cancelKills := cancelKills c; log := log c; panic := panic c |}.

Definition set_in_ (v : Flow.Stream Messages.Input) (c : Cmd) : Cmd :=
  {| stdin := stdin c; in_ := v; out := out c; Process := Process c;
     running := running c; ctx := ctx c; stop := stop c;
     started := started c; wait := wait c; waitErr := waitErr c;
     killOnce := killOnce c; spawned := spawned c; killed := killed c;
     cancelKills := cancelKills c; log := log c; panic := panic c |}.

Definition set_out (v : Flow.Stream Messages.Message) (c : Cmd) : Cmd :=
  {| stdin := stdin c; in_ := in_ c; out := v; Process := Process c;
     running := running c; ctx := ctx c; stop := stop c;
     started := started c; wait := wait c; waitErr := waitErr c;
     killOnce := killOnce c; spawned := spawned c; killed := killed c;
     cancelKills := cancelKills c; log := log c; panic := panic c |}.

Definition set_Process (v : bool) (c : Cmd) : Cmd :=
  {| stdin := stdin c; in_ := in_ c; out := out c; Process := v;
     running := running c; ctx := ctx c; stop := stop c;
     started := started c; wait := wait c; waitErr := waitErr c;
     killOnce := killOnce c; spawned := spawned c; killed := killed c;
     cancelKills := cancelKills c; log := log c; panic := panic c |}.

Definition set_running (v : bool) (c : Cmd) : Cmd :=
  {| stdin := stdin c; in_ := in_ c; out := out c; Process := Process c;
     running := v; ctx := ctx c; stop := stop c; started := started c;
     wait := wait c; waitErr := waitErr c; killOnce := killOnce c;
     spawned := spawned c; killed := killed c;
     cancelKills := cancelKills c; log := log c; panic := panic c |}.

Definition set_ctx (v : option error) (c : Cmd) : Cmd :=
  {| stdin := stdin c; in_ := in_ c; out := out c; Process := Process c;
     running := running c; ctx := v; stop := stop c; started := started c;
     wait := wait c; waitErr := waitErr c; killOnce := killOnce c;
     spawned := spawned c; killed := killed c;
     cancelKills := cancelKills c; log := log c; panic := panic c |}.

Definition set_stop (v : Watcher) (c : Cmd) : Cmd :=
  {| stdin := stdin c; in_ := in_ c; out := out c; Process := Process c;
     running := running c; ctx := ctx c; stop := v; started := started c;
     wait := wait c; waitErr := waitErr c; killOnce := killOnce c;
     spawned := spawned c; killed := killed c;
     cancelKills := cancelKills c; log := log c; panic := panic c |}.

Definition set_started (v : bool) (c : Cmd) : Cmd :=
  {| stdin := stdin c; in_ := in_ c; out := out c; Process := Process c;
     running := running c; ctx := ctx c; stop := stop c; started := v;
     wait := wait c; waitErr := waitErr c; killOnce := killOnce c;
     spawned := spawned c; killed := killed c;
     cancelKills := cancelKills c; log := log c; panic := panic c |}.

Definition set_wait (v : nat) (c : Cmd) : Cmd :=
  {| stdin := stdin c; in_ := in_ c; out := out c; Process := Process c;
     running := running c; ctx := ctx c; stop := stop c;
     started := started c; wait := v; waitErr := waitErr c;
     killOnce := killOnce c; spawned := spawned c; killed := killed c;
     cancelKills := cancelKills c; log := log c; panic := panic c |}.

Definition set_waitErr (v : option error) (c : Cmd) : Cmd :=
  {| stdin := stdin c; in_ := in_ c; out := out c; Process := Process c;
     running := running c; ctx := ctx c; stop := stop c;
     started := started c; wait := wait c; waitErr := v;
     killOnce := killOnce c; spawned := spawned c; killed := killed c;
     cancelKills := cancelKills c; log := log c; panic := panic c |}.

Definition set_killOnce (v : Once) (c : Cmd) : Cmd :=
  {| stdin := stdin c; in_ := in_ c; out := out c; Process := Process c;
     running := running c; ctx := ctx c; stop := stop c;
     started := started c; wait := wait c; waitErr := waitErr c;
     killOnce := v; spawned := spawned c; killed := killed c;
     cancelKills := cancelKills c; log := log c; panic := panic c |}.

Definition set_spawned (v : nat) (c : Cmd) : Cmd :=
  {| stdin := stdin c; in_ := in_ c; out := out c; Process := Process c;
     running := running c; ctx := ctx c; stop := stop c;
     started := started c; wait := wait c; waitErr := waitErr c;
     killOnce := killOnce c; spawned := v; killed := killed c;
     cancelKills := cancelKills c; log := log c; panic := panic c |}.

Definition set_killed (v : nat) (c : Cmd) : Cmd :=
  {| stdin := stdin c; in_ := in_ c; out := out c; Process := Process c;
     running := running c; ctx := ctx c; stop := stop c;
     started := started c; wait := wait c; waitErr := waitErr c;
     killOnce := killOnce c; spawned := spawned c; killed := v;
     cancelKills := cancelKills c; log := log c; panic := panic c |}.

Definition set_cancelKills (v : nat) (c : Cmd) : Cmd :=
  {| stdin := stdin c; in_ := in_ c; out := out c; Process := Process c;
     running := running c; ctx := ctx c; stop := stop c;
     started := started c; wait := wait c; waitErr := waitErr c;
     killOnce := killOnce c; spawned := spawned c; killed := killed c;
     cancelKills := v; log := log c; panic := panic c |}.

Definition set_log (v : list string) (c : Cmd) : Cmd :=
  {| stdin := stdin c; in_ := in_ c; out := out c; Process := Process c;
     running := running c; ctx := ctx c; stop := stop c;
     started := started c; wait := wait c; waitErr := waitErr c;
     killOnce := killOnce c; spawned := spawned c; killed := killed c;
     cancelKills := cancelKills c; log := v; panic := panic c |}.

Definition set_panic (v : option string) (c : Cmd) : Cmd :=
  {| stdin := stdin c; in_ := in_ c; out := out c; Process := Process c;
     running := running c; ctx := ctx c; stop := stop c;
     started := started c; wait := wait c; waitErr := waitErr c;
     killOnce := killOnce c; spawned := spawned c; killed := killed c;
     cancelKills := cancelKills c; log := log c; panic := v |}.

(** What the outside world decides in a step: the clock, whether the
    process can be started, how it ends, what closing and writing the
    pipe return, and whether the timer of [time.After] has fired. *)
Inductive WaitOutcome :=
| Exited (code : Z)          (* the process ended; its ExitCode() *)
| WaitFailed (msg : string). (* Wait failed for another reason *)

Record Ext := {
  now : Messages.Time;
  start_fail : option string;
  wait_outcome : WaitOutcome;
  close_fail : option string;
  timer : bool;
  write_n : nat;
  write_fail : option string
}.

Definition io_error (e : option string) : option error :=
  match e with Some msg => Some (errorString msg) | None => None end.

(** The error of [cmd.cmd.Wait()]: nil for exit status 0, an
    [*exec.ExitError] for any other end of the process. *)
Definition wait_error (o : WaitOutcome) : option error :=
  match o with
  | Exited c => if Z.eqb c 0 then None else Some (ExitError c)
  | WaitFailed msg => Some (errorString msg)
  end.

(** The program counter of a goroutine, with its local variables. *)
Inductive pc :=
(* Start *)
| Start_cas
| Start_done
(* CloseTimeout(timeout) *)
| Close_cancel (timeout : Z)
| Close_stop (timeout : Z)
| Close_cas (timeout : Z)
| Close_cleanup_out            (* cleanupCmd(false): cmd.out.Close() *)
| Close_cleanup_stdin          (* cmd.waitErr = Join(cmd.waitErr, cmd.stdin.Close()) *)
| Close_cleanup_wait           (* the deferred close(cmd.wait) *)
| Close_once_noop              (* cmd.killOnce.Do(func() {}) *)
| Close_once (timeout : Z)     (* cmd.killOnce.Do(func() { ... }) *)
| Close_select                 (* inside Do: the select *)
| Close_kill                   (* inside Do: Process.Signal(os.Kill) *)
| Close_once_exit              (* Do returns *)
| Close_wait                   (* <-cmd.Done() *)
| Close_return                 (* return cmd.waitErr *)
| Returned (err : option error)
(* runCmd *)
| Run_push_start               (* cmd.out.Push(NewStartMessage()) *)
| Run_go_pump                  (* go cmd.pipeInput(cmd.in.Listen(cmd.ctx), cmd.stdin) *)
| Run_start                    (* cmd.cmd.Run(): starting the process *)
| Run_waitproc                 (* cmd.cmd.Run(): waiting for it *)
| Run_result (err : option error)       (* if err != nil { ... } *)
| Run_sendCode (err : option error) (code : Z)   (* sendCode: the exit-code error *)
| Run_sendExit (err : option error) (code : Z)   (* sendCode: cmd.out.Close(...) *)
| Run_cleanup_stdin (err : option error) (code : Z)
| Run_cleanup_wait (err : option error) (code : Z) (cerr : option error)
| Run_done (err : option error) (code : Z) (cerr : option error)
(* pipeInput *)
| Pump_loop (cur : nat)
| Pump_cancel                  (* the deferred cmd.cancel() *)
| Pump_close                   (* the deferred in.Close() *)
| Pump_done.

(** [cancel], for [cmd.cancel()] and for the caller's outer scope: the
    first cancellation sets the error and starts the watcher's
    [c.Close()] if it is still armed.  The command was built with
    [exec.CommandContext(cmd.ctx, ...)], so when the token is cancelled
    while the process runs, os/exec kills the process. *)
Definition cancel (e : error) (c : Cmd) : Cmd * list pc :=
  match ctx c with
  | Some _ => (c, [])
  | None =>
      let c1 :=
        set_cancelKills (if running c then S (cancelKills c)
                         else cancelKills c)
          (set_ctx (Some e) c) in
      match stop c with
      | Armed => (set_stop Fired c1, [Close_cancel 0])
      | _ => (c1, [])
      end
  end.

(** [cmd.stop()]. *)
Definition do_stop (c : Cmd) : Cmd :=
  match stop c with
  | Armed => set_stop Stopped c
  | _ => c
  end.

(** [close(cmd.wait)]; closing a closed channel panics. *)
Definition close_wait (c : Cmd) : Cmd :=
  let c' := set_wait (S (wait c)) c in
  if Nat.eqb (wait c) 0 then c'
  else set_panic (Some "close of closed channel") c'.

(** [kindWriter[K].Write(b)]. *)
Definition kindWriter_Write (K : Messages.StdioLike) (t : Messages.Time)
    (b : list byte) (c : Cmd) : Cmd * (nat * option error) :=
  match ctx c with
  | Some e => (c, (0, Some e))
  | None =>
      (set_out (Flow.Push (out c)
                  [Messages.NewStdioMessage K t (Messages.Clone b)]) c,
       (length b, None))
  end.

(** [setCode] and the [if err != nil] of [runCmd]: the exit code and
    the accumulated error after it. *)
Definition run_code (err : option error) : Z :=
  match err with
  | None => 0
  | Some e => match As_ExitError e with
              | Some c => c
              | None => -1
              end
  end.

Definition run_waitErr (err : option error) (waitErr : option error)
  : option error :=
  match err with
  | None => waitErr
  | Some e => match As_ExitError e with
              | Some _ => waitErr
              | None => Join waitErr (Some e)
              end
  end.

(** [sendCode], its first statement. *)
Definition sendCode_waitErr (code : Z) (waitErr : option error) : option error :=
  if Z.eqb code 0 then waitErr else Join waitErr (Some (ErrExitCode code)).

(** One turn of the loop of [pipeInput] with the cursor [cur] of its
    subscription: the loop ends, goes on, or waits for input.  The
    writer keeps [io.Writer]'s contract, [0 <= n <= len(b)], so
    [b[:n]] is [take n b]. *)
Inductive Stop := StopCancelled | StopClosed | StopWriteError.

Inductive Iter :=
| Continue (c : Cmd)
| Return (c : Cmd) (why : Stop)
| Block.

Definition incomplete : string := "incomplete write of stdin".

Definition pipeInput_iter (x : Ext) (cur : nat) (c : Cmd) : Iter :=
  match ctx c with
  | Some _ => Return c StopCancelled
  | None =>
      match Flow.recv (in_ c) cur with
      | Flow.RItem data =>
          let b := Messages.Input_ data in
          let n := write_n x in
          let c := set_stdin (Pipe_Write (stdin c) (take n b)) c in
          let c := set_out (Flow.Push (out c)
                     [Messages.NewStdioMessage Messages.StdinMessage (now x)
                        (take n b)]) c in
          match write_fail x with
          | Some _ => Return c StopWriteError
          | None =>
              if Nat.leb n (length b)
              then Continue (set_log (log c ++ [incomplete]) c)
              else Continue c
          end
      | Flow.RClosed => Return c StopClosed
      | Flow.RBlock => Block
      end
  end.

(** [pipeInput] run by itself over the outcomes [xs] of its writes:
    the state it reaches, the cursor, and why it stopped ([None] while
    it is still in its loop). *)
Fixpoint pipeInput (xs : list Ext) (cur : nat) (c : Cmd)
  : Cmd * nat * option Stop :=
  match xs with
  | [] => (c, cur, None)
  | x :: xs =>
      match pipeInput_iter x cur c with
      | Continue c' => pipeInput xs (S cur) c'
      | Return c' why => (c', cur, Some why)
      | Block => (c, cur, None)
      end
  end.

(** One step of a goroutine: the new shared state, the new program
    counter and the goroutines it starts.  [None]: the goroutine is
    blocked or has ended. *)
Definition thread_step (x : Ext) (p : pc) (c : Cmd)
  : option (Cmd * pc * list pc) :=
  match p with
  | Start_cas =>
      if started c then Some (c, Start_done, [])
      else Some (set_started true c, Start_done, [Run_push_start])
  | Start_done => None
  | Close_cancel t =>
      let '(c', new) := cancel Canceled c in Some (c', Close_stop t, new)
  | Close_stop t => Some (do_stop c, Close_cas t, [])
  | Close_cas t =>
      if started c then Some (c, Close_once t, [])
      else Some (set_started true c, Close_cleanup_out, [])
  | Close_cleanup_out =>
      Some (set_out (Flow.Close (out c) []) c, Close_cleanup_stdin, [])
  | Close_cleanup_stdin =>
      Some (set_waitErr (Join (waitErr c) (io_error (close_fail x)))
              (set_stdin (Pipe_Close (stdin c)) c),
            Close_cleanup_wait, [])
  | Close_cleanup_wait => Some (close_wait c, Close_once_noop, [])
  | Close_once_noop =>
      match killOnce c with
      | Fresh => Some (set_killOnce Running c, Close_once_exit, [])
      | Running => None
      | Finished => Some (c, Close_wait, [])
      end
  | Close_once t =>
      match killOnce c with
      | Fresh =>
          Some (set_killOnce Running c,
                if (0 <? t)%Z then Close_select else Close_once_exit, [])
      | Running => None
      | Finished => Some (c, Close_wait, [])
      end
  | Close_select =>
      if timer x then Some (c, Close_kill, [])
      else if Nat.ltb 0 (wait c) then Some (c, Close_once_exit, [])
      else None
  | Close_kill =>
      if Process c then Some (set_killed (S (killed c)) c, Close_once_exit, [])
      else Some (set_panic (Some "nil pointer dereference") c, Close_kill, [])
  | Close_once_exit => Some (set_killOnce Finished c, Close_wait, [])
  | Close_wait =>
      if Nat.ltb 0 (wait c) then Some (c, Close_return, []) else None
  | Close_return => Some (c, Returned (waitErr c), [])
  | Returned _ => None
  | Run_push_start =>
      Some (set_out (Flow.Push (out c) [Messages.NewStartMessage (now x)]) c,
            Run_go_pump, [])
  | Run_go_pump => Some (c, Run_start, [Pump_loop (Flow.Listen (in_ c))])
  | Run_start =>
      match ctx c with
      | Some e => Some (c, Run_result (Some e), [])
      | None =>
          match start_fail x with
          | Some msg => Some (c, Run_result (Some (errorString msg)), [])
          | None =>
              Some (set_spawned (S (spawned c))
                      (set_running true (set_Process true c)),
                    Run_waitproc, [])
          end
      end
  | Run_waitproc =>
      Some (set_running false c, Run_result (wait_error (wait_outcome x)), [])
  | Run_result err =>
      Some (set_waitErr (run_waitErr err (waitErr c)) c,
            Run_sendCode err (run_code err), [])
  | Run_sendCode err code =>
      Some (set_waitErr (sendCode_waitErr code (waitErr c)) c,
            Run_sendExit err code, [])
  | Run_sendExit err code =>
      Some (set_out (Flow.Close (out c) [Messages.NewExitMessage (now x) code]) c,
            Run_cleanup_stdin err code, [])
  | Run_cleanup_stdin err code =>
      Some (set_waitErr (Join (waitErr c) (io_error (close_fail x)))
              (set_stdin (Pipe_Close (stdin c)) c),
            Run_cleanup_wait err code (io_error (close_fail x)), [])
  | Run_cleanup_wait err code cerr =>
      Some (close_wait c, Run_done err code cerr, [])
  | Run_done _ _ _ => None
  | Pump_loop cur =>
      match pipeInput_iter x cur c with
      | Continue c' => Some (c', Pump_loop (S cur), [])
      | Return c' _ => Some (c', Pump_cancel, [])
      | Block => None
      end
  | Pump_cancel =>
      let '(c', new) := cancel Canceled c in Some (c', Pump_close, new)
  | Pump_close => Some (set_stdin (Pipe_Close (stdin c)) c, Pump_done, [])
  | Pump_done => None
  end.

(** The controller and the goroutines that run on it. *)
Record World := { cmd : Cmd; threads : list pc }.

(** What can happen next: a goroutine takes a step, somebody calls a
    method, the caller's outer scope is cancelled, or the running
    process writes a chunk to its standard output or error. *)
Inductive action :=
| Step (tid : nat) (x : Ext)
| CallStart
| CallClose (timeout : Z)
| CallPush (inputs : list Messages.Input)
| ParentCancel (e : string)
| Output (K : Messages.StdioLike) (t : Messages.Time) (b : list byte).

Definition alive (w : World) : bool :=
  match panic (cmd w) with None => true | Some _ => false end.

Definition step (w : World) (a : action) : option World :=
  if negb (alive w) then None else
  match a with
  | Step tid x =>
      match threads w !! tid with
      | None => None
      | Some p =>
          match thread_step x p (cmd w) with
          | None => None
          | Some (c', p', new) =>
              Some {| cmd := c'; threads := <[tid := p']> (threads w) ++ new |}
          end
      end
  | CallStart => Some {| cmd := cmd w; threads := threads w ++ [Start_cas] |}
  | CallClose t =>
      Some {| cmd := cmd w; threads := threads w ++ [Close_cancel t] |}
  | CallPush inputs =>
      Some {| cmd := set_in_ (Flow.Push (in_ (cmd w)) inputs) (cmd w);
              threads := threads w |}
  | ParentCancel e =>
      let '(c', new) := cancel (errorString e) (cmd w) in
      Some {| cmd := c'; threads := threads w ++ new |}
  | Output K t b =>
      if running (cmd w) then
        Some {| cmd := fst (kindWriter_Write K t b (cmd w));
                threads := threads w |}
      else None
  end.

Fixpoint run (w : World) (sched : list action) : option World :=
  match sched with
  | [] => Some w
  | a :: rest =>
      match step w a with
      | Some w' => run w' rest
      | None => None
      end
  end.

(** The controller as [New] returns it. *)
Definition New : World :=
  {| cmd := {| stdin := {| written := []; closes := 0 |};
               in_ := Flow.empty _;
               out := Flow.empty _;
               Process := false;
               running := false;
               ctx := None;
               stop := Armed;
               started := false;
               wait := 0;
               waitErr := None;
               killOnce := Fresh;
               spawned := 0;
               killed := 0;
               cancelKills := 0;
               log := [];
               panic := None |};
     threads := [] |}.

Definition reachable (w : World) : Prop :=
  exists sched, run New sched = Some w.

End Controller.

(** ** Byte slices and their backing arrays *)

Module Slices.

(** A Go slice points into a backing array, and two slices may share
    one.  The store holds the contents of every backing array by
    address; a fresh array gets the next address. *)
Abbreviation addr := nat (only parsing).
Abbreviation Store := (list (list byte)) (only parsing).

Definition alloc (s : Store) (bs : list byte) : Store * addr :=
  (s ++ [bs], length s).

(** [slices.Clone(b)]. *)
Definition Clone (s : Store) (b : addr) : option (Store * addr) :=
  match s !! b with
  | Some bs => Some (alloc s bs)
  | None => None
  end.

(** The caller of [Write] reuses its buffer after the call. *)
Definition overwrite (s : Store) (b : addr) (bs : list byte) : Store :=
  <[b := bs]> s.

(** [kindWriter.Write(b)] on the store: the array that the [Data] of
    the published message points to, if a message is published.
    [Write] clones [b] for [NewStdioMessage], and [newStdioMessage]
    clones its argument once more. *)
Definition Write_Data (cancelled : bool) (s : Store) (b : addr)
  : option (Store * option addr) :=
  if cancelled then Some (s, None)
  else
    match Clone s b with
    | Some (s1, a1) =>
        match Clone s1 a1 with
        | Some (s2, a2) => Some (s2, Some a2)
        | None => None
        end
    | None => None
    end.

End Slices.

(** ** Notions used to state the properties *)

Module Props.
Import Errors Controller.

(** The input stream after a sequence of calls of [Push]. *)
Definition push_all (pushes : list (list Messages.Input)) (c : Cmd) : Cmd :=
  fold_left (fun c inputs => set_in_ (Flow.Push (in_ c) inputs) c) pushes c.

(** The stream after publishing the messages [ms] one call at a time. *)
Definition publish (ms : list Messages.Message)
    (s : Flow.Stream Messages.Message) : Flow.Stream Messages.Message :=
  fold_left (fun s m => Flow.Push s [m]) ms s.

(** What each write takes from each input: the prefix the pipe
    accepted. *)
Definition chunks (xs : list Ext) (ds : list Messages.Input)
  : list (list byte) :=
  zip_with (fun x d => take (write_n x) (Messages.Input_ d)) xs ds.

Definition echoes (xs : list Ext) (ds : list Messages.Input)
  : list Messages.Message :=
  zip_with (fun x d =>
              Messages.NewStdioMessage Messages.StdinMessage (now x)
                (take (write_n x) (Messages.Input_ d))) xs ds.

(** The bytes a StdinEcho message carries: its [Data] field. *)
Definition stdin_echo (m : Messages.Message) : option (list byte) :=
  match m with
  | Messages.MStdio Messages.StdinMessage m => Some (Messages.Data m)
  | _ => None
  end.

Definition write_ok (x : Ext) : bool :=
  match write_fail x with None => true | Some _ => false end.

(** What one turn of the pump does with the input [d]: one chunk goes
    to the pipe, one echo to the output stream, the rest is as it
    was. *)
Definition wrote (x : Ext) (d : Messages.Input) (c c' : Cmd) : Prop :=
  in_ c' = in_ c /\ ctx c' = ctx c /\ waitErr c' = waitErr c
  /\ written (stdin c')
     = written (stdin c) ++ [take (write_n x) (Messages.Input_ d)]
  /\ out c' = Flow.Push (out c)
                [Messages.NewStdioMessage Messages.StdinMessage (now x)
                   (take (write_n x) (Messages.Input_ d))].

(** Why the pump has stopped, in terms of what it met on its way:
    [k] inputs were taken, [ds] were there to take. *)
Definition stop_reason (c : Cmd) (xs : list Ext) (ds : list Messages.Input)
    (k : nat) (why : option Stop) : Prop :=
  match why with
  | Some StopCancelled => ctx c <> None /\ k = 0
  | Some StopWriteError =>
      exists x, xs !! (k - 1) = Some x /\ write_ok x = false /\ 1 <= k
                /\ forallb write_ok (take (k - 1) xs) = true
  | Some StopClosed =>
      Flow.closed (in_ c) = true /\ k = length ds
      /\ forallb write_ok (take k xs) = true
  | None =>
      forallb write_ok (take k xs) = true
      /\ (k = length xs
          \/ (k = length ds /\ Flow.closed (in_ c) = false /\ ctx c = None))
  end.


(** *** The goroutines of a world, counted by what they still have to do *)

Definition b2n (b : bool) : nat := if b then 1 else 0.

(** A goroutine that has [close(cmd.wait)] ahead of it: the caller of
    [CloseTimeout] that found the controller not started, and
    [runCmd]. *)
Definition closer (p : pc) : nat :=
  match p with
  | Close_cleanup_out | Close_cleanup_stdin | Close_cleanup_wait
  | Run_push_start | Run_go_pump | Run_start | Run_waitproc
  | Run_result _ | Run_sendCode _ _ | Run_sendExit _ _
  | Run_cleanup_stdin _ _ | Run_cleanup_wait _ _ _ => 1
  | _ => 0
  end.

(** A goroutine running [runCmd], at any point of it. *)
Definition runner (p : pc) : nat :=
  match p with
  | Run_push_start | Run_go_pump | Run_start | Run_waitproc
  | Run_result _ | Run_sendCode _ _ | Run_sendExit _ _
  | Run_cleanup_stdin _ _ | Run_cleanup_wait _ _ _ | Run_done _ _ _ => 1
  | _ => 0
  end.

(** A [runCmd] that has not yet called [cmd.cmd.Run()]. *)
Definition spawner (p : pc) : nat :=
  match p with
  | Run_push_start | Run_go_pump | Run_start => 1
  | _ => 0
  end.

(** A caller inside the function of [killOnce] with the signal still
    ahead of it. *)
Definition killer (p : pc) : nat :=
  match p with
  | Close_select | Close_kill => 1
  | _ => 0
  end.

Definition used (o : Once) : nat :=
  match o with Fresh => 0 | _ => 1 end.

Definition count (f : pc -> nat) (w : World) : nat :=
  sum_list_with f (threads w).

(** The output stream was ended by an Exit message whose [Code] is
    [code]. *)
Definition final_exit (code : Z) (s : Flow.Stream Messages.Message) : Prop :=
  Flow.closed s = true
  /\ exists m, last (Flow.items s) = Some m
               /\ Messages.is_Exit code m = true.

(** The errors [cmd.cmd.Run()] can return: none, an [*exec.ExitError]
    with a code other than 0, or an error of another type. *)
Definition run_error (err : option error) : Prop :=
  err = None
  \/ (exists k, k <> 0%Z /\ err = Some (ExitError k))
  \/ (exists msg, err = Some (errorString msg)).

(** The accumulated error as [runCmd] leaves it: after the handling of
    the result, after [sendCode], after [cleanupCmd]. *)
Definition waitErr_sent (err : option error) : option error :=
  sendCode_waitErr (run_code err) (run_waitErr err None).

Definition waitErr_final (err cerr : option error) : option error :=
  Join (waitErr_sent err) cerr.

(** What holds of the shared state while a goroutine is at [p]. *)
Definition pc_ok (c : Cmd) (p : pc) : Prop :=
  match p with
  | Close_return => 1 <= wait c
  | Returned e => 1 <= wait c /\ e = waitErr c
  | Close_cleanup_out | Close_cleanup_stdin => waitErr c = None
  | Run_push_start | Run_go_pump | Run_start | Run_waitproc =>
      waitErr c = None /\ Flow.closed (out c) = false
  | Run_result err =>
      run_error err /\ waitErr c = None /\ Flow.closed (out c) = false
  | Run_sendCode err code =>
      run_error err /\ code = run_code err
      /\ waitErr c = run_waitErr err None /\ Flow.closed (out c) = false
  | Run_sendExit err code =>
      run_error err /\ code = run_code err
      /\ waitErr c = waitErr_sent err /\ Flow.closed (out c) = false
  | Run_cleanup_stdin err code =>
      run_error err /\ code = run_code err
      /\ waitErr c = waitErr_sent err /\ final_exit code (out c)
  | Run_cleanup_wait err code cerr =>
      run_error err /\ code = run_code err
      /\ waitErr c = waitErr_final err cerr /\ final_exit code (out c)
  | Run_done err code cerr =>
      run_error err /\ code = run_code err
      /\ waitErr c = waitErr_final err cerr /\ final_exit code (out c)
      /\ 1 <= wait c
  | _ => True
  end.

Definition nil_deref : string := "nil pointer dereference".

(** The invariant of the controller. *)
Record Inv (w : World) : Prop := {
  inv_tokens : count closer w + wait (cmd w) = b2n (started (cmd w));
  inv_runs : count runner w <= b2n (started (cmd w));
  inv_spawn : spawned (cmd w) + count spawner w <= count runner w;
  inv_kill : killed (cmd w) + count killer w <= used (killOnce (cmd w));
  inv_pcs : Forall (pc_ok (cmd w)) (threads w);
  inv_fresh : started (cmd w) = false ->
              waitErr (cmd w) = None /\ Flow.closed (out (cmd w)) = false;
  inv_ctx : forall e, ctx (cmd w) = Some e -> exists msg, e = errorString msg;
  inv_panic : forall s, panic (cmd w) = Some s -> s = nil_deref
}.

(** Nothing the goroutines of other kinds rely on has changed. *)
Definition frame (c c' : Cmd) : Prop :=
  waitErr c' = waitErr c /\ wait c' = wait c
  /\ Flow.closed (out c') = Flow.closed (out c)
  /\ (Flow.closed (out c) = true -> out c' = out c).

(** One turn of the pump leaves the state machine of the controller
    alone. *)
Definition pump_frame (c c' : Cmd) : Prop :=
  started c' = started c /\ wait c' = wait c /\ waitErr c' = waitErr c
  /\ killOnce c' = killOnce c /\ killed c' = killed c
  /\ spawned c' = spawned c /\ Process c' = Process c
  /\ ctx c' = ctx c /\ panic c' = panic c
  /\ Flow.closed (out c') = Flow.closed (out c)
  /\ (Flow.closed (out c) = true -> out c' = out c).

(** Schedules in which nobody calls [Start]; schedules in which nobody
    asks for a shutdown. *)
Definition never_started (sched : list action) : bool :=
  forallb (fun a => match a with CallStart => false | _ => true end) sched.

Definition start_only (sched : list action) : bool :=
  forallb (fun a => match a with
                    | CallClose _ | ParentCancel _ => false
                    | _ => true
                    end) sched.

(** A goroutine running [CloseTimeout]. *)
Definition closing (p : pc) : bool :=
  match p with
  | Close_cancel _ | Close_stop _ | Close_cas _
  | Close_cleanup_out | Close_cleanup_stdin | Close_cleanup_wait
  | Close_once_noop | Close_once _ | Close_select | Close_kill
  | Close_once_exit | Close_wait | Close_return | Returned _ => true
  | _ => false
  end.

(** The accumulated error holds at most what closing the pipe gave. *)
Definition close_error_only (e : option error) : Prop :=
  e = None \/ exists msg, e = Some (joinError [errorString msg]).

(** The invariant of a controller that was never started. *)
Record InvNS (w : World) : Prop := {
  ns_threads : Forall (fun p => closing p = true) (threads w);
  ns_process : Process (cmd w) = false;
  ns_spawned : spawned (cmd w) = 0;
  ns_killed : killed (cmd w) = 0;
  ns_waitErr : close_error_only (waitErr (cmd w))
}.

(** The invariant of a controller nobody shuts down. *)
Record InvSO (w : World) : Prop := {
  so_created : started (cmd w) = false ->
               Forall (fun p => p = Start_cas) (threads w);
  so_started : started (cmd w) = true -> count runner w = 1
}.

(** A call of [CloseTimeout(t)] on a new controller, run on its own:
    the ten steps of the caller, the outside world being [x]. *)
Definition close_alone (t : Z) (x : Ext) : list action :=
  CallClose t :: replicate 10 (Step 0 x).

(** A call of [CloseTimeout(5)] on a new controller in which the
    watcher's [c.Close()] is faster: thread 0 is the caller, thread 1
    the watcher. *)
Definition quiet : Ext :=
  {| now := Messages.clock 0; start_fail := None; wait_outcome := Exited 0;
     close_fail := None; timer := false; write_n := 0; write_fail := None |}.

Definition watcher_first : list action :=
  [CallClose 5; Step 0 quiet;
   Step 1 quiet; Step 1 quiet; Step 1 quiet;
   Step 0 quiet; Step 0 quiet; Step 0 quiet].


(** The queue of a controller on which one input "a" was pushed. *)
Definition one_input : Cmd :=
  push_all [[Messages.NewInput (list_byte_of_string "a")]] (cmd New).

Definition full_write : Ext :=
  {| now := Messages.clock 0; start_fail := None; wait_outcome := Exited 0;
     close_fail := None; timer := false; write_n := 1; write_fail := None |}.

(** A started controller on which the input "a" is pushed after
    [runCmd] has published the Start message and before it subscribes
    the pump to the input queue: thread 0 is the caller of [Start],
    thread 1 is [runCmd], thread 2 the pump. *)
Definition early_push : list action :=
  [CallStart; Step 0 quiet; Step 1 quiet;
   CallPush [Messages.NewInput (list_byte_of_string "a")];
   Step 1 quiet].

(** The program counters a goroutine goes through along a schedule. *)
Fixpoint pcs_along (tid : nat) (w : World) (sched : list action) : list pc :=
  match sched with
  | [] => []
  | a :: rest =>
      match step w a with
      | Some w' =>
          match threads w' !! tid with
          | Some p => p :: pcs_along tid w' rest
          | None => pcs_along tid w' rest
          end
      | None => []
      end
  end.

(** The world a schedule leads to from a new controller. *)
Definition world_after (sched : list action) : World :=
  default New (run New sched).

(** A controller that is started and whose process exits with status
    3: thread 0 is the caller of [Start], thread 1 is [runCmd]. *)
Definition exit3 : Ext :=
  {| now := Messages.clock 1; start_fail := None; wait_outcome := Exited 3;
     close_fail := None; timer := false; write_n := 0; write_fail := None |}.

Definition started_run : list action :=
  CallStart :: Step 0 quiet :: replicate 9 (Step 1 exit3).

(** Two callers of [CloseTimeout] on a new controller, one after the
    other: threads 0 and 1. *)
Definition two_closers : list action :=
  [CallClose 0; CallClose 7]
  ++ replicate 10 (Step 0 quiet) ++ replicate 6 (Step 1 quiet).

End Props.

(** ** Launching the process (os/exec as the package uses it) *)

Module Exec.
Import Errors CommandSpec.

(** [ErrExitCode.Error]: [fmt.Sprintf("exit code(%d)", err)]. *)
Definition ErrExitCode_Error (code : Z) : string :=
  "exit code(" ++ NilZero.string_of_int (Z.to_int code) ++ ")".

(** The fields of an [*exec.Cmd] that [exec.CommandContext] and the
    package set.  [Args] holds the command name first; an empty [Env]
    makes the process inherit the environment of the caller; [LookErr]
    is the error of the search for the executable, which [Start]
    returns. *)
Record ExecCmd := {
  Path : string;
  Args : list string;
  Env : list string;
  LookErr : option string
}.

(** [filepath.Base(name) == name] where the separator is '/': the
    name is not empty and has no separator, or it is "/" itself. *)
Fixpoint has_separator (s : string) : bool :=
  match s with
  | EmptyString => false
  | String c r => Ascii.eqb c "/" || has_separator r
  end.

Definition is_Base (name : string) : bool :=
  String.eqb name "/"
  || (negb (String.eqb name "") && negb (has_separator name)).

(** [exec.CommandContext(ctx, name, arg...)].  [look] is
    [exec.LookPath] on the machine: the path it finds (empty when it
    finds none) and its error.  A name that is a bare file name is
    looked up, and the path found replaces it. *)
Definition CommandContext (look : string -> string * option string)
    (name : string) (arg : list string) : ExecCmd :=
  if is_Base name then
    let '(lp, err) := look name in
    {| Path := if String.eqb lp "" then name else lp;
       Args := name :: arg; Env := []; LookErr := err |}
  else {| Path := name; Args := name :: arg; Env := []; LookErr := None |}.

(** [initializeCommand], the process description it builds;
    [environ] is [os.Environ()]. *)
Definition initializeCommand (look : string -> string * option string)
    (environ : list string) (cae : Command) : ExecCmd :=
  let '(command, args, env) := commandCollect cae in
  let c := CommandContext look command args in
  let c := if Nat.eqb (length (Env c)) 0
           then {| Path := Path c; Args := Args c; Env := environ;
                   LookErr := LookErr c |}
           else c in
  {| Path := Path c; Args := Args c; Env := Env c ++ env;
     LookErr := LookErr c |}.

(** What the process does, for [Run]: it cannot be started, or it ends
    with an exit code (-1 when a signal ended it) and possibly an error
    of the copying of its output. *)
Inductive Ran :=
| NotStarted (msg : string)
| Ended (code : Z) (copy_fail : option string).

Record Behaviour := {
  b_stdout : list byte;
  b_stderr : list byte;
  b_ran : Ran
}.

(** The error of [c.Run()] and [c.ProcessState.ExitCode()]. *)
Definition Run_error (r : Ran) : option error :=
  match r with
  | NotStarted msg => Some (errorString msg)
  | Ended code copy_fail =>
      if Z.eqb code 0
      then match copy_fail with
           | Some msg => Some (errorString msg)
           | None => None
           end
      else Some (ExitError code)
  end.

Definition ExitCode (r : Ran) : Z :=
  match r with
  | NotStarted _ => -1
  | Ended code _ => code
  end.

(** The error [fmt.Errorf("stderr(%q), %w", out.stderr, out.err)]: it
    wraps [out.err]. *)
Record wrapError := { w_stderr : list byte; Unwrap : error }.

Record Output := {
  stdout : list byte;
  stderr : list byte;
  code : Z;
  err : option wrapError
}.

(** [Run(ctx, cmd, stdin)]; [proc] is the process that the operating
    system runs for a description and an input. *)
Definition Run (look : string -> string * option string)
    (proc : ExecCmd -> list byte -> Behaviour)
    (cmd : Command) (stdin : list byte) : Output :=
  let '(command, args, env) := commandCollect cmd in
  let c := CommandContext look command args in
  let c := {| Path := Path c; Args := Args c; Env := env;
              LookErr := LookErr c |} in
  let b := proc c stdin in
  let started := match b_ran b with NotStarted _ => false | _ => true end in
  let out_err := Run_error (b_ran b) in
  let out_stdout := if started then b_stdout b else [] in
  let out_stderr := if started then b_stderr b else [] in
  let out_code := ExitCode (b_ran b) in
  let out_err := if Z.eqb out_code 0 then out_err
                 else Join out_err (Some (ErrExitCode out_code)) in
  let out_err := match out_err with
                 | Some e => Some {| w_stderr := out_stderr; Unwrap := e |}
                 | None => None
                 end in
  {| stdout := out_stdout; stderr := out_stderr;
     code := out_code; err := out_err |}.

(** [errors.Is(out.Err(), target)]. *)
Definition Err_Is (target : error) (o : Output) : bool :=
  match err o with
  | Some w => Is target (Unwrap w)
  | None => false
  end.

End Exec.

(** ** The wire format of an input *)

Module TextWire.
Import Errors Messages Wire.

(** [json.Marshal] and [json.Unmarshal] on a [TextInput]. *)
Definition Marshal_TextInput (ti : TextInput) : result json :=
  letE base <- BaseMessage_fields text (text_BaseMessage ti) in
  Ok (JObject (base ++ [("data", Data_MarshalJSON (text_Data ti))])).

Definition TextInput_member (k : string) (j : json) (ti : TextInput)
  : option (outcome TextInput) :=
  match BaseMessage_member text k j (text_BaseMessage ti) with
  | Some o =>
      lift (Some o)
        (fun b => {| text_BaseMessage := b; text_Data := text_Data ti |})
  | None =>
      if key_is "data" k then
        Some (by_method (Data_UnmarshalJSON j)
                (fun d => {| text_BaseMessage := text_BaseMessage ti;
                             text_Data := d |}))
      else None
  end.

Definition Unmarshal_TextInput (j : json) : result TextInput :=
  decode_struct TextInput_member j
    {| text_BaseMessage := zeroBase text; text_Data := [] |}.

(** The zero value of each variant. *)
Definition zero_of (v : Variant) : Message :=
  match v with
  | VStart => MStart {| start_BaseMessage := zeroBase start |}
  | VExit => MExit {| exit_BaseMessage := zeroBase exit; Code := 0 |}
  | VStdio T =>
      MStdio T {| stdio_BaseMessage := zeroBase stdio; Data := [] |}
  end.

(** The keys that belong to a field of some message struct. *)
Definition known_member (k : string) : bool :=
  key_is "time" k || key_is "kind" k || key_is "stdio" k
  || key_is "code" k || key_is "data" k.

End TextWire.

(** ** Lines of input *)

Module Lines.
Import Controller.

(** A write at time [t] in which the pipe accepts [n] bytes and
    reports no error. *)
Definition accept (t : Messages.Time) (n : nat) : Ext :=
  {| now := t; start_fail := None; wait_outcome := Exited 0;
     close_fail := None; timer := false; write_n := n; write_fail := None |}.

Definition newline : byte := "010"%byte.

(** The writes in which the pipe takes each line whole. *)
Definition whole_lines (t : Messages.Time) (lines : list (list byte))
  : list Ext :=
  map (fun d => accept t (S (length d))) lines.

End Lines.

(** ** More notions on the controller *)

Module Props2.
Import Errors Controller Props.

(** The shutdown has begun: the token is cancelled and the watcher is
    no longer waiting for it. *)
Definition cancelled (c : Cmd) : Prop := ctx c <> None /\ stop c <> Armed.

Definition is_exit (m : Messages.Message) : bool :=
  match m with Messages.MExit _ => true | _ => false end.

(** The first message of the stream, if any, is the Start message, and
    there is no other. *)
Definition start_first (l : list Messages.Message) : Prop :=
  match l with
  | [] => True
  | m :: rest =>
      Messages.is_Start m = true
      /\ Forall (fun m => Messages.is_Start m = false) rest
  end.

(** An Exit message is the last of the stream and has ended it. *)
Definition exit_last (s : Flow.Stream Messages.Message) : Prop :=
  Forall (fun m => is_exit m = false) (Flow.items s)
  \/ (Flow.closed s = true
      /\ exists body m, Flow.items s = body ++ [m]
                        /\ Forall (fun m => is_exit m = false) body
                        /\ is_exit m = true).

(** How one step changes the output stream: not at all; by one more
    message that is not an Exit (the Start message on the empty stream,
    any other on a stream that has begun); by ending it; by ending it
    with an Exit message. *)
Definition out_step (s s' : Flow.Stream Messages.Message) : Prop :=
  s' = s
  \/ (Flow.closed s = false /\ Flow.closed s' = false
      /\ exists m, Flow.items s' = Flow.items s ++ [m]
                   /\ is_exit m = false
                   /\ (if Messages.is_Start m
                       then Flow.items s = []
                       else Flow.items s <> []))
  \/ (Flow.closed s = false /\ Flow.closed s' = true
      /\ Flow.items s' = Flow.items s)
  \/ (Flow.closed s = false /\ Flow.closed s' = true
      /\ Flow.items s <> []
      /\ exists m, Flow.items s' = Flow.items s ++ [m] /\ is_exit m = true).

(** The calls of [Close] on the pipe that a goroutine has ahead of it:
    the cleanup has one, [runCmd] has its own and, until it has started
    the pump, the pump's. *)
Definition pipe_closer (p : pc) : nat :=
  match p with
  | Close_cleanup_out | Close_cleanup_stdin => 1
  | Run_push_start | Run_go_pump => 2
  | Run_start | Run_waitproc | Run_result _ | Run_sendCode _ _
  | Run_sendExit _ _ | Run_cleanup_stdin _ _ => 1
  | Pump_loop _ | Pump_cancel | Pump_close => 1
  | _ => 0
  end.

(** The caller that runs the function of [killOnce]. *)
Definition holder (p : pc) : nat :=
  match p with
  | Close_select | Close_kill | Close_once_exit => 1
  | _ => 0
  end.

Definition held (o : Once) : nat :=
  match o with Running => 1 | _ => 0 end.

(** More of what holds of the shared state while a goroutine is at
    [p]. *)
Definition pc_ok2 (c : Cmd) (p : pc) : Prop :=
  match p with
  | Start_cas | Close_cancel _ => True
  | Start_done => started c = true
  | Close_stop _ => ctx c <> None
  | Close_cas _ => cancelled c
  | Close_cleanup_out => cancelled c /\ started c = true
  | Close_cleanup_stdin =>
      cancelled c /\ started c = true /\ Flow.closed (out c) = true
  | Close_cleanup_wait =>
      cancelled c /\ started c = true /\ Flow.closed (out c) = true
      /\ 1 <= closes (stdin c)
  | Close_once_noop | Close_once _ | Close_select | Close_kill
  | Close_once_exit | Close_wait | Close_return | Returned _ =>
      cancelled c /\ started c = true
  | Run_push_start => started c = true /\ Flow.items (out c) = []
  | Run_go_pump | Run_start | Run_waitproc | Run_result _
  | Run_sendCode _ _ | Run_sendExit _ _ | Run_cleanup_stdin _ _ =>
      started c = true /\ Flow.items (out c) <> []
  | Run_cleanup_wait _ _ _ | Run_done _ _ _ =>
      started c = true /\ Flow.items (out c) <> [] /\ 1 <= closes (stdin c)
  | Pump_loop _ | Pump_cancel | Pump_close | Pump_done =>
      Flow.items (out c) <> []
  end.

(** What no step undoes. *)
Definition mono (c c' : Cmd) : Prop :=
  (ctx c <> None -> ctx c' <> None)
  /\ (stop c <> Armed -> stop c' <> Armed)
  /\ (started c = true -> started c' = true)
  /\ closes (stdin c) <= closes (stdin c')
  /\ wait c <= wait c'.

Record Inv2 (w : World) : Prop := {
  i2_pcs : Forall (pc_ok2 (cmd w)) (threads w);
  i2_created : started (cmd w) = false -> Flow.items (out (cmd w)) = [];
  i2_running : running (cmd w) = true -> Flow.items (out (cmd w)) <> [];
  i2_start : start_first (Flow.items (out (cmd w)));
  i2_exit : exit_last (out (cmd w));
  i2_done : 1 <= wait (cmd w) ->
            Flow.closed (out (cmd w)) = true /\ 1 <= closes (stdin (cmd w));
  i2_pipe : closes (stdin (cmd w)) + count pipe_closer w
            = b2n (started (cmd w)) + count runner w;
  i2_once : count holder w = held (killOnce (cmd w))
}.

(** Shutdowns that never set a timeout: [Close()], or [CloseTimeout]
    with a duration that is not above 0. *)
Definition no_timeout (sched : list action) : bool :=
  forallb (fun a => match a with
                    | CallClose t => (t <=? 0)%Z
                    | _ => true
                    end) sched.

Definition pc_no_timeout (p : pc) : Prop :=
  match p with
  | Close_cancel t | Close_stop t | Close_cas t | Close_once t => (t <= 0)%Z
  | Close_select | Close_kill => False
  | _ => True
  end.

Record InvNT (w : World) : Prop := {
  nt_pcs : Forall pc_no_timeout (threads w);
  nt_panic : panic (cmd w) = None;
  nt_killed : killed (cmd w) = 0
}.

(** The outside world at a moment when the timer has fired. *)
Definition fired : Ext :=
  {| now := Messages.clock 0; start_fail := None; wait_outcome := Exited 0;
     close_fail := None; timer := true; write_n := 0; write_fail := None |}.

(** Some goroutine can take a step. *)
Definition can_step (w : World) : Prop :=
  exists tid x w', step w (Step tid x) = Some w'.

(** A caller of [CloseTimeout] that has not returned yet. *)
Definition pending (p : pc) : bool :=
  closing p && match p with Returned _ => false | _ => true end.

(** Two callers of [CloseTimeout] with timeouts above 0 on a started
    controller whose process exits with status 3 after the first
    caller's timer has fired: thread 1 is [runCmd], thread 2 the pump,
    threads 3 and 5 are the callers, thread 4 is the watcher. *)
Definition shutdown_run : list action :=
  [CallStart; Step 0 quiet; Step 1 exit3; Step 1 exit3; Step 1 exit3;
   Output Messages.StdoutMessage (Messages.clock 2) (list_byte_of_string "hi");
   CallClose 9; Step 3 quiet; Step 3 quiet; Step 3 quiet; Step 3 quiet;
   Step 3 fired; Step 3 quiet; Step 3 quiet]
  ++ replicate 6 (Step 1 exit3)
  ++ [Step 2 quiet; Step 2 quiet; Step 2 quiet;
      Step 3 quiet; Step 3 quiet;
      CallClose 4]
  ++ replicate 6 (Step 5 quiet).

(** [Close()] on a controller whose process runs: [runCmd] (thread 1)
    waits for the process when the caller (thread 3) cancels the
    token. *)
Definition close_running : list action :=
  [CallStart; Step 0 quiet; Step 1 quiet; Step 1 quiet; Step 1 quiet;
   CallClose 0; Step 3 quiet].

(** A call of [Close()] on a new controller up to its
    [CompareAndSwap]: thread 0 is the caller, thread 1 the watcher. *)
Definition close_first : list action :=
  CallClose 0 :: replicate 3 (Step 0 quiet).

(** *** The end of [runCmd] and of the cleanup *)

(** The steps a goroutine still has to take until it has executed
    [close(cmd.wait)], at most. *)
Definition togo (p : pc) : nat :=
  match p with
  | Close_cleanup_out => 3
  | Close_cleanup_stdin => 2
  | Close_cleanup_wait => 1
  | Run_push_start => 9
  | Run_go_pump => 8
  | Run_start => 7
  | Run_waitproc => 6
  | Run_result _ => 5
  | Run_sendCode _ _ => 4
  | Run_sendExit _ _ => 3
  | Run_cleanup_stdin _ _ => 2
  | Run_cleanup_wait _ _ _ => 1
  | _ => 0
  end.

(** The error of closing the pipe: none, or an error of the pipe. *)
Definition pipe_error (e : option error) : Prop :=
  e = None \/ exists msg, e = Some (errorString msg).

(** What holds of the process while a goroutine is at [p]. *)
Definition pc_ok3 (c : Cmd) (p : pc) : Prop :=
  match p with
  | Run_waitproc => 1 <= spawned c
  | Run_cleanup_wait _ _ cerr | Run_done _ _ cerr => pipe_error cerr
  | _ => True
  end.

Definition cancelled_n (c : Cmd) : nat :=
  match ctx c with Some _ => 1 | None => 0 end.

(** The kill of os/exec is sent to a process that was started, and at
    the one cancellation of the token. *)
Definition kills_ok (c : Cmd) : Prop :=
  cancelKills c <= spawned c
  /\ cancelKills c <= cancelled_n c
  /\ (running c = true -> 1 <= spawned c).

Record Inv3 (w : World) : Prop := {
  i3_pcs : Forall (pc_ok3 (cmd w)) (threads w);
  i3_kills : kills_ok (cmd w)
}.

(** The command cannot be started: the executable is missing. *)
Definition no_exec : Ext :=
  {| now := Messages.clock 1;
     start_fail := Some "exec: no such file or directory";
     wait_outcome := Exited 0; close_fail := None; timer := false;
     write_n := 0; write_fail := None |}.

(** [Start] on a controller whose command cannot be started: thread 0
    is the caller, thread 1 is [runCmd], which runs to its end. *)
Definition start_fails : list action :=
  CallStart :: Step 0 quiet :: replicate 8 (Step 1 no_exec).

(** The process is ended by a signal: [Wait] returns an
    [*exec.ExitError] whose [ExitCode()] is -1. *)
Definition signalled : Ext :=
  {| now := Messages.clock 1; start_fail := None;
     wait_outcome := Exited (-1); close_fail := None; timer := false;
     write_n := 0; write_fail := None |}.

Definition signalled_run : list action :=
  CallStart :: Step 0 quiet :: replicate 9 (Step 1 signalled).

(** [Start] and then [CloseTimeout(5)] right away: the caller (thread
    2) cancels, loses the compare-and-swap to [Start], enters the
    function of [killOnce], and its timer fires while [runCmd] (thread
    1) has not started the process yet. *)
Definition close_before_spawn : list action :=
  [CallStart; Step 0 quiet; CallClose 5]
  ++ replicate 4 (Step 2 quiet) ++ [Step 2 fired; Step 2 quiet].

(** [CloseTimeout(5)] on a controller that is never started: the
    watcher's [c.Close()] wins the compare-and-swap, and the timer of
    the caller (thread 0) fires before the watcher (thread 1) has
    closed the wait channel. *)
Definition never_started_crash : list action :=
  watcher_first ++ [Step 0 fired; Step 0 quiet].

End Props2.

(** * Properties *)

(** ** Command specifications *)

Module CommandSpecFacts.
Import CommandSpec.

(** What [commandCollect] returns, for every spec: the environment, if
    the spec has one, lands in the arguments, and the collected
    environment is always empty. *)
Lemma commandCollect_eq (cmd : Command) :
  commandCollect cmd =
  (Command_ cmd,
   match Environment_ cmd with
   | Some e => e
   | None => default [] (Args_ cmd)
   end,
   []).
Proof.
  unfold commandCollect, asCommandArgs, asCommandEnv.
  destruct (Args_ cmd), (Environment_ cmd); reflexivity.
Qed.

(** C1.  On a spec that offers only the environment capability, with
    environment ["A=1"], [commandCollect] returns the environment in
    the argument slot and an empty environment, where the claim asks
    for empty arguments and the environment ["A=1"]. *)
Theorem commandCollect_env_only :
  commandCollect (envOnly "ls" ["A=1"]) = ("ls", ["A=1"], [])
  /\ collect_spec (envOnly "ls" ["A=1"]) = ("ls", [], ["A=1"])
  /\ commandCollect (envOnly "ls" ["A=1"]) <> collect_spec (envOnly "ls" ["A=1"]).
Proof. repeat split; discriminate. Qed.

(** [WithEnv] on every spec: the command is kept; the arguments of the
    result are what [commandCollect] put in the argument slot; the
    environment of the result is the additions alone. *)
Lemma WithEnv_eq (cmd : Command) (e : list string) :
  WithEnv cmd e =
  iface {| command := Command_ cmd;
           args := match Environment_ cmd with
                   | Some e' => e'
                   | None => default [] (Args_ cmd)
                   end;
           env := e |}.
Proof. unfold WithEnv. rewrite commandCollect_eq. reflexivity. Qed.

(** C2.  [WithEnv] on the spec built by
    [NewCommandArgsEnv("ls", ["-l"], ["A=1"])] with the addition
    ["B=2"]: the result has arguments ["A=1"] and environment ["B=2"],
    where the claim asks for arguments ["-l"] and environment
    ["A=1"; "B=2"]. *)
Theorem WithEnv_args_env :
  let s := NewCommandArgsEnv "ls" ["-l"] ["A=1"] in
  Command_ (WithEnv s ["B=2"]) = "ls"
  /\ Args_ (WithEnv s ["B=2"]) = Some ["A=1"]
  /\ Environment_ (WithEnv s ["B=2"]) = Some ["B=2"]
  /\ Args_ s = Some ["-l"]
  /\ Environment_ s = Some ["A=1"].
Proof. repeat split. Qed.

End CommandSpecFacts.

(** ** The wire format *)

Module WireFacts.
Import Errors Messages Wire.

(** A well-formed UTF-8 string comes out of the encoder unchanged. *)
Lemma coerce_valid (fuel : nat) : forall s,
  UTF8.valid fuel s = true -> UTF8.coerce fuel s = s.
Proof.
  induction fuel as [|fuel IH]; intros s Hv.
  - destruct s; [reflexivity | discriminate].
  - destruct s as [|b r]; [reflexivity|].
    cbn [UTF8.valid UTF8.coerce] in *.
    destruct (UTF8.DecodeRune (b :: r)) as [w|]; [|discriminate].
    rewrite (IH _ Hv). apply take_drop.
Qed.

Lemma ToValidUTF8_valid (s : list byte) :
  UTF8.Valid s = true -> UTF8.ToValidUTF8 s = s.
Proof. apply coerce_valid. Qed.

(** Every tag is plain ASCII, so it is written and read back as it
    is. *)
Lemma tag_valid (K : kind) : UTF8.Valid (JSONString_String K) = true.
Proof. destruct K; vm_compute; reflexivity. Qed.

Lemma tag_inj (K K' : kind) :
  JSONString_String K = JSONString_String K' -> K = K'.
Proof. destruct K, K'; intros H; try reflexivity; vm_compute in H; discriminate. Qed.

Lemma Unmarshal_Marshal_string (old s : list byte) :
  UTF8.Valid s = true -> Unmarshal_string old (Marshal_string s) = Ok s.
Proof.
  intros Hs. unfold Unmarshal_string, Marshal_string.
  rewrite !(ToValidUTF8_valid s Hs). reflexivity.
Qed.

(** A tag decodes against itself, and against no other tag. *)
Lemma JSONString_same (K : kind) :
  JSONString_UnmarshalJSON K (JSONString_MarshalJSON K) = Ok tt.
Proof.
  unfold JSONString_UnmarshalJSON, JSONString_MarshalJSON.
  rewrite Unmarshal_Marshal_string by apply tag_valid.
  cbn [bind]. rewrite bool_decide_eq_false_2; [reflexivity|].
  intros H; apply H; reflexivity.
Qed.

Lemma JSONString_other (K K' : kind) :
  K <> K' ->
  JSONString_UnmarshalJSON K' (JSONString_MarshalJSON K)
  = Err (FormatError (JSONString_String K') (JSONString_String K)).
Proof.
  intros Hne. unfold JSONString_UnmarshalJSON, JSONString_MarshalJSON.
  rewrite Unmarshal_Marshal_string by apply tag_valid.
  cbn [bind]. rewrite bool_decide_eq_true_2; [reflexivity|].
  intros H. apply Hne, tag_inj, H.
Qed.

Lemma Data_same (d : list byte) :
  UTF8.Valid d = true -> Data_UnmarshalJSON (Data_MarshalJSON d) = Ok d.
Proof.
  intros Hd. unfold Data_UnmarshalJSON, Data_MarshalJSON.
  rewrite Unmarshal_Marshal_string by exact Hd. reflexivity.
Qed.

(** The text of a timestamp, checked on known dates. *)
Example RFC3339_epoch :
  RFC3339 {| civil := 0; fraction := 0; zone := None |}
  = list_byte_of_string "1970-01-01T00:00:00Z".
Proof. vm_compute. reflexivity. Qed.

Example RFC3339_leap_day :
  RFC3339 {| civil := 951868799; fraction := 120000000; zone := Some 330%Z |}
  = list_byte_of_string "2000-02-29T23:59:59.12+05:30".
Proof. vm_compute. reflexivity. Qed.

Example RFC3339_last :
  RFC3339 {| civil := year_10000 - 1; fraction := 999999999;
             zone := Some (-480)%Z |}
  = list_byte_of_string "9999-12-31T23:59:59.999999999-08:00"
  /\ RFC3339 {| civil := year_0; fraction := 0; zone := None |}
     = list_byte_of_string "0000-01-01T00:00:00Z".
Proof. split; vm_compute; reflexivity. Qed.

(** A timestamp begins with a digit, so it is no tag. *)
Lemma digit_cases (n : Z) :
  In (digit n) ["0"; "1"; "2"; "3"; "4"; "5"; "6"; "7"; "8"; "9"]%byte.
Proof.
  unfold digit. destruct (n mod 10)%Z as [|p|p]; cbn; [tauto| |tauto].
  do 4 (try destruct p as [p|p|]); cbn; tauto.
Qed.

Lemma RFC3339_no_tag (t : Stamp) (K : kind) :
  UTF8.ToValidUTF8 (RFC3339 t) <> JSONString_String K.
Proof.
  unfold RFC3339. destruct (date_of_days _) as [[y m] d].
  unfold num4 at 1. cbn [app].
  pose proof (digit_cases (y / 1000)) as Hd.
  destruct Hd as [<-|[<-|[<-|[<-|[<-|[<-|[<-|[<-|[<-|[<-|[]]]]]]]]]]];
    destruct K; intros H; apply (f_equal head) in H; discriminate H.
Qed.

(** What the two methods of [time.Time] do to a timestamp that can be
    written: the instant and the zone come back, the zone in whole
    minutes, the reading of the monotonic clock does not. *)
Lemma Time_same (old t : Time) :
  writable t = true ->
  exists j t',
    Time_MarshalJSON t = Ok j
    /\ Time_UnmarshalJSON old j = Ok t'
    /\ unixSec t' = (unixSec t + Z.rem (zoneOffset t) 60)%Z
    /\ nanos t' = nanos t
    /\ zoneOffset t' = (zoneOffset t - Z.rem (zoneOffset t) 60)%Z
    /\ monotonic t' = None.
Proof.
  unfold writable, Time_MarshalJSON. intros H.
  apply andb_prop in H as [Hy Hz]. rewrite Hy, Hz. cbn [negb].
  eexists. eexists. split; [reflexivity|]. split; [reflexivity|].
  cbn [unixSec nanos zoneOffset monotonic civil fraction zone].
  pose proof (Z.quot_rem' (zoneOffset t) 60) as Hq.
  destruct (Z.eqb_spec (zoneOffset t) 0) as [E|E]; cbn [default].
  - rewrite E. change (Z.rem 0 60) with 0%Z. split_and!; try reflexivity; lia.
  - unfold id. split_and!; try reflexivity; lia.
Qed.

Lemma Time_refused (t : Time) :
  writable t = false -> exists msg, Time_MarshalJSON t = Err (errorString msg).
Proof.
  unfold writable, Time_MarshalJSON. intros H.
  destruct (year_ok t); cbn [negb]; [|eauto].
  destruct (zone_ok t); cbn [negb]; [discriminate H | eauto].
Qed.

Lemma Time_plain (t t' : Time) :
  unixSec t' = (unixSec t + Z.rem (zoneOffset t) 60)%Z ->
  nanos t' = nanos t ->
  zoneOffset t' = (zoneOffset t - Z.rem (zoneOffset t) 60)%Z ->
  monotonic t' = None ->
  monotonic t = None -> Z.rem (zoneOffset t) 60 = 0%Z -> t' = t.
Proof.
  destruct t, t'. cbn. intros -> -> -> -> -> ->. f_equal; lia.
Qed.

#[local] Opaque JSONString_UnmarshalJSON JSONString_MarshalJSON
  Data_UnmarshalJSON Data_MarshalJSON Time_MarshalJSON Time_UnmarshalJSON.

Ltac eval_keys :=
  repeat match goal with
         | |- context [key_is ?a ?b] =>
             let v := eval vm_compute in (key_is a b) in
             change (key_is a b) with v
         end.

Ltac decode_fields :=
  unfold round_trip, Unmarshal, Marshal, Unmarshal_StartMessage,
    Unmarshal_ExitMessage, Unmarshal_stdioMessage, Marshal_StartMessage,
    Marshal_ExitMessage, Marshal_stdioMessage, decode_struct,
    BaseMessage_fields;
  repeat (progress
            (unfold StartMessage_member, ExitMessage_member,
               stdioMessage_member, BaseMessage_member;
             eval_keys;
             cbn [app decode_object bind by_method plain lift
                  start_BaseMessage exit_BaseMessage stdio_BaseMessage
                  Code Data Time_ zeroBase stdio_kind set_time msg_time])).

(** Decoding into the variant that was encoded. *)
Lemma Unmarshal_same (m : Message) :
  well_typed m = true -> utf8_data m = true -> writable (msg_time m) = true ->
  exists t',
    round_trip (variant_of m) m = Ok (set_time t' m)
    /\ unixSec t' = (unixSec (msg_time m) + Z.rem (zoneOffset (msg_time m)) 60)%Z
    /\ nanos t' = nanos (msg_time m)
    /\ zoneOffset t'
       = (zoneOffset (msg_time m) - Z.rem (zoneOffset (msg_time m)) 60)%Z
    /\ monotonic t' = None.
Proof.
  intros Hty Hutf Hw.
  destruct (Time_same zeroTime (msg_time m) Hw)
    as (j & t' & Hm & Hu & H1 & H2 & H3 & H4).
  exists t'. split; [|done].
  destruct m as [[[t]]|[[t] c]|T [[t] d]];
    cbn [variant_of msg_time Time_ start_BaseMessage exit_BaseMessage
         stdio_BaseMessage] in *;
    decode_fields; rewrite Hm; decode_fields; rewrite Hu; decode_fields.
  - rewrite JSONString_same. reflexivity.
  - rewrite JSONString_same. decode_fields.
    cbn [int_Unmarshal]. cbn in Hty. rewrite Hty. reflexivity.
  - rewrite !JSONString_same. decode_fields.
    cbn in Hutf. rewrite (Data_same d Hutf). reflexivity.
Qed.

(** Decoding into any other variant: the tag check fails. *)
Lemma Unmarshal_other (m : Message) (v : Variant) :
  writable (msg_time m) = true ->
  v <> variant_of m -> is_FormatError (round_trip v m) = true.
Proof.
  intros Hw Hne.
  destruct (Time_same zeroTime (msg_time m) Hw) as (j & t' & Hm & Hu & _).
  destruct m as [[[t]]|[[t] c]|T [[t] d]], v as [| |T'];
    cbn [variant_of msg_time Time_ start_BaseMessage exit_BaseMessage
         stdio_BaseMessage] in *; try congruence;
    decode_fields; rewrite Hm; decode_fields; rewrite Hu; decode_fields;
    try (rewrite JSONString_other by discriminate; reflexivity).
  rewrite JSONString_same. decode_fields.
  rewrite JSONString_other; [reflexivity|].
  destruct T, T'; try discriminate; congruence.
Qed.




End WireFacts.
(** ** The writer shims and the input pump *)

Module PumpFacts.
Import Errors Controller Props.

Lemma Clone_fresh (s : Slices.Store) (b : Slices.addr) (bs : list byte) :
  s !! b = Some bs ->
  Slices.Clone s b = Some (s ++ [bs], length s)
  /\ b < length s
  /\ (s ++ [bs]) !! b = Some bs
  /\ (s ++ [bs]) !! length s = Some bs.
Proof.
  intros Hb. unfold Slices.Clone, Slices.alloc. rewrite Hb.
  pose proof (lookup_lt_Some _ _ _ Hb) as Hlt.
  repeat split; [exact Hlt | |].
  - rewrite lookup_app_l by exact Hlt. exact Hb.
  - rewrite lookup_app_r by lia. rewrite Nat.sub_diag. reflexivity.
Qed.

(** C10.  [Write] with a live token publishes one message of its kind
    with the bytes of the chunk and returns (len(b), nil); with a
    cancelled token it publishes nothing and returns (0, ctx.Err()).
    The data of the published message lives in an array of its own:
    whatever the caller writes into its buffer afterwards, the message
    keeps the bytes it was given. *)
Theorem kindWriter_Write_spec (K : Messages.StdioLike) (t : Messages.Time)
    (c : Cmd) (s : Slices.Store) (b : Slices.addr) (bs : list byte) :
  s !! b = Some bs ->
  match ctx c with
  | None =>
      kindWriter_Write K t bs c
      = (set_out (Flow.Push (out c) [Messages.NewStdioMessage K t bs]) c,
         (length bs, None))
      /\ Messages.is_Stdio K bs (Messages.NewStdioMessage K t bs) = true
      /\ (Flow.closed (out c) = false ->
          Flow.items (out (fst (kindWriter_Write K t bs c)))
          = Flow.items (out c) ++ [Messages.NewStdioMessage K t bs])
  | Some e =>
      kindWriter_Write K t bs c = (c, (0, Some e))
  end
  /\ Slices.Write_Data true s b = Some (s, None)
  /\ exists s' a,
       Slices.Write_Data false s b = Some (s', Some a)
       /\ a <> b
       /\ s' !! a = Some bs
       /\ forall new, Slices.overwrite s' b new !! a = Some bs.
Proof.
  intros Hb. split; [|split].
  - unfold kindWriter_Write. destruct (ctx c) as [e|]; [reflexivity|].
    split; [reflexivity|]. split.
    + destruct K; cbn; rewrite !bool_decide_eq_true_2; reflexivity.
    + intros Hopen. cbn. unfold Flow.Push. rewrite Hopen. reflexivity.
  - reflexivity.
  - destruct (Clone_fresh s b bs Hb) as (H1 & Hlt & H1b & H1a).
    destruct (Clone_fresh (s ++ [bs]) (length s) bs H1a) as (H2 & _ & _ & H2a).
    exists ((s ++ [bs]) ++ [bs]), (length (s ++ [bs])).
    unfold Slices.Write_Data. rewrite H1, H2.
    rewrite length_app in *. cbn [length] in *.
    repeat split.
    + lia.
    + exact H2a.
    + intros new. unfold Slices.overwrite.
      rewrite list_lookup_insert_ne by lia. exact H2a.
Qed.

Lemma kindWriter_Write_spec_witness :
  let c := cmd New in
  let bs := list_byte_of_string "out" in
  [bs] !! 0 = Some bs
  /\ kindWriter_Write Messages.StdoutMessage (Messages.clock 3) bs c
     = (set_out (Flow.Push (out c)
                   [Messages.NewStdioMessage Messages.StdoutMessage (Messages.clock 3) bs]) c,
        (3, None))
  /\ exists s' a,
       Slices.Write_Data false [bs] 0 = Some (s', Some a)
       /\ a <> 0
       /\ s' !! a = Some bs
       /\ forall new, Slices.overwrite s' 0 new !! a = Some bs.
Proof.
  pose proof (kindWriter_Write_spec Messages.StdoutMessage (Messages.clock 3)
                (cmd New) [list_byte_of_string "out"] 0
                (list_byte_of_string "out") eq_refl) as [[H _] [_ Hs]].
  split; [reflexivity|]. split; [exact H | exact Hs].
Defined.

(** A successful write is logged as incomplete whenever the writer
    keeps its contract, the complete write included. *)
Lemma pipeInput_iter_logs (x : Ext) (cur : nat) (c : Cmd) (d : Messages.Input) :
  ctx c = None ->
  Flow.items (in_ c) !! cur = Some d ->
  write_fail x = None ->
  write_n x <= length (Messages.Input_ d) ->
  exists c', pipeInput_iter x cur c = Continue c'
             /\ log c' = log c ++ [incomplete]
             /\ waitErr c' = waitErr c.
Proof.
  intros Hctx Hd Hw Hn. unfold pipeInput_iter, Flow.recv.
  rewrite Hctx, Hd, Hw.
  destruct (Nat.leb_spec (write_n x) (length (Messages.Input_ d))); [|lia].
  eexists. split; [reflexivity|]. split; reflexivity.
Qed.

(** C7.  The pump takes the one-byte input "a" and the pipe accepts
    the whole of it (n = 1 = len(b), no error): the pump records
    "incomplete write of stdin", where the claim asks for a record only
    when n < len(b).  The record goes to the log alone: the accumulated
    error is untouched and the loop goes on. *)
Theorem pipeInput_complete_write_logged :
  exists c',
    pipeInput_iter full_write 0 one_input = Continue c'
    /\ written (stdin c') = [list_byte_of_string "a"]
    /\ log c' = [incomplete]
    /\ waitErr c' = None.
Proof. eexists. vm_compute. repeat split. Qed.


Lemma push_all_fields (pushes : list (list Messages.Input)) : forall c,
  stdin (push_all pushes c) = stdin c
  /\ out (push_all pushes c) = out c
  /\ ctx (push_all pushes c) = ctx c
  /\ waitErr (push_all pushes c) = waitErr c
  /\ log (push_all pushes c) = log c.
Proof.
  induction pushes as [|p pushes IH]; intros c; [repeat split|].
  change (push_all (p :: pushes) c)
    with (push_all pushes (set_in_ (Flow.Push (in_ c) p) c)).
  destruct (IH (set_in_ (Flow.Push (in_ c) p) c)) as (H1 & H2 & H3 & H4 & H5).
  repeat split; assumption.
Qed.

(** Inputs are queued in the order of the calls of [Push], and within
    a call in the order of its arguments. *)
Lemma push_all_items (pushes : list (list Messages.Input)) : forall c,
  Flow.closed (in_ c) = false ->
  Flow.items (in_ (push_all pushes c)) = Flow.items (in_ c) ++ concat pushes
  /\ Flow.closed (in_ (push_all pushes c)) = false.
Proof.
  induction pushes as [|p pushes IH]; intros c Hopen.
  - cbn. rewrite app_nil_r. split; [reflexivity | exact Hopen].
  - destruct (IH (set_in_ (Flow.Push (in_ c) p) c)) as [Hi Hc].
    + cbn. unfold Flow.Push. rewrite Hopen. reflexivity.
    + change (push_all (p :: pushes) c)
        with (push_all pushes (set_in_ (Flow.Push (in_ c) p) c)).
      rewrite Hi, Hc. cbn. unfold Flow.Push. rewrite Hopen. cbn.
      rewrite <- app_assoc. split; reflexivity.
Qed.

(** The cases of one turn of the loop. *)
Lemma pipeInput_iter_cases (x : Ext) (cur : nat) (c : Cmd) :
  match pipeInput_iter x cur c with
  | Continue c' =>
      ctx c = None
      /\ exists d, Flow.items (in_ c) !! cur = Some d
                   /\ write_ok x = true /\ wrote x d c c'
  | Return c' StopCancelled => ctx c <> None /\ c' = c
  | Return c' StopClosed =>
      ctx c = None /\ Flow.items (in_ c) !! cur = None
      /\ Flow.closed (in_ c) = true /\ c' = c
  | Return c' StopWriteError =>
      ctx c = None
      /\ exists d, Flow.items (in_ c) !! cur = Some d
                   /\ write_ok x = false /\ wrote x d c c'
  | Block =>
      ctx c = None /\ Flow.items (in_ c) !! cur = None
      /\ Flow.closed (in_ c) = false
  end.
Proof.
  unfold pipeInput_iter, Flow.recv, write_ok, wrote.
  destruct (ctx c) as [e|] eqn:Hctx; [done|].
  destruct (Flow.items (in_ c) !! cur) as [d|] eqn:Hd.
  - destruct (write_fail x) as [msg|] eqn:Hw.
    + split; [done|]. exists d. cbn. rewrite Hctx. done.
    + destruct (Nat.leb _ _); (split; [done|]); exists d; cbn;
        rewrite Hctx; done.
  - destruct (Flow.closed (in_ c)); done.
Qed.

(** The pump run from any state with any cursor: the chunks it writes
    and the echoes it publishes follow the inputs from the cursor on,
    one for one and in their order. *)
Lemma pipeInput_spec (xs : list Ext) : forall cur c,
  let ds := drop cur (Flow.items (in_ c)) in
  let c' := (pipeInput xs cur c).1.1 in
  exists k,
    k <= length xs /\ k <= length ds
    /\ written (stdin c') = written (stdin c) ++ chunks (take k xs) ds
    /\ out c' = publish (echoes (take k xs) ds) (out c)
    /\ in_ c' = in_ c /\ ctx c' = ctx c /\ waitErr c' = waitErr c
    /\ stop_reason c xs ds k (pipeInput xs cur c).2.
Proof.
  induction xs as [|x xs IH]; intros cur c ds c'.
  - exists 0. subst c'. cbn. rewrite app_nil_r.
    split_and!; try lia; try reflexivity.
  - subst c'. cbn [pipeInput].
    pose proof (pipeInput_iter_cases x cur c) as Hcase.
    destruct (pipeInput_iter x cur c) as [c2|c2 [| |]|].
    + destruct Hcase as (Hctx & d & Hd & Hw & Hin & Hcx & Hwe & Hwr & Hout).
      assert (Hds : ds = d :: drop (S cur) (Flow.items (in_ c)))
        by (subst ds; apply drop_S; exact Hd).
      specialize (IH (S cur) c2). cbn zeta in IH. rewrite Hin in IH.
      destruct IH as (k & Hk1 & Hk2 & Hwr' & Hout' & Hin' & Hcx' & Hwe' & Hstop).
      exists (S k). rewrite Hds. cbn [length take chunks echoes zip_with].
      split_and!; try lia; try congruence.
      * rewrite Hwr', Hwr, <- app_assoc. reflexivity.
      * rewrite Hout', Hout. reflexivity.
      * unfold stop_reason in *.
        destruct ((pipeInput xs (S cur) c2).2) as [[| |]|].
        -- destruct Hstop as [Hne _]. congruence.
        -- destruct Hstop as (H1 & H2 & H3). rewrite Hin in H1.
           split_and!; [assumption | cbn; lia |].
           cbn. rewrite Hw. exact H3.
        -- destruct Hstop as (x' & H1 & H2 & H3 & H4).
           exists x'. replace (S k - 1) with (S (k - 1)) by lia.
           split_and!; try assumption; try lia.
           cbn. rewrite Hw. exact H4.
        -- destruct Hstop as (H1 & H2). split.
           ++ cbn. rewrite Hw. exact H1.
           ++ destruct H2 as [H2|(H2 & H3 & H4)]; [left; cbn; lia|].
              right. rewrite Hin in H3. split_and!; [cbn; lia | done..].
    + destruct Hcase as [Hne ->]. exists 0. cbn. rewrite app_nil_r.
      split_and!; try lia; done.
    + destruct Hcase as (Hctx & Hd & Hcl & ->).
      assert (Hds : ds = [])
        by (subst ds; apply drop_ge, lookup_ge_None; exact Hd).
      exists 0. cbn. rewrite app_nil_r, Hds. split_and!; try (cbn; lia); done.
    + destruct Hcase as (Hctx & d & Hd & Hw & Hin & Hcx & Hwe & Hwr & Hout).
      assert (Hds : ds = d :: drop (S cur) (Flow.items (in_ c)))
        by (subst ds; apply drop_S; exact Hd).
      exists 1. rewrite Hds. cbn. rewrite take_0. cbn.
      split_and!; try lia; try done.
      exists x. split_and!; done.
    + destruct Hcase as (Hctx & Hd & Hcl).
      assert (Hds : ds = [])
        by (subst ds; apply drop_ge, lookup_ge_None; exact Hd).
      exists 0. cbn. rewrite app_nil_r, Hds. split_and!; try (cbn; lia); try done.
      right. done.
Qed.

(** Publishing on an open stream appends, on an ended stream it does
    nothing. *)
Lemma publish_open (ms : list Messages.Message) : forall s,
  Flow.closed s = false ->
  Flow.items (publish ms s) = Flow.items s ++ ms
  /\ Flow.closed (publish ms s) = false.
Proof.
  induction ms as [|m ms IH]; intros s Hs; cbn.
  - rewrite app_nil_r. done.
  - destruct (IH (Flow.Push s [m])) as [H1 H2].
    + unfold Flow.Push. rewrite Hs. reflexivity.
    + unfold publish in *. cbn in *. rewrite H1, H2.
      unfold Flow.Push. rewrite Hs. cbn. rewrite <- app_assoc. done.
Qed.

Lemma publish_closed (ms : list Messages.Message) : forall s,
  Flow.closed s = true -> publish ms s = s.
Proof.
  induction ms as [|m ms IH]; intros s Hs; [reflexivity|].
  unfold publish in *. cbn.
  replace (Flow.Push s [m]) with s by (unfold Flow.Push; rewrite Hs; done).
  apply IH, Hs.
Qed.

(** Each echo carries, in its [Data], the chunk that the pipe took. *)
Lemma echoes_payload (xs : list Ext) : forall ds,
  map stdin_echo (echoes xs ds) = map Some (chunks xs ds).
Proof.
  induction xs as [|x xs IH]; intros [|d ds]; try reflexivity.
  unfold echoes, chunks in *. cbn [zip_with map]. rewrite IH. reflexivity.
Qed.




End PumpFacts.
(** ** The controller *)

Module ControllerFacts.
Import Errors Controller Props Props2.

(** *** Counting goroutines *)

Lemma sum_insert (f : pc -> nat) (l : list pc) (i : nat) (p q : pc) :
  l !! i = Some p ->
  sum_list_with f (<[i := q]> l) + f p = sum_list_with f l + f q.
Proof.
  revert i. induction l as [|a l IH]; intros [|i] Hi; try discriminate.
  - simpl in Hi. injection Hi as ->. simpl. lia.
  - simpl in Hi. simpl. specialize (IH i Hi). lia.
Qed.

Lemma sum_lookup (f : pc -> nat) (l : list pc) (i : nat) (p : pc) :
  l !! i = Some p -> f p <= sum_list_with f l.
Proof.
  revert i. induction l as [|a l IH]; intros [|i] Hi; try discriminate.
  - cbn in Hi. injection Hi as ->. cbn. lia.
  - cbn in Hi. cbn. specialize (IH i Hi). lia.
Qed.

Lemma sum_lookup2 (f : pc -> nat) (l : list pc) (i j : nat) (p q : pc) :
  i <> j -> l !! i = Some p -> l !! j = Some q ->
  f p + f q <= sum_list_with f l.
Proof.
  revert i j. induction l as [|a l IH]; intros [|i] [|j] Hne Hi Hj;
    try discriminate; try congruence; cbn in Hi, Hj; cbn.
  - injection Hi as ->. pose proof (sum_lookup f l j q Hj). lia.
  - injection Hj as ->. pose proof (sum_lookup f l i p Hi). lia.
  - assert (i <> j) by congruence. specialize (IH i j H Hi Hj). lia.
Qed.

Lemma sum_positive (f : pc -> nat) (l : list pc) :
  0 < sum_list_with f l -> exists i p, l !! i = Some p /\ 0 < f p.
Proof.
  induction l as [|a l IH]; cbn; [lia|]. intros H.
  destruct (f a) as [|n] eqn:Hfa.
  - destruct IH as (i & p & Hi & Hp); [lia|]. exists (S i), p. done.
  - exists 0, a. cbn. split; [done | lia].
Qed.

(** *** One turn of the pump leaves the controller's state machine
    alone *)

Lemma pipeInput_iter_frame (x : Ext) (cur : nat) (c : Cmd) :
  match pipeInput_iter x cur c with
  | Continue c' | Return c' _ => pump_frame c c'
  | Block => True
  end.
Proof.
  assert (Hpush : forall m,
    Flow.closed (Flow.Push (out c) [m]) = Flow.closed (out c)
    /\ (Flow.closed (out c) = true -> Flow.Push (out c) [m] = out c)).
  { intros m. unfold Flow.Push. destruct (Flow.closed (out c)) eqn:E; done. }
  unfold pipeInput_iter, pump_frame.
  destruct (ctx c) eqn:Hctx; [done|].
  destruct (Flow.recv (in_ c) cur); [|done..].
  destruct (write_fail x); [|destruct (Nat.leb _ _)]; cbn;
    split_and!; try done; apply Hpush.
Qed.

(** *** What one step of a goroutine does *)

Lemma Push_closed {T} (s : Flow.Stream T) (xs : list T) :
  Flow.closed (Flow.Push s xs) = Flow.closed s
  /\ (Flow.closed s = true -> Flow.Push s xs = s).
Proof. unfold Flow.Push. destruct (Flow.closed s) eqn:E; done. Qed.

Lemma Close_final (s : Flow.Stream Messages.Message) (t : Messages.Time)
    (code : Z) :
  Flow.closed s = false ->
  final_exit code (Flow.Close s [Messages.NewExitMessage t code]).
Proof.
  intros H. unfold final_exit, Flow.Close. rewrite H. cbn.
  split; [done|]. exists (Messages.NewExitMessage t code).
  split; [apply last_snoc | cbn; apply Z.eqb_refl].
Qed.

Lemma wait_error_ok (o : WaitOutcome) : run_error (wait_error o).
Proof.
  destruct o as [k|msg]; cbn.
  - destruct (Z.eqb_spec k 0); [left; done|]. right; left. eauto.
  - right; right. eauto.
Qed.

Ltac rew_hyps :=
  repeat match goal with
         | E : ?l = ?r |- context [?l] => progress (rewrite E)
         end.

Ltac nat_tests :=
  repeat match goal with
         | H : Nat.eqb _ _ = false |- _ => apply Nat.eqb_neq in H
         | H : Nat.eqb _ _ = true |- _ => apply Nat.eqb_eq in H
         | H : Nat.ltb _ _ = true |- _ => apply Nat.ltb_lt in H
         | H : Nat.ltb _ _ = false |- _ => apply Nat.ltb_ge in H
         end.

Ltac step_cases H :=
  unfold thread_step, cancel, do_stop, close_wait in H;
  repeat case_match; simplify_eq; nat_tests; cbn in *; rew_hyps; cbn.

Lemma thread_step_counts (x : Ext) (p p' : pc) (c c' : Cmd) (new : list pc) :
  thread_step x p c = Some (c', p', new) ->
  closer p' + sum_list_with closer new + wait c' + b2n (started c)
  = closer p + wait c + b2n (started c')
  /\ runner p' + sum_list_with runner new + b2n (started c)
     <= runner p + b2n (started c')
  /\ spawned c' + spawner p' + sum_list_with spawner new + runner p
     <= spawned c + spawner p + runner p' + sum_list_with runner new
  /\ killed c' + killer p' + sum_list_with killer new + used (killOnce c)
     <= killed c + killer p + used (killOnce c')
  /\ (started c = true -> started c' = true).
Proof.
  intros H. destruct p; try discriminate.
  all: try (step_cases H;
            try match goal with
                | |- context [used (killOnce ?c)] => destruct (killOnce c)
                end; cbn; split_and!; try lia; done).
  (* the pump *)
  cbn in H.
  match type of H with
  | context [pipeInput_iter ?x ?cur ?c] =>
      pose proof (pipeInput_iter_frame x cur c) as Hf;
      destruct (pipeInput_iter x cur c)
  end; simplify_eq;
    destruct Hf as (-> & -> & _ & -> & -> & -> & _); cbn; split_and!; lia || done.
Qed.

Lemma frame_ok (c c' : Cmd) (q : pc) :
  frame c c' -> pc_ok c q -> pc_ok c' q.
Proof.
  intros (Hw & Hn & Hc & Ho) Hq.
  destruct q; cbn in *; rewrite ?Hw, ?Hn, ?Hc; try done.
  all: unfold final_exit in *; destruct_and?;
    match goal with
    | H : Flow.closed (out _) = true |- _ => rewrite (Ho H)
    end; done.
Qed.

(** While a goroutine has the closing of the wait channel ahead of it,
    the others wait: none of them relies on the state it changes. *)
Lemma idle_ok (c c' : Cmd) (q : pc) :
  wait c = 0 -> closer q = 0 -> pc_ok c q -> pc_ok c' q.
Proof.
  intros Hw Hq Hok. destruct q; cbn in *; try done; try lia.
Qed.

Ltac use_hyps :=
  repeat match goal with
         | H : ?a = ?a -> _ |- _ => specialize (H eq_refl)
         | H : 0 = 1 -> _ |- _ => clear H
         | H : false = true -> _ |- _ => clear H
         | H : true = false -> _ |- _ => clear H
         end;
  destruct_and?; nat_tests; rew_hyps.

Ltac ok_goal :=
  first
    [ done
    | lia
    | apply wait_error_ok
    | apply Close_final; done
    | rewrite (proj1 (Push_closed _ _)); done
    | unfold waitErr_sent, waitErr_final in *; congruence
    | right; right; eauto; fail
    | match goal with
      | Hc : forall e, ctx _ = Some e -> _, H : ctx _ = Some ?e
        |- run_error (Some ?e) =>
          destruct (Hc _ H) as [? ->]; right; right; eauto
      end
    | intros; simplify_eq; done
    | intros; simplify_eq; eauto; fail
    | intros _; split_and!; try done; apply Push_closed ].

Lemma thread_step_ok (x : Ext) (p p' : pc) (c c' : Cmd) (new : list pc) :
  thread_step x p c = Some (c', p', new) ->
  pc_ok c p ->
  (started c = false -> waitErr c = None /\ Flow.closed (out c) = false) ->
  (closer p = 1 -> wait c = 0) ->
  (forall e, ctx c = Some e -> exists msg, e = errorString msg) ->
  (forall s, panic c = Some s -> s = nil_deref) ->
  pc_ok c' p' /\ Forall (pc_ok c') new
  /\ (closer p = 0 -> frame c c')
  /\ (forall e, ctx c' = Some e -> exists msg, e = errorString msg)
  /\ (forall s, panic c' = Some s -> s = nil_deref).
Proof.
  intros H Hp Hfresh Hw Hctx Hpanic. unfold frame.
  destruct p; try discriminate.
  all: try (step_cases H; use_hyps; split_and!;
            repeat (first [apply Forall_nil | apply Forall_cons; split]);
            cbn; split_and?; ok_goal).
  - (* Run_start *)
    cbn in H. destruct Hp as [Hwe Hopen].
    assert (Hrun : forall msg, run_error (Some (errorString msg)))
      by (intros msg; right; right; eauto).
    destruct (ctx c) as [e|] eqn:He.
    + simplify_eq. destruct (Hctx e eq_refl) as [msg ->].
      split_and!; try done.
      intros e' He'. rewrite He in He'. apply Hctx. exact He'.
    + destruct (start_fail x) as [msg|]; simplify_eq; cbn; rewrite ?He;
        split_and!; done.
  - (* the pump *)
    cbn in H.
    match type of H with
    | context [pipeInput_iter ?x ?cur ?c] =>
        pose proof (pipeInput_iter_frame x cur c) as Hf;
        destruct (pipeInput_iter x cur c)
    end; simplify_eq;
      destruct Hf as (_ & Hf1 & Hf2 & _ & _ & _ & _ & Hf3 & Hf4 & Hf5 & Hf6);
      rewrite Hf3, Hf4; split_and!; done.
Qed.

(** *** The invariant holds in every reachable world *)

Lemma exclusive (w : World) (i : nat) (p : pc) :
  Inv w -> threads w !! i = Some p -> closer p = 1 ->
  wait (cmd w) = 0 /\ started (cmd w) = true
  /\ forall j q, j <> i -> threads w !! j = Some q -> closer q = 0.
Proof.
  intros HI Hi Hp. pose proof (inv_tokens w HI) as Ht. unfold count in Ht.
  pose proof (sum_lookup closer _ _ _ Hi) as Hle.
  destruct (started (cmd w)); cbn in Ht; [|lia].
  split_and!; [lia | done |].
  intros j q Hne Hj.
  pose proof (sum_lookup2 closer _ _ _ _ _ Hne Hj Hi). lia.
Qed.

Lemma closer_01 (p : pc) : closer p = 0 \/ closer p = 1.
Proof. destruct p; cbn; auto. Qed.

Lemma Inv_New : Inv New.
Proof. split; cbn; try done; try lia. Qed.

Lemma sum_zero (f : pc -> nat) (l : list pc) :
  Forall (fun p => f p = 0) l -> sum_list_with f l = 0.
Proof. induction 1 as [|a l Ha _ IH]; simpl in *; lia. Qed.

Lemma Inv_extend (w : World) (c' : Cmd) (new : list pc) :
  Inv w -> frame (cmd w) c' ->
  started c' = started (cmd w) -> spawned c' = spawned (cmd w) ->
  killed c' = killed (cmd w) -> killOnce c' = killOnce (cmd w) ->
  panic c' = panic (cmd w) ->
  (forall e, ctx c' = Some e -> exists msg, e = errorString msg) ->
  Forall (fun p => closer p = 0 /\ runner p = 0 /\ spawner p = 0
                   /\ killer p = 0 /\ pc_ok c' p) new ->
  Inv {| cmd := c'; threads := threads w ++ new |}.
Proof.
  intros HI Hf Hs Hsp Hk Hko Hpa Hctx Hnew.
  assert (Hsum : forall f, Forall (fun p => f p = 0) new ->
                           sum_list_with f (threads w ++ new)
                           = sum_list_with f (threads w)).
  { intros f Hz. rewrite sum_list_with_app, (sum_zero f new Hz). lia. }
  pose proof (Hf) as (Hwe & Hwa & Hcl & Hout).
  destruct HI as [I1 I2 I3 I4 I5 I6 I7 I8]. unfold count in *.
  split; unfold count; cbn [cmd threads].
  - rewrite Hsum, Hwa, Hs; [done|]. eapply Forall_impl; [exact Hnew|]. (intros ? (?&?&?&?&?); done).
  - rewrite Hsum, Hs; [done|]. eapply Forall_impl; [exact Hnew|]. (intros ? (?&?&?&?&?); done).
  - rewrite !Hsum, Hsp; [done| |]; (eapply Forall_impl; [exact Hnew|]; (intros ? (?&?&?&?&?); done)).
  - rewrite Hsum, Hk, Hko; [done|]. eapply Forall_impl; [exact Hnew|]. (intros ? (?&?&?&?&?); done).
  - apply Forall_app. split.
    + eapply Forall_impl; [exact I5|]. intros q. apply frame_ok, Hf.
    + eapply Forall_impl; [exact Hnew|]. (intros ? (?&?&?&?&?); done).
  - rewrite Hs, Hwe, Hcl. exact I6.
  - exact Hctx.
  - rewrite Hpa. exact I8.
Qed.

Lemma frame_refl (c : Cmd) : frame c c.
Proof. unfold frame. done. Qed.

Lemma step_Inv (w w' : World) (a : action) :
  Inv w -> step w a = Some w' -> Inv w'.
Proof.
  intros HI H. unfold step in H.
  destruct (negb (alive w)); [discriminate|].
  destruct a as [tid x| |t|inputs|e|K t b].
  - (* a goroutine takes a step *)
    destruct (threads w !! tid) as [p|] eqn:Hp; [|discriminate].
    destruct (thread_step x p (cmd w)) as [[[c' p'] new]|] eqn:Hs;
      [|discriminate].
    simplify_eq.
    pose proof (thread_step_counts _ _ _ _ _ _ Hs) as (C1 & C2 & C3 & C4 & C5).
    pose proof (Forall_lookup_1 _ _ _ _ (inv_pcs w HI) Hp) as Hpok.
    assert (Hex : closer p = 1 ->
                  wait (cmd w) = 0 /\ started (cmd w) = true
                  /\ forall j q, j <> tid -> threads w !! j = Some q ->
                                 closer q = 0)
      by (apply exclusive; assumption).
    destruct (thread_step_ok _ _ _ _ _ _ Hs Hpok (inv_fresh w HI)
                (fun E => proj1 (Hex E)) (inv_ctx w HI) (inv_panic w HI))
      as (O1 & O2 & O3 & O4 & O5).
    assert (Hsum : forall f,
              sum_list_with f (<[tid := p']> (threads w) ++ new) + f p
              = sum_list_with f (threads w) + f p' + sum_list_with f new).
    { intros f. rewrite sum_list_with_app.
      pose proof (sum_insert f _ _ _ p' Hp). lia. }
    destruct HI as [I1 I2 I3 I4 I5 I6 I7 I8]. unfold count in *.
    split; unfold count; cbn [cmd threads].
    + pose proof (Hsum closer). lia.
    + pose proof (Hsum runner). lia.
    + pose proof (Hsum runner). pose proof (Hsum spawner). lia.
    + pose proof (Hsum killer). lia.
    + apply Forall_app. split; [|exact O2].
      apply Forall_lookup. intros j q Hj.
      destruct (decide (j = tid)) as [->|Hne].
      * rewrite list_lookup_insert_eq in Hj
          by (eapply lookup_lt_Some; exact Hp).
        simplify_eq. exact O1.
      * rewrite list_lookup_insert_ne in Hj by done.
        pose proof (Forall_lookup_1 _ _ _ _ I5 Hj) as Hq.
        destruct (closer_01 p) as [E|E].
        -- eapply frame_ok; [apply O3, E | exact Hq].
        -- destruct (Hex E) as (Hw0 & _ & Hothers).
           eapply idle_ok; [exact Hw0 | eapply Hothers; eassumption | exact Hq].
    + intros Hst. destruct (closer_01 p) as [E|E].
      * destruct (O3 E) as (Hwe & _ & Hcl & _). rewrite Hwe, Hcl.
        apply I6. destruct (started (cmd w)); [|done].
        rewrite C5 in Hst; done.
      * destruct (Hex E) as (_ & Hst' & _). rewrite (C5 Hst') in Hst. done.
    + exact O4.
    + exact O5.
  - (* Start is called *)
    simplify_eq.
    apply Inv_extend; try done; try apply frame_refl; try apply HI.
    apply Forall_cons. split; [done | by apply Forall_nil].
  - (* CloseTimeout is called *)
    simplify_eq.
    apply Inv_extend; try done; try apply frame_refl; try apply HI.
    apply Forall_cons. split; [done | by apply Forall_nil].
  - (* Push is called *)
    simplify_eq.
    rewrite <- (app_nil_r (threads w)).
    apply Inv_extend; try done; try apply frame_refl; apply HI.
  - (* the outer scope is cancelled *)
    unfold cancel in H. pose proof (inv_ctx w HI) as Hctx.
    destruct (ctx (cmd w)) as [e0|] eqn:He; [|destruct (stop (cmd w))];
      simplify_eq; cbn.
    + apply Inv_extend; try done; try apply frame_refl.
      rewrite He; exact Hctx.
    + apply Inv_extend; try done.
      * cbn; intros e' ?; simplify_eq; eauto.
      * apply Forall_cons. split; [done | by apply Forall_nil].
    + apply Inv_extend; try done.
      cbn; intros e' ?; simplify_eq; eauto.
    + apply Inv_extend; try done.
      cbn; intros e' ?; simplify_eq; eauto.
  - (* the process writes *)
    destruct (running (cmd w)); [|discriminate]. simplify_eq.
    rewrite <- (app_nil_r (threads w)).
    unfold kindWriter_Write. pose proof (inv_ctx w HI) as Hctx.
    destruct (ctx (cmd w)) as [e0|] eqn:He; cbn.
    + apply Inv_extend; try done; try apply frame_refl.
      cbn; rewrite He; done.
    + apply Inv_extend; try done.
      * unfold frame. cbn. split_and!; try done; apply Push_closed.
      * cbn; rewrite He; done.
Qed.

Lemma run_Inv (sched : list action) : forall w w',
  Inv w -> run w sched = Some w' -> Inv w'.
Proof.
  induction sched as [|a sched IH]; intros w w' HI H; cbn in H.
  - simplify_eq. exact HI.
  - destruct (step w a) as [w1|] eqn:Hs; [|discriminate].
    eapply IH; [|exact H]. eapply step_Inv; eassumption.
Qed.

Lemma reachable_Inv (w : World) : reachable w -> Inv w.
Proof. intros [sched H]. eapply run_Inv; [apply Inv_New | exact H]. Qed.

(** *** A controller that was never started *)

Lemma thread_step_NS (x : Ext) (p p' : pc) (c c' : Cmd) (new : list pc) :
  thread_step x p c = Some (c', p', new) ->
  closing p = true -> Process c = false -> pc_ok c p ->
  close_error_only (waitErr c) ->
  closing p' = true /\ Forall (fun q => closing q = true) new
  /\ Process c' = false /\ spawned c' = spawned c /\ killed c' = killed c
  /\ close_error_only (waitErr c').
Proof.
  intros H Hcl Hpr Hp Hwe. unfold close_error_only in *.
  destruct p; try discriminate.
  all: step_cases H; use_hyps; try congruence; split_and!; try done;
    try (apply Forall_cons; split; [done | by apply Forall_nil]).
  all: destruct (close_fail x); cbn; eauto.
Qed.

Lemma step_InvNS (w w' : World) (a : action) :
  a <> CallStart -> Inv w -> InvNS w -> step w a = Some w' -> InvNS w'.
Proof.
  intros Ha HI [N1 N2 N3 N4 N5] H. unfold step in H.
  destruct (negb (alive w)); [discriminate|].
  destruct a as [tid x| |t|inputs|e|K t b]; [| done | | | |].
  - destruct (threads w !! tid) as [p|] eqn:Hp; [|discriminate].
    destruct (thread_step x p (cmd w)) as [[[c' p'] new]|] eqn:Hs;
      [|discriminate].
    simplify_eq.
    destruct (thread_step_NS _ _ _ _ _ _ Hs
                (Forall_lookup_1 _ _ _ _ N1 Hp) N2
                (Forall_lookup_1 _ _ _ _ (inv_pcs w HI) Hp) N5)
      as (S1 & S2 & S3 & S4 & S5 & S6).
    split; cbn [cmd threads]; try congruence.
    apply Forall_app. split; [|exact S2].
    apply Forall_insert; assumption.
  - simplify_eq. split; cbn [cmd threads]; try done.
    apply Forall_app. split; [done|].
    apply Forall_cons; split; [done | by apply Forall_nil].
  - simplify_eq. split; done.
  - unfold cancel in H.
    destruct (ctx (cmd w)); [|destruct (stop (cmd w))]; simplify_eq;
      split; cbn [cmd threads]; try done;
      apply Forall_app; (split; [done|]);
      try (by apply Forall_nil);
      apply Forall_cons; split; [done | by apply Forall_nil].
  - destruct (running (cmd w)); [|discriminate]. simplify_eq.
    unfold kindWriter_Write. destruct (ctx (cmd w)); split; done.
Qed.

Lemma run_InvNS (sched : list action) : forall w w',
  never_started sched = true -> Inv w -> InvNS w ->
  run w sched = Some w' -> InvNS w'.
Proof.
  induction sched as [|a sched IH]; intros w w' Hns HI HN H; cbn in H.
  - simplify_eq. exact HN.
  - destruct (step w a) as [w1|] eqn:Hs; [|discriminate].
    cbn in Hns. apply andb_prop in Hns as [Ha Hns].
    eapply IH; [exact Hns | eapply step_Inv; eassumption | | exact H].
    eapply step_InvNS; [|exact HI | exact HN | exact Hs].
    intros ->. discriminate.
Qed.

Lemma InvNS_New : InvNS New.
Proof. split; cbn; try done. left; done. Qed.

(** *** A controller nobody shuts down *)

Lemma thread_step_SO (x : Ext) (p p' : pc) (c c' : Cmd) (new : list pc) :
  thread_step x p c = Some (c', p', new) -> started c = true ->
  runner p' + sum_list_with runner new = runner p.
Proof.
  intros H Hst. destruct p; try discriminate.
  all: step_cases H; done.
Qed.

Lemma step_InvSO (w w' : World) (a : action) :
  start_only [a] = true -> Inv w -> InvSO w -> step w a = Some w' -> InvSO w'.
Proof.
  intros Ha HI [S1 S2] H. unfold step in H.
  destruct (negb (alive w)); [discriminate|].
  destruct a as [tid x| |t|inputs|e|K t b]; try discriminate.
  - destruct (threads w !! tid) as [p|] eqn:Hp; [|discriminate].
    destruct (thread_step x p (cmd w)) as [[[c' p'] new]|] eqn:Hs;
      [|discriminate].
    simplify_eq.
    pose proof (thread_step_counts _ _ _ _ _ _ Hs) as (_ & _ & _ & _ & C5).
    assert (Hsum : sum_list_with runner (<[tid := p']> (threads w) ++ new)
                   + runner p
                   = sum_list_with runner (threads w) + runner p'
                     + sum_list_with runner new).
    { rewrite sum_list_with_app.
      pose proof (sum_insert runner _ _ _ p' Hp). lia. }
    destruct (started (cmd w)) eqn:Hst.
    + pose proof (thread_step_SO _ _ _ _ _ _ Hs Hst) as Hr.
      specialize (S2 eq_refl). unfold count in *.
      split; cbn [cmd threads]; [rewrite (C5 eq_refl); done|].
      intros _. unfold count. cbn [threads]. lia.
    + pose proof (Forall_lookup_1 _ _ _ _ (S1 eq_refl) Hp) as ->.
      pose proof (inv_runs w HI) as Hr. rewrite Hst in Hr.
      unfold count in Hr. cbn in Hr, Hs. rewrite Hst in Hs. simplify_eq.
      cbn in Hsum.
      split; cbn [cmd threads]; [done|].
      intros _. unfold count. cbn [threads]. lia.
  - simplify_eq. split; cbn [cmd threads].
    + intros Hst. apply Forall_app. split; [apply S1, Hst|].
      apply Forall_cons; split; [done | by apply Forall_nil].
    + intros Hst. unfold count in *. cbn [threads].
      rewrite sum_list_with_app. cbn. specialize (S2 Hst). lia.
  - simplify_eq. split; done.
  - destruct (running (cmd w)); [|discriminate]. simplify_eq.
    unfold kindWriter_Write. destruct (ctx (cmd w)); split; done.
Qed.

Lemma run_InvSO (sched : list action) : forall w w',
  start_only sched = true -> Inv w -> InvSO w ->
  run w sched = Some w' -> InvSO w'.
Proof.
  induction sched as [|a sched IH]; intros w w' Hso HI HS H; cbn in H.
  - simplify_eq. exact HS.
  - destruct (step w a) as [w1|] eqn:Hs; [|discriminate].
    cbn in Hso. apply andb_prop in Hso as [Ha Hso].
    eapply IH; [exact Hso | eapply step_Inv; eassumption | | exact H].
    eapply step_InvSO; [|exact HI | exact HS | exact Hs].
    cbn. rewrite Ha. done.
Qed.

Lemma InvSO_New : InvSO New.
Proof. split; cbn; [intros _; by apply Forall_nil | done]. Qed.

(** A goroutine with [close(cmd.wait)] ahead of it is never blocked. *)
Lemma closer_steps (x : Ext) (p : pc) (c : Cmd) :
  closer p = 1 -> thread_step x p c <> None.
Proof.
  intros Hp. destruct p; try discriminate; cbn; try done.
  destruct (ctx c); [done|]. destruct (start_fail x); done.
Qed.

(** *** The accumulated error *)

Lemma IsIn_Join_l (t : error) (a b : option error) :
  IsIn t a = true -> IsIn t (Join a b) = true.
Proof.
  destruct a as [x|]; [|discriminate]. cbn [IsIn]. intros H.
  destruct b; cbn; rewrite H; cbn; apply orb_true_r.
Qed.

Lemma IsIn_Join_r (t : error) (a b : option error) :
  IsIn t b = true -> IsIn t (Join a b) = true.
Proof.
  destruct b as [y|]; [|discriminate]. cbn [IsIn]. intros H.
  destruct a; cbn; rewrite H; cbn; rewrite ?orb_true_r; reflexivity.
Qed.

Lemma Is_ErrExitCode (k : Z) : Is (ErrExitCode k) (ErrExitCode k) = true.
Proof. cbn. rewrite Z.eqb_refl. reflexivity. Qed.

Lemma Is_errorString (msg : string) :
  Is (errorString msg) (errorString msg) = true.
Proof. cbn. rewrite String.eqb_refl. reflexivity. Qed.

(** The accumulated error after an exit with a code other than 0. *)
Lemma waitErr_exit (k : Z) (cerr : option error) :
  k <> 0%Z ->
  run_code (Some (ExitError k)) = k
  /\ IsIn (ErrExitCode k) (waitErr_final (Some (ExitError k)) cerr) = true.
Proof.
  intros Hk. split; [reflexivity|].
  unfold waitErr_final, waitErr_sent, sendCode_waitErr, run_code, run_waitErr.
  cbn [As_ExitError].
  destruct (Z.eqb_spec k 0); [done|].
  apply IsIn_Join_l, IsIn_Join_r. cbn [IsIn]. apply Is_ErrExitCode.
Qed.

(** The accumulated error after an end without an exit code. *)
Lemma waitErr_abnormal (msg : string) (cerr : option error) :
  run_code (Some (errorString msg)) = (-1)%Z
  /\ IsIn (ErrExitCode (-1)) (waitErr_final (Some (errorString msg)) cerr) = true
  /\ IsIn (errorString msg) (waitErr_final (Some (errorString msg)) cerr) = true.
Proof.
  split; [reflexivity|].
  unfold waitErr_final, waitErr_sent, sendCode_waitErr, run_code, run_waitErr.
  cbn [As_ExitError Z.eqb].
  split.
  - apply IsIn_Join_l, IsIn_Join_r. cbn [IsIn]. apply Is_ErrExitCode.
  - apply IsIn_Join_l, IsIn_Join_l, IsIn_Join_r. cbn [IsIn].
    apply Is_errorString.
Qed.

(** *** The process and its kills *)

Lemma pipeInput_iter_frame3 (x : Ext) (cur : nat) (c : Cmd) :
  match pipeInput_iter x cur c with
  | Continue c' | Return c' _ =>
      spawned c' = spawned c /\ cancelKills c' = cancelKills c
      /\ running c' = running c /\ ctx c' = ctx c
  | Block => True
  end.
Proof.
  unfold pipeInput_iter.
  destruct (ctx c) eqn:Hctx; [done|].
  destruct (Flow.recv (in_ c) cur); [|done..].
  destruct (write_fail x); [|destruct (Nat.leb _ _)]; cbn; done.
Qed.

Lemma thread_step_ok3 (x : Ext) (p p' : pc) (c c' : Cmd) (new : list pc) :
  thread_step x p c = Some (c', p', new) ->
  pc_ok3 c p -> kills_ok c ->
  pc_ok3 c' p' /\ Forall (pc_ok3 c') new
  /\ spawned c <= spawned c' /\ kills_ok c'.
Proof.
  intros H Hp (K1 & K2 & K3). unfold kills_ok, cancelled_n, pipe_error in *.
  destruct p; try discriminate.
  all: try solve
    [step_cases H; cbn in *; rew_hyps; cbn in *;
     repeat match goal with
            | |- context [io_error (close_fail ?x)] =>
                destruct (close_fail x); cbn
            | H : true = true -> _ |- _ => specialize (H eq_refl)
            end;
     unfold pipe_error in *;
     split_and!; try done; try lia; try congruence; eauto;
     try (by apply Forall_nil);
     try (apply Forall_cons; split; [done | by apply Forall_nil]);
     try (intros; lia)].
  cbn in H.
  match type of H with
  | context [pipeInput_iter ?x ?cur ?c] =>
      pose proof (pipeInput_iter_frame3 x cur c) as Hf;
      destruct (pipeInput_iter x cur c)
  end; simplify_eq; destruct Hf as (-> & -> & -> & ->);
    split_and!; try done; try lia; by apply Forall_nil.
Qed.

Lemma stable_ok3 (c c' : Cmd) (q : pc) :
  spawned c <= spawned c' -> pc_ok3 c q -> pc_ok3 c' q.
Proof. intros Hs. destruct q; cbn; try done. lia. Qed.

Lemma Inv3_New : Inv3 New.
Proof. split; cbn; [done|]. unfold kills_ok. cbn. split_and!; done || lia. Qed.

Lemma step_Inv3 (w w' : World) (a : action) :
  Inv3 w -> step w a = Some w' -> Inv3 w'.
Proof.
  intros [J1 J2] H. unfold step in H.
  destruct (negb (alive w)); [discriminate|].
  destruct a as [tid x| |t|inputs|e|K t b].
  - destruct (threads w !! tid) as [p|] eqn:Hp; [|discriminate].
    destruct (thread_step x p (cmd w)) as [[[c' p'] new]|] eqn:Hs;
      [|discriminate].
    simplify_eq.
    destruct (thread_step_ok3 _ _ _ _ _ _ Hs
                (Forall_lookup_1 _ _ _ _ J1 Hp) J2) as (O1 & O2 & O3 & O4).
    split; cbn [cmd threads]; [|exact O4].
    apply Forall_app. split; [|exact O2].
    apply Forall_insert; [|exact O1].
    eapply Forall_impl; [exact J1|]. intros q. by apply stable_ok3.
  - simplify_eq. split; cbn [cmd threads]; [|exact J2].
    apply Forall_app. split; [done|].
    apply Forall_cons; split; [done | by apply Forall_nil].
  - simplify_eq. split; cbn [cmd threads]; [|exact J2].
    apply Forall_app. split; [done|].
    apply Forall_cons; split; [done | by apply Forall_nil].
  - simplify_eq. split; done.
  - destruct J2 as (K1 & K2 & K3). unfold cancel in H.
    unfold kills_ok, cancelled_n in *.
    destruct (ctx (cmd w)) eqn:He; [|destruct (stop (cmd w))]; simplify_eq;
      (split; cbn [cmd threads];
       [apply Forall_app; split;
        [eapply Forall_impl; [exact J1|]; intros q; by apply stable_ok3
        |try (by apply Forall_nil);
         try (apply Forall_cons; split; [done | by apply Forall_nil])]
       |unfold kills_ok, cancelled_n;
        destruct (running (cmd w)) eqn:Hr; cbn; rewrite ?He, ?Hr;
        repeat match goal with
               | H : true = true -> _ |- _ => specialize (H eq_refl)
               end; split_and!; try done; try lia]).
  - destruct (running (cmd w)) eqn:Hr; [|discriminate]. simplify_eq.
    unfold kindWriter_Write. destruct (ctx (cmd w)) eqn:He; split; done.
Qed.

Lemma run_Inv3 (sched : list action) : forall w w',
  Inv3 w -> run w sched = Some w' -> Inv3 w'.
Proof.
  induction sched as [|a sched IH]; intros w w' HI H; cbn in H.
  - simplify_eq. exact HI.
  - destruct (step w a) as [w1|] eqn:Hs; [|discriminate].
    eapply IH; [|exact H]. eapply step_Inv3; eassumption.
Qed.

Lemma reachable_Inv3 (w : World) : reachable w -> Inv3 w.
Proof. intros [sched H]. eapply run_Inv3; [apply Inv3_New | exact H]. Qed.

(** *** The wait channel can always still be closed *)

Lemma togo_closer (p : pc) : closer p = 1 -> 1 <= togo p.
Proof. destruct p; cbn; lia. Qed.

(** One step of the goroutine that has [close(cmd.wait)] ahead of it:
    it comes closer to it, or executes it. *)
Lemma closer_step (p : pc) (c : Cmd) :
  closer p = 1 -> wait c = 0 -> panic c = None ->
  exists c' p' new,
    thread_step quiet p c = Some (c', p', new)
    /\ panic c' = None
    /\ ((closer p' = 1 /\ togo p' < togo p) \/ wait c' = 1).
Proof.
  intros Hp Hw Hpa.
  destruct p; try discriminate Hp; cbn;
    try (eexists _, _, _; split; [reflexivity|]; cbn;
         split; [exact Hpa | left; split; [reflexivity | lia]]).
  - (* the deferred close of the cleanup *)
    eexists _, _, _. split; [reflexivity|]. unfold close_wait.
    rewrite Hw. cbn. split; [exact Hpa | right; reflexivity].
  - (* cmd.cmd.Run() *)
    destruct (ctx c);
      (eexists _, _, _; split; [reflexivity|]; cbn;
       split; [exact Hpa | left; split; [reflexivity | lia]]).
  - eexists _, _, _. split; [reflexivity|]. unfold close_wait.
    rewrite Hw. cbn. split; [exact Hpa | right; reflexivity].
Qed.

Lemma run_to_Done (n : nat) : forall w i p,
  Inv w -> alive w = true -> threads w !! i = Some p ->
  closer p = 1 -> togo p <= n ->
  exists sched w', run w sched = Some w' /\ wait (cmd w') = 1.
Proof.
  induction n as [|n IH]; intros w i p HI Ha Hi Hp Hn.
  - pose proof (togo_closer p Hp). lia.
  - destruct (exclusive w i p HI Hi Hp) as (Hw & _ & _).
    assert (Hpa : panic (cmd w) = None).
    { unfold alive in Ha. destruct (panic (cmd w)); done. }
    destruct (closer_step p (cmd w) Hp Hw Hpa)
      as (c' & p' & new & Hs & Hpa' & Hnext).
    assert (Hstep : step w (Step i quiet)
                    = Some {| cmd := c'; threads := <[i := p']> (threads w) ++ new |}).
    { unfold step. rewrite Ha, Hi. cbn. rewrite Hs. reflexivity. }
    destruct Hnext as [[Hp' Hlt]|Hw'].
    + destruct (IH _ i p' (step_Inv _ _ _ HI Hstep)) as (sched & w' & Hr & Hd).
      * unfold alive. cbn. rewrite Hpa'. reflexivity.
      * cbn. rewrite lookup_app_l
          by (rewrite length_insert; eapply lookup_lt_Some; exact Hi).
        apply list_lookup_insert_eq. eapply lookup_lt_Some; exact Hi.
      * exact Hp'.
      * lia.
      * exists (Step i quiet :: sched), w'. cbn. rewrite Hstep. done.
    + eexists [Step i quiet], _. cbn. rewrite Hstep. done.
Qed.

(** *** The claims on the controller *)

(** C3, amended.  In every world a controller can reach: at most one
    [runCmd] goroutine was ever launched and at most one process
    spawned; a call of [Start] on a started controller changes
    nothing; when [cmd.cmd.Run()] has started the process and waits
    for it, exactly one process was spawned.  The wait channel was
    closed at most once, never a second time (the program has not
    panicked on it); it is closed exactly once when [runCmd] has
    returned, and as soon as no goroutine of a started or shut-down
    controller has the closing ahead of it; and as long as the program
    has not crashed, the goroutines can be run on to a world in which
    it is closed.  When nobody asks for a shutdown and some call of
    [Start] has returned, exactly one [runCmd] was launched, however
    many calls there were. *)
Theorem start_once_done_once (w : World) :
  reachable w ->
  count runner w <= 1
  /\ spawned (cmd w) <= 1
  /\ wait (cmd w) <= 1
  /\ panic (cmd w) <> Some "close of closed channel"
  /\ (started (cmd w) = true ->
      forall x, thread_step x Start_cas (cmd w) = Some (cmd w, Start_done, []))
  /\ (forall i, threads w !! i = Some Run_waitproc -> spawned (cmd w) = 1)
  /\ (forall i err code cerr,
        threads w !! i = Some (Run_done err code cerr) -> wait (cmd w) = 1)
  /\ (started (cmd w) = true -> count closer w = 0 -> wait (cmd w) = 1)
  /\ (started (cmd w) = true -> alive w = true ->
      exists sched w', run w sched = Some w' /\ wait (cmd w') = 1)
  /\ (forall sched i,
        start_only sched = true -> run New sched = Some w ->
        threads w !! i = Some Start_done -> count runner w = 1).
Proof.
  intros Hr. pose proof (reachable_Inv w Hr) as HI.
  pose proof (reachable_Inv3 w Hr) as HJ.
  pose proof (inv_tokens w HI) as Ht. pose proof (inv_runs w HI) as Hru.
  pose proof (inv_spawn w HI) as Hsp.
  assert (Hb : b2n (started (cmd w)) <= 1) by (destruct (started _); cbn; lia).
  split_and!; try lia.
  - intros Hp. apply (inv_panic w HI) in Hp. discriminate.
  - intros Hst x. cbn. rewrite Hst. reflexivity.
  - intros i Hi.
    pose proof (Forall_lookup_1 _ _ _ _ (i3_pcs w HJ) Hi) as Hok.
    cbn in Hok. lia.
  - intros i err code cerr Hi.
    pose proof (Forall_lookup_1 _ _ _ _ (inv_pcs w HI) Hi) as Hok.
    cbn in Hok. destruct Hok as (_ & _ & _ & _ & Hw). lia.
  - intros Hst Hc. rewrite Hst, Hc in Ht. exact Ht.
  - intros Hst Hal. rewrite Hst in Ht. cbn in Ht.
    destruct (wait (cmd w)) as [|n] eqn:Hw.
    + destruct (sum_positive closer (threads w)) as (i & p & Hi & Hp);
        [unfold count in Ht; lia|].
      destruct (closer_01 p) as [E|E]; [lia|].
      exact (run_to_Done (togo p) w i p HI Hal Hi E (le_n _)).
    + exists [], w. split; [reflexivity | lia].
  - intros sched i Hso Hrun Hi.
    pose proof (run_InvSO sched New w Hso Inv_New InvSO_New Hrun) as [S1 S2].
    apply S2. destruct (started (cmd w)); [done|].
    pose proof (Forall_lookup_1 _ _ _ _ (S1 eq_refl) Hi). discriminate.
Qed.

Lemma start_once_done_once_witness :
  reachable (world_after started_run)
  /\ count runner (world_after started_run) = 1
  /\ spawned (cmd (world_after started_run)) <= 1
  /\ wait (cmd (world_after started_run)) = 1
  /\ spawned (cmd (world_after (take 5 started_run))) = 1.
Proof.
  assert (Hr : reachable (world_after started_run))
    by (exists started_run; vm_compute; reflexivity).
  assert (Hr' : reachable (world_after (take 5 started_run)))
    by (exists (take 5 started_run); vm_compute; reflexivity).
  pose proof (start_once_done_once (world_after started_run) Hr)
    as (_ & H2 & _ & _ & _ & _ & H7 & _ & _ & H10).
  pose proof (start_once_done_once (world_after (take 5 started_run)) Hr')
    as (_ & _ & _ & _ & _ & H6 & _).
  split_and!; [exact Hr | | exact H2 | |].
  - apply (H10 started_run 0); vm_compute; reflexivity.
  - apply (H7 1 (Some (ExitError 3)) 3%Z None). vm_compute. reflexivity.
  - apply (H6 1). vm_compute. reflexivity.
Defined.

(** C3 as stated fails.  [Start] is called on a controller whose
    command cannot be started: the controller is started, [runCmd] has
    run to its end and closed the wait channel, and no process was
    spawned, where the claim asks for exactly one. *)
Lemma start_without_spawn :
  exists w,
    run New start_fails = Some w
    /\ threads w !! 0 = Some Start_done
    /\ started (cmd w) = true
    /\ wait (cmd w) = 1
    /\ spawned (cmd w) = 0.
Proof. eexists. split; [vm_compute; reflexivity|]. split_and!; reflexivity. Qed.

(** C4, amended.  When [runCmd] has run to its end with the result
    [err] of [cmd.cmd.Run()]: the output stream is closed and its last
    message is an Exit message whose code is the code of [err].  After
    an exit with a status [k] other than 0, also the -1 of a process
    that a signal ended, the code is [k] and the accumulated error
    holds the exit-code error of [k] and the result of closing the
    pipe, not the [*exec.ExitError] itself.  After an error that is not
    an [*exec.ExitError] the code is -1 and the accumulated error holds
    that error as well as the exit-code error of -1.  After a success
    the code is 0 and nothing but the result of closing the pipe is
    recorded. *)
Theorem runCmd_exit_message (w : World) (i : nat) (err : option error)
    (code : Z) (cerr : option error) :
  reachable w ->
  threads w !! i = Some (Run_done err code cerr) ->
  code = run_code err
  /\ Flow.closed (out (cmd w)) = true
  /\ (exists m, last (Flow.items (out (cmd w))) = Some (Messages.MExit m)
                /\ Messages.Code m = code)
  /\ (forall k, err = Some (ExitError k) ->
        k <> 0%Z /\ code = k
        /\ waitErr (cmd w) = Join (Some (joinError [ErrExitCode k])) cerr
        /\ IsIn (ErrExitCode k) (waitErr (cmd w)) = true
        /\ IsIn (ExitError k) (waitErr (cmd w)) = false)
  /\ (forall msg, err = Some (errorString msg) ->
        code = (-1)%Z
        /\ IsIn (ErrExitCode (-1)) (waitErr (cmd w)) = true
        /\ IsIn (errorString msg) (waitErr (cmd w)) = true)
  /\ (err = None -> code = 0%Z /\ waitErr (cmd w) = Join None cerr).
Proof.
  intros Hr Hi. pose proof (reachable_Inv w Hr) as HI.
  pose proof (reachable_Inv3 w Hr) as HJ.
  pose proof (Forall_lookup_1 _ _ _ _ (inv_pcs w HI) Hi) as Hok.
  pose proof (Forall_lookup_1 _ _ _ _ (i3_pcs w HJ) Hi) as Hok3.
  cbn in Hok, Hok3.
  destruct Hok as (Herr & Hcode & Hwe & (Hcl & m & Hlast & Hm) & _).
  split_and!; try assumption.
  - destruct m as [|m|]; try discriminate Hm. exists m.
    split; [exact Hlast|]. cbn in Hm. apply Z.eqb_eq, Hm.
  - intros k ->.
    assert (Hk : k <> 0%Z).
    { destruct Herr as [?|[(k' & Hk' & E)|(msg & E)]]; congruence. }
    assert (Hval : waitErr (cmd w) = Join (Some (joinError [ErrExitCode k])) cerr).
    { rewrite Hwe. unfold waitErr_final, waitErr_sent, sendCode_waitErr,
        run_code, run_waitErr. cbn [As_ExitError].
      destruct (Z.eqb_spec k 0); [done | reflexivity]. }
    split_and!; [exact Hk | exact Hcode | exact Hval | |].
    + rewrite Hwe. apply waitErr_exit, Hk.
    + rewrite Hval. destruct Hok3 as [->|[msg ->]]; reflexivity.
  - intros msg ->. rewrite Hwe, Hcode. apply waitErr_abnormal.
  - intros ->. rewrite Hwe, Hcode. split; reflexivity.
Qed.

Lemma runCmd_exit_message_witness :
  reachable (world_after started_run)
  /\ threads (world_after started_run) !! 1
     = Some (Run_done (Some (ExitError 3)) 3 None)
  /\ (exists m, last (Flow.items (out (cmd (world_after started_run))))
                = Some (Messages.MExit m)
                /\ Messages.Code m = 3%Z)
  /\ IsIn (ErrExitCode 3) (waitErr (cmd (world_after started_run))) = true.
Proof.
  assert (Hr : reachable (world_after started_run))
    by (exists started_run; vm_compute; reflexivity).
  assert (Hi : threads (world_after started_run) !! 1
               = Some (Run_done (Some (ExitError 3)) 3 None))
    by (vm_compute; reflexivity).
  pose proof (runCmd_exit_message _ _ _ _ _ Hr Hi) as (_ & _ & H2 & H3 & _).
  split_and!; [exact Hr | exact Hi | exact H2 |].
  apply (H3 3%Z eq_refl).
Defined.

(** C4 as stated fails.  The process of a started controller is ended
    by a signal, so there is no exit status: [cmd.cmd.Run()] returns an
    [*exec.ExitError] whose [ExitCode()] is -1.  [runCmd] publishes the
    Exit message with -1 and records the exit-code error of -1, and
    nothing else: the underlying failure is not in the accumulated
    error. *)
Lemma signalled_exit_not_recorded :
  exists w,
    run New signalled_run = Some w
    /\ threads w !! 1 = Some (Run_done (Some (ExitError (-1))) (-1) None)
    /\ waitErr (cmd w) = Some (joinError [joinError [ErrExitCode (-1)]])
    /\ IsIn (ErrExitCode (-1)) (waitErr (cmd w)) = true
    /\ IsIn (ExitError (-1)) (waitErr (cmd w)) = false.
Proof. eexists. split; [vm_compute; reflexivity|]. split_and!; reflexivity. Qed.

(** C5.  [Start] is called and then [CloseTimeout(5)], whose timer
    fires before [runCmd] has started the process: the caller takes
    the kill branch and calls [Signal] on [cmd.cmd.Process], which is
    still nil.  The program panics; the wait channel is not closed,
    the call neither waits for it nor returns, and nothing can go
    on. *)
Theorem close_before_spawn_crashes :
  exists w,
    run New close_before_spawn = Some w
    /\ threads w !! 1 = Some Run_push_start
    /\ threads w !! 2 = Some Close_kill
    /\ Process (cmd w) = false
    /\ panic (cmd w) = Some nil_deref
    /\ wait (cmd w) = 0
    /\ forall a, step w a = None.
Proof.
  eexists. split; [vm_compute; reflexivity|].
  split_and!; reflexivity.
Qed.

(** C6.  [CloseTimeout(5)] is called once on a new controller and
    [Start] never.  Its [cmd.cancel()] starts the watcher's
    [c.Close()], and the watcher (thread 1) wins the compare-and-swap
    on [started].  The caller (thread 0) takes the other branch,
    enters the function of [killOnce], stands at the select of the
    kill branch; its timer fires before the watcher has closed the
    wait channel, and it calls [Signal] on the nil [cmd.cmd.Process].
    The program panics with the stream open, the pipe not closed and
    the wait channel not closed. *)
Theorem never_started_close_crashes :
  never_started never_started_crash = true
  /\ pcs_along 0 New never_started_crash
     = [Close_cancel 5; Close_stop 5; Close_stop 5; Close_stop 5;
        Close_stop 5; Close_cas 5; Close_once 5; Close_select;
        Close_kill; Close_kill]
  /\ exists w,
       run New never_started_crash = Some w
       /\ threads w !! 1 = Some Close_cleanup_out
       /\ panic (cmd w) = Some nil_deref
       /\ spawned (cmd w) = 0
       /\ Flow.closed (out (cmd w)) = false
       /\ closes (stdin (cmd w)) = 0
       /\ wait (cmd w) = 0
       /\ forall a, step w a = None.
Proof.
  split; [reflexivity|]. split; [vm_compute; reflexivity|].
  eexists. split; [vm_compute; reflexivity|].
  split_and!; reflexivity.
Qed.

(** *** More on shutdown *)

(** X20.  Any two calls of [Close] or [CloseTimeout] that have
    returned have returned the same error, the accumulated error of
    the controller, and they returned after the wait channel was
    closed; at most one process was spawned, [Signal(os.Kill)] was
    called at most once, and os/exec has killed the process at most
    once, for the cancellation of the token. *)
Theorem returned_calls_agree (w : World) (i j : nat) (ei ej : option error) :
  reachable w ->
  threads w !! i = Some (Returned ei) ->
  threads w !! j = Some (Returned ej) ->
  ei = ej
  /\ ei = waitErr (cmd w)
  /\ wait (cmd w) = 1
  /\ spawned (cmd w) <= 1
  /\ killed (cmd w) <= 1
  /\ cancelKills (cmd w) <= 1.
Proof.
  intros Hr Hi Hj. pose proof (reachable_Inv w Hr) as HI.
  pose proof (i3_kills w (reachable_Inv3 w Hr)) as (K1 & K2 & _).
  pose proof (Forall_lookup_1 _ _ _ _ (inv_pcs w HI) Hi) as [Hwi Hei].
  pose proof (Forall_lookup_1 _ _ _ _ (inv_pcs w HI) Hj) as [_ Hej].
  pose proof (inv_tokens w HI) as Ht. pose proof (inv_runs w HI) as Hru.
  pose proof (inv_spawn w HI) as Hsp. pose proof (inv_kill w HI) as Hk.
  assert (Hb : b2n (started (cmd w)) <= 1) by (destruct (started _); cbn; lia).
  assert (Hu : used (killOnce (cmd w)) <= 1) by (destruct (killOnce _); cbn; lia).
  split_and!; try congruence; lia.
Qed.

Lemma returned_calls_agree_witness :
  threads (world_after shutdown_run) !! 3
  = Some (Returned (waitErr (cmd (world_after shutdown_run))))
  /\ wait (cmd (world_after shutdown_run)) = 1
  /\ killed (cmd (world_after shutdown_run)) <= 1
  /\ cancelKills (cmd (world_after shutdown_run)) <= 1.
Proof.
  assert (Hr : reachable (world_after shutdown_run))
    by (exists shutdown_run; vm_compute; reflexivity).
  assert (H3 : threads (world_after shutdown_run) !! 3
               = Some (Returned (waitErr (cmd (world_after shutdown_run)))))
    by (vm_compute; reflexivity).
  assert (H5 : threads (world_after shutdown_run) !! 5
               = Some (Returned (waitErr (cmd (world_after shutdown_run)))))
    by (vm_compute; reflexivity).
  pose proof (returned_calls_agree _ _ _ _ _ Hr H3 H5)
    as (_ & _ & Hw & _ & Hk & Hc).
  split_and!; assumption.
Defined.

(** X21.  On a controller on which [Start] is never called, whatever
    the callers of [Close] and [CloseTimeout] and the watcher do: no
    process is spawned; the accumulated error holds at most the error
    of closing the pipe, no exit-code error; a call that has returned
    has returned that error, after the wait channel was closed.  A
    call that is alone on the controller finds it not started,
    releases it in the steps right after its compare-and-swap and
    returns, without passing the select or the signal of the kill
    branch. *)
Theorem never_started_close (sched : list action) (w : World) :
  never_started sched = true ->
  run New sched = Some w ->
  spawned (cmd w) = 0
  /\ Process (cmd w) = false
  /\ close_error_only (waitErr (cmd w))
  /\ (forall e, waitErr (cmd w) = Some e -> As_ErrExitCode e = None)
  /\ (forall i e, threads w !! i = Some (Returned e) ->
        wait (cmd w) = 1 /\ e = waitErr (cmd w))
  /\ (forall t x,
        pcs_along 0 New (close_alone t x)
        = [Close_cancel t; Close_stop t; Close_cas t;
           Close_cleanup_out; Close_cleanup_stdin; Close_cleanup_wait;
           Close_once_noop; Close_once_exit; Close_wait; Close_return;
           Returned (Join None (io_error (close_fail x)))]
        /\ exists w1, run New (close_alone t x) = Some w1
                      /\ wait (cmd w1) = 1
                      /\ Flow.closed (out (cmd w1)) = true
                      /\ closes (stdin (cmd w1)) = 1
                      /\ spawned (cmd w1) = 0).
Proof.
  intros Hns Hrun.
  pose proof (run_Inv sched New w Inv_New Hrun) as HI.
  pose proof (run_InvNS sched New w Hns Inv_New InvNS_New Hrun)
    as [N1 N2 N3 N4 N5].
  split_and!; try assumption.
  - intros e He. rewrite He in N5.
    destruct N5 as [?|[msg E]]; [done|]. simplify_eq. reflexivity.
  - intros i e Hi.
    pose proof (Forall_lookup_1 _ _ _ _ (inv_pcs w HI) Hi) as [Hw He].
    pose proof (inv_tokens w HI) as Ht.
    destruct (started (cmd w)); cbn in Ht; split; done || lia.
  - intros t x. split; [vm_compute; reflexivity|].
    eexists. split; [vm_compute; reflexivity|].
    split_and!; vm_compute; reflexivity.
Qed.

Lemma never_started_close_witness :
  never_started (close_alone 5 quiet) = true
  /\ run New (close_alone 5 quiet) = Some (world_after (close_alone 5 quiet))
  /\ spawned (cmd (world_after (close_alone 5 quiet))) = 0
  /\ Process (cmd (world_after (close_alone 5 quiet))) = false.
Proof.
  assert (H1 : never_started (close_alone 5 quiet) = true) by reflexivity.
  assert (H2 : run New (close_alone 5 quiet)
               = Some (world_after (close_alone 5 quiet)))
    by (vm_compute; reflexivity).
  pose proof (never_started_close _ _ H1 H2) as (H3 & H4 & _).
  split_and!; assumption.
Defined.
End ControllerFacts.
(** ** Command specifications and process descriptions *)

Module ExecFacts.
Import Errors CommandSpec Exec.

(** X1.  Every spec the constructors of the package build has the three
    methods, so [commandCollect] takes its second branch too: the
    environment comes back as the arguments, the arguments given to the
    constructor are dropped, and no environment is collected. *)
Theorem commandCollect_constructors (c : string) (a e : list string) :
  commandCollect (NewCommand c) = (c, [], [])
  /\ commandCollect (NewCommandArgs c a) = (c, [], [])
  /\ commandCollect (NewCommandEnv c e) = (c, e, [])
  /\ commandCollect (NewCommandArgsEnv c a e) = (c, e, []).
Proof. repeat split. Qed.

(** X2.  [WithEnv] keeps the command of every spec, and applied a second
    time it turns the first additions into the arguments: only the last
    additions are the environment of the result. *)
Theorem WithEnv_twice (s : Command) (e1 e2 : list string) :
  Command_ (WithEnv s e1) = Command_ s
  /\ Command_ (WithEnv (WithEnv s e1) e2) = Command_ s
  /\ Args_ (WithEnv (WithEnv s e1) e2) = Some e1
  /\ Environment_ (WithEnv (WithEnv s e1) e2) = Some e2.
Proof.
  unfold WithEnv, commandCollect, asCommandArgs, asCommandEnv.
  destruct (Args_ s), (Environment_ s); repeat split.
Qed.

(** X3.  The process description of [initializeCommand]: the process
    gets exactly the environment of the caller, and the command line is
    the command followed by what [commandCollect] put in the argument
    slot, which for a spec with an environment is that environment.
    The path is the command itself when it names a file with a
    directory; a bare file name is looked up, and the path is what
    [exec.LookPath] found, or the name when it found nothing. *)
Theorem initializeCommand_spec (look : string -> string * option string)
    (environ : list string) (cae : Command) :
  Env (initializeCommand look environ cae) = environ
  /\ Args (initializeCommand look environ cae)
     = Command_ cae :: match Environment_ cae with
                       | Some e => e
                       | None => default [] (Args_ cae)
                       end
  /\ (is_Base (Command_ cae) = false ->
      Path (initializeCommand look environ cae) = Command_ cae
      /\ LookErr (initializeCommand look environ cae) = None)
  /\ (is_Base (Command_ cae) = true ->
      Path (initializeCommand look environ cae)
      = (if String.eqb (look (Command_ cae)).1 "" then Command_ cae
         else (look (Command_ cae)).1)
      /\ LookErr (initializeCommand look environ cae)
         = (look (Command_ cae)).2).
Proof.
  unfold initializeCommand. rewrite CommandSpecFacts.commandCollect_eq.
  unfold CommandContext.
  destruct (is_Base (Command_ cae)); [destruct (look (Command_ cae))|];
    cbn; rewrite ?app_nil_r; split_and!; done.
Qed.

Lemma initializeCommand_spec_witness :
  let look := fun _ : string => ("/bin/ls", None) in
  Path (initializeCommand look ["HOME=/"] (NewCommandArgs "ls" ["-l"]))
  = "/bin/ls"
  /\ Path (initializeCommand look ["HOME=/"] (NewCommandArgs "./ls" ["-l"]))
     = "./ls"
  /\ Env (initializeCommand look ["HOME=/"] (NewCommandArgs "ls" ["-l"]))
     = ["HOME=/"].
Proof.
  pose proof (initializeCommand_spec (fun _ : string => ("/bin/ls", None))
                ["HOME=/"] (NewCommandArgs "ls" ["-l"])) as (H1 & _ & _ & H4).
  pose proof (initializeCommand_spec (fun _ : string => ("/bin/ls", None))
                ["HOME=/"] (NewCommandArgs "./ls" ["-l"])) as (_ & _ & H3 & _).
  split_and!; [exact (proj1 (H4 eq_refl)) | exact (proj1 (H3 eq_refl)) | exact H1].
Defined.

Lemma string_length_app (a b : string) :
  String.length (a ++ b) = String.length a + String.length b.
Proof. induction a as [|x a IH]; cbn; [reflexivity | rewrite IH; reflexivity]. Qed.

Lemma string_app_inv_r (a b s : string) : (a ++ s = b ++ s)%string -> a = b.
Proof.
  revert b. induction a as [|x a IH]; intros [|y b] H; cbn in H.
  - reflexivity.
  - exfalso. apply (f_equal String.length) in H. cbn in H.
    rewrite string_length_app in H. lia.
  - exfalso. apply (f_equal String.length) in H. cbn in H.
    rewrite string_length_app in H. lia.
  - injection H as -> H. f_equal. apply IH, H.
Qed.

(** X4.  [ErrExitCode.Error] prints the code in decimal between
    "exit code(" and ")": two exit codes never share an error text. *)
Theorem ErrExitCode_Error_inj (a b : Z) :
  a <> b -> ErrExitCode_Error a <> ErrExitCode_Error b.
Proof.
  intros Hne H. apply Hne. unfold ErrExitCode_Error in H.
  cbn [append] in H. injection H as H.
  apply string_app_inv_r in H.
  assert (Hp : forall z, NilZero.int_of_string
                           (NilZero.string_of_int (Z.to_int z))
                         = Some (Z.to_int z)).
  { intros z. apply NilZero.isi; destruct z; cbn; try discriminate;
      intros [= E]; exact (Unsigned.to_uint_nonnil _ E). }
  pose proof (Hp a) as Ha. rewrite H, Hp in Ha. injection Ha as Ha.
  rewrite <- (DecimalZ.of_to a), <- (DecimalZ.of_to b), Ha. reflexivity.
Qed.

Lemma ErrExitCode_Error_inj_witness :
  3%Z <> 4%Z /\ ErrExitCode_Error 3 = "exit code(3)"
  /\ ErrExitCode_Error (-1) = "exit code(-1)"
  /\ ErrExitCode_Error 3 <> ErrExitCode_Error 4.
Proof.
  assert (H : 3%Z <> 4%Z) by discriminate.
  split; [exact H|]. split; [reflexivity|]. split; [reflexivity|].
  exact (ErrExitCode_Error_inj 3 4 H).
Defined.

(** X6.  [Run]: the process is described by the command followed by what
    [commandCollect] put in the argument slot, with no environment of
    its own.  The error of the result is nil exactly when the process
    ran, ended with code 0 and its output was copied.  A code other
    than 0 is in the error as an exit-code error, next to the captured
    standard error.  A process that cannot be started gives the code -1,
    the error of the start and the exit-code error of -1, and no
    output. *)
Theorem Run_spec (look : string -> string * option string)
    (proc : ExecCmd -> list byte -> Behaviour)
    (cmd : Command) (stdin : list byte) :
  exists c,
    Args c = Command_ cmd :: match Environment_ cmd with
                             | Some e => e
                             | None => default [] (Args_ cmd)
                             end
    /\ Env c = []
    /\ let b := proc c stdin in
       let o := Run look proc cmd stdin in
       code o = ExitCode (b_ran b)
       /\ (err o = None <-> b_ran b = Ended 0 None)
       /\ (code o <> 0%Z ->
           Err_Is (ErrExitCode (code o)) o = true
           /\ exists w, err o = Some w /\ w_stderr w = stderr o)
       /\ (forall k cf, b_ran b = Ended k cf ->
             stdout o = b_stdout b /\ stderr o = b_stderr b
             /\ (k <> 0%Z -> Err_Is (ExitError k) o = true))
       /\ (forall msg, b_ran b = NotStarted msg ->
             code o = (-1)%Z /\ stdout o = [] /\ stderr o = []
             /\ Err_Is (errorString msg) o = true
             /\ Err_Is (ErrExitCode (-1)) o = true).
Proof.
  unfold Run. rewrite CommandSpecFacts.commandCollect_eq.
  assert (HA : forall a, Args (CommandContext look (Command_ cmd) a)
                         = Command_ cmd :: a).
  { intros a. unfold CommandContext.
    destruct (is_Base _); [destruct (look _)|]; reflexivity. }
  rewrite HA.
  match goal with |- context [proc ?c stdin] => exists c end.
  split; [reflexivity|]. split; [reflexivity|].
  cbn zeta.
  match goal with |- context [proc ?c stdin] => set (b := proc c stdin) end.
  assert (Hor : forall x : bool, x || true = true) by apply orb_true_r.
  destruct (b_ran b) as [msg|k cf] eqn:Hran;
    [cbn | cbn [ExitCode Run_error]; destruct (Z.eqb k 0) eqn:Hk0;
           [apply Z.eqb_eq in Hk0 as ->; destruct cf as [m|]; cbn
           |apply Z.eqb_neq in Hk0; cbn; rewrite ?Z.eqb_refl; cbn]];
    split_and!; try done;
    try (intros _; split; [try done; rewrite ?Z.eqb_refl; done | eauto]);
    try (intros ? [= <-]; rewrite String.eqb_refl; done);
    try (intros ? ? [= <- <-]; rewrite ?Z.eqb_refl; done);
    try (split; [intros HH; discriminate HH | intros [= -> _]; done]).
Qed.
End ExecFacts.

(** ** More on the wire format *)

Module WireMoreFacts.
Import Errors Messages Wire TextWire.

(** The width [utf8.DecodeRune] reports is between 1 and 4 and the
    bytes are there. *)
Lemma DecodeRune_width (s : list byte) (w : nat) :
  UTF8.DecodeRune s = Some w -> 1 <= w <= 4 /\ w <= length s.
Proof.
  unfold UTF8.DecodeRune. intros H.
  repeat case_match; simplify_eq; cbn [length]; lia.
Qed.

(** Only the bytes of the sequence itself decide how it decodes. *)
Lemma DecodeRune_prefix (s t : list byte) (w : nat) :
  UTF8.DecodeRune s = Some w -> UTF8.DecodeRune (take w s ++ t) = Some w.
Proof.
  unfold UTF8.DecodeRune. intros H.
  destruct s as [|b0 [|b1 [|b2 [|b3 r]]]];
    repeat match type of H with
           | context [match ?e with _ => _ end] => destruct e eqn:?
           end; simplify_eq; cbn [take app];
    repeat match goal with
           | E : ?x = _ |- context [?x] => rewrite E
           end; done.
Qed.

Lemma DecodeRune_RuneError (t : list byte) :
  UTF8.DecodeRune (UTF8.RuneError ++ t) = Some 3.
Proof. reflexivity. Qed.

Lemma coerce_length (fuel : nat) : forall s,
  length s <= fuel ->
  length s <= length (UTF8.coerce fuel s) <= 3 * length s.
Proof.
  induction fuel as [|fuel IH]; intros s Hs.
  - destruct s; cbn in *; lia.
  - destruct s as [|b r]; [cbn; lia|]. cbn [UTF8.coerce].
    destruct (UTF8.DecodeRune (b :: r)) as [w|] eqn:Hd.
    + destruct (DecodeRune_width _ _ Hd) as [Hw Hl].
      rewrite length_app, length_take.
      specialize (IH (drop w (b :: r))). rewrite length_drop in IH.
      cbn [length] in *. lia.
    + rewrite length_app. specialize (IH r). cbn [length] in *.
      change (length UTF8.RuneError) with 3. lia.
Qed.

Lemma coerce_is_valid (fuel : nat) : forall s n,
  length (UTF8.coerce fuel s) <= n ->
  UTF8.valid n (UTF8.coerce fuel s) = true.
Proof.
  induction fuel as [|fuel IH]; intros s n Hn.
  - destruct s, n; reflexivity.
  - destruct s as [|b r]; [destruct n; reflexivity|].
    cbn [UTF8.coerce] in *.
    destruct (UTF8.DecodeRune (b :: r)) as [w|] eqn:Hd.
    + destruct (DecodeRune_width _ _ Hd) as [Hw Hl].
      pose proof (DecodeRune_prefix _ (UTF8.coerce fuel (drop w (b :: r))) _ Hd)
        as Hp.
      rewrite length_app, length_take in Hn.
      destruct n as [|n]; [lia|].
      destruct (take w (b :: r) ++ UTF8.coerce fuel (drop w (b :: r)))
        as [|x l] eqn:Hx.
      { reflexivity. }
      cbn [UTF8.valid]. rewrite Hp. rewrite <- Hx.
      rewrite drop_app_length'; [apply IH; lia|].
      rewrite length_take. lia.
    + destruct n as [|n]; [cbn in Hn; lia|].
      change (UTF8.valid (S n) (UTF8.RuneError ++ UTF8.coerce fuel r))
        with (UTF8.valid n (UTF8.coerce fuel r)).
      apply IH. rewrite length_app in Hn.
      change (length UTF8.RuneError) with 3 in Hn. lia.
Qed.

Lemma ToValidUTF8_is_valid (s : list byte) :
  UTF8.Valid (UTF8.ToValidUTF8 s) = true.
Proof. apply coerce_is_valid. reflexivity. Qed.

(** X7.  Whatever the bytes of a payload, one trip through the wire format
    gives well-formed UTF-8, which every further trip gives back
    unchanged; the payload never gets shorter, and at most three times
    as long. *)
Theorem Data_wire_stable (d : list byte) :
  exists d',
    Data_UnmarshalJSON (Data_MarshalJSON d) = Ok d'
    /\ UTF8.Valid d' = true
    /\ Data_UnmarshalJSON (Data_MarshalJSON d') = Ok d'
    /\ length d <= length d' <= 3 * length d.
Proof.
  exists (UTF8.ToValidUTF8 d).
  pose proof (ToValidUTF8_is_valid d) as Hv.
  split_and!.
  - unfold Data_UnmarshalJSON, Data_MarshalJSON, Marshal_string,
      Unmarshal_string. cbn.
    rewrite (WireFacts.ToValidUTF8_valid _ Hv). reflexivity.
  - exact Hv.
  - apply WireFacts.Data_same, Hv.
  - apply coerce_length. reflexivity.
  - apply coerce_length. reflexivity.
Qed.

(** X8.  [JSONString.UnmarshalJSON] accepts the JSON strings that read as
    the tag of its type and nothing else: a null, a number, an object
    or another string is refused. *)
Theorem JSONString_accepts (K : kind) (j : json) :
  JSONString_UnmarshalJSON K j = Ok tt
  <-> exists s, j = JString s /\ UTF8.ToValidUTF8 s = JSONString_String K.
Proof.
  unfold JSONString_UnmarshalJSON, Unmarshal_string. split.
  - destruct j as [|s|n|t|fs]; cbn [bind]; try discriminate.
    + case_bool_decide as H; [discriminate|]. intros _.
      exfalso. destruct K; discriminate H.
    + case_bool_decide as H; [discriminate|]. intros _.
      exists s. split; [reflexivity | exact H].
    + case_bool_decide as H; [discriminate|]. intros _.
      exfalso. exact (WireFacts.RFC3339_no_tag t K H).
  - intros (s & -> & Hs). cbn [bind]. rewrite Hs.
    rewrite bool_decide_eq_false_2; [reflexivity|]. intros H. apply H. reflexivity.
Qed.

#[local] Opaque JSONString_UnmarshalJSON JSONString_MarshalJSON
  Data_UnmarshalJSON Data_MarshalJSON Time_MarshalJSON Time_UnmarshalJSON.

Ltac eval_keys :=
  repeat match goal with
         | |- context [key_is ?a ?b] =>
             let v := eval vm_compute in (key_is a b) in
             change (key_is a b) with v
         end.

Ltac decode_text :=
  unfold round_trip, Unmarshal_TextInput, Marshal_TextInput, Unmarshal,
    Marshal, Unmarshal_StartMessage, Unmarshal_ExitMessage,
    Unmarshal_stdioMessage, Marshal_StartMessage, Marshal_ExitMessage,
    Marshal_stdioMessage, decode_struct, BaseMessage_fields;
  repeat (progress
            (unfold TextInput_member, StartMessage_member,
               ExitMessage_member, stdioMessage_member, BaseMessage_member;
             eval_keys;
             cbn [app decode_object bind by_method plain lift
                  text_BaseMessage text_Data start_BaseMessage
                  exit_BaseMessage stdio_BaseMessage Code Data Time_
                  zeroBase stdio_kind msg_time])).



(** A member that matches no field is skipped. *)
Lemma decode_object_unknown {S : Type}
    (member : string -> json -> S -> option (outcome S))
    (fields : list (string * json)) (v : S) (saved : option error) :
  (forall k j v, known_member k = false -> member k j v = None) ->
  Forall (fun kj => known_member kj.1 = false) fields ->
  decode_object member fields v saved
  = match saved with Some e => Err e | None => Ok v end.
Proof.
  intros Hm Hf. induction Hf as [|[k j] l Hk _ IH]; [reflexivity|].
  cbn [decode_object]. rewrite (Hm k j v Hk). exact IH.
Qed.

(** X10.  A member whose key matches no field, also when the case of
    the letters is folded, is skipped, and a tag that is not in the
    document is not checked: an object without any member that matches
    time, kind, stdio, code or data decodes without error into the zero
    value of every variant. *)
Theorem Unmarshal_without_tag (v : Variant) (fields : list (string * json)) :
  Forall (fun kj => known_member kj.1 = false) fields ->
  Unmarshal v (JObject fields) = Ok (zero_of v).
Proof.
  intros Hf.
  assert (Hb : forall K k j (b : BaseMessage K),
             known_member k = false -> BaseMessage_member K k j b = None).
  { intros K k j b Hk. unfold BaseMessage_member, known_member in *.
    destruct (key_is "time" k); [discriminate|].
    destruct (key_is "kind" k); [discriminate|]. reflexivity. }
  destruct v as [| |T]; unfold Unmarshal, Unmarshal_StartMessage,
    Unmarshal_ExitMessage, Unmarshal_stdioMessage, decode_struct;
    rewrite decode_object_unknown; try exact Hf; try reflexivity;
    intros k j m Hk.
  - unfold StartMessage_member. rewrite Hb by exact Hk. reflexivity.
  - unfold ExitMessage_member. rewrite Hb by exact Hk.
    unfold known_member in Hk.
    destruct (key_is "code" k); [|reflexivity].
    rewrite !orb_true_r in Hk. discriminate.
  - unfold stdioMessage_member. rewrite Hb by exact Hk.
    unfold known_member in Hk.
    destruct (key_is "stdio" k); [rewrite ?orb_true_r in Hk; discriminate|].
    destruct (key_is "data" k); [rewrite ?orb_true_r in Hk; discriminate|].
    reflexivity.
Qed.

Lemma Unmarshal_without_tag_witness :
  Forall (fun kj => known_member kj.1 = false) [("pid", JNumber 7)]
  /\ Unmarshal VExit (JObject [("pid", JNumber 7)]) = Ok (zero_of VExit)
  /\ Unmarshal VStart (JObject []) = Ok (zero_of VStart).
Proof.
  assert (H : Forall (fun kj => known_member kj.1 = false) [("pid", JNumber 7)]).
  { apply Forall_cons. split; [reflexivity | by apply Forall_nil]. }
  split; [exact H|]. split.
  - exact (Unmarshal_without_tag VExit _ H).
  - exact (Unmarshal_without_tag VStart [] (Forall_nil_2 _)).
Defined.

(** A key that differs from the name of a field in the case of its
    letters only belongs to that field: the code is set, the tag is
    checked. *)
Example Unmarshal_folded_keys :
  known_member "Code" = true
  /\ Unmarshal VExit (JObject [("Code", JNumber 7)])
     = Ok (MExit {| exit_BaseMessage := zeroBase exit; Code := 7 |})
  /\ is_FormatError
       (Unmarshal VStart (JObject [("KIND", JString (list_byte_of_string "exit"))]))
     = true
  /\ Unmarshal VExit (JObject [("code", JString []); ("time", JNull)])
     = Err UnmarshalTypeError.
Proof. split_and!; vm_compute; reflexivity. Qed.
End WireMoreFacts.
(** ** Lines of input through the pump *)

Module LinesFacts.
Import Errors Controller Props Lines.

Lemma pipeInput_lines (t : Messages.Time) (lines : list (list byte)) :
  forall cur c,
    ctx c = None ->
    drop cur (Flow.items (in_ c)) = map Messages.NewInputln lines ->
    let r := pipeInput (whole_lines t lines) cur c in
    written (stdin r.1.1)
    = written (stdin c) ++ map (fun d => d ++ [newline]) lines
    /\ out r.1.1
       = publish (map (fun d => Messages.NewStdioMessage Messages.StdinMessage t
                                  (d ++ [newline])) lines) (out c)
    /\ r.1.2 = cur + length lines
    /\ r.2 = None
    /\ waitErr r.1.1 = waitErr c.
Proof.
  induction lines as [|d lines IH]; intros cur c Hctx Hdrop.
  - cbn. rewrite app_nil_r. split_and!; try done; lia.
  - cbn [whole_lines map pipeInput]. fold (whole_lines t lines).
    assert (Hd : Flow.items (in_ c) !! cur = Some (Messages.NewInputln d)).
    { rewrite <- (Nat.add_0_r cur), <- lookup_drop, Hdrop. reflexivity. }
    assert (Htl : drop (S cur) (Flow.items (in_ c))
                  = map Messages.NewInputln lines).
    { rewrite (drop_S _ _ _ Hd) in Hdrop. cbn in Hdrop. congruence. }
    assert (Htake : take (S (length d)) (d ++ [newline]) = d ++ [newline]).
    { apply take_ge. rewrite length_app. cbn. lia. }
    unfold pipeInput_iter, Flow.recv. rewrite Hctx, Hd.
    cbn [write_fail write_n accept now Messages.Input_ Messages.NewInputln
         Messages.newTextInput Messages.text_Data Messages.Clone].
    unfold Messages.Clone.
    change ["010"%byte] with [newline]. rewrite Htake.
    assert (Hle : Nat.leb (S (length d)) (length (d ++ [newline])) = true).
    { apply Nat.leb_le. rewrite length_app. cbn. lia. }
    rewrite Hle.
    match goal with
    | |- context [pipeInput _ (S cur) ?c1] =>
        specialize (IH (S cur) c1 Hctx Htl)
    end.
    cbn zeta in IH. destruct IH as (I1 & I2 & I3 & I4 & I5).
    cbn zeta. rewrite I1, I2, I3, I4, I5. cbn.
    rewrite <- app_assoc. split_and!; try done; lia.
Qed.

Lemma concat_singletons (lines : list (list byte)) :
  concat (map (fun d => [Messages.NewInputln d]) lines)
  = map Messages.NewInputln lines.
Proof. induction lines as [|d l IH]; cbn; [done | rewrite IH; done]. Qed.


End LinesFacts.
(** ** The controller: the stream, the pipe and the shutdown *)

Module ShutdownFacts.
Import Errors Controller Props Props2 ControllerFacts.

Lemma mono_refl (c : Cmd) : mono c c.
Proof. unfold mono. split_and!; done || lia. Qed.

Lemma out_step_Push (s : Flow.Stream Messages.Message) (m : Messages.Message) :
  is_exit m = false ->
  (if Messages.is_Start m then Flow.items s = [] else Flow.items s <> []) ->
  out_step s (Flow.Push s [m]).
Proof.
  intros Hm Hs. unfold out_step, Flow.Push.
  destruct (Flow.closed s) eqn:Hc; [left; done|].
  right; left. cbn. split_and!; try done. exists m. done.
Qed.

Lemma out_step_Close (s : Flow.Stream Messages.Message) :
  out_step s (Flow.Close s []).
Proof.
  unfold out_step, Flow.Close.
  destruct (Flow.closed s) eqn:Hc; [left; done|].
  right; right; left. cbn. rewrite app_nil_r. done.
Qed.

Lemma out_step_Exit (s : Flow.Stream Messages.Message) (t : Messages.Time)
    (code : Z) :
  Flow.items s <> [] ->
  out_step s (Flow.Close s [Messages.NewExitMessage t code]).
Proof.
  intros Hs. unfold out_step, Flow.Close.
  destruct (Flow.closed s) eqn:Hc; [left; done|].
  right; right; right. cbn. split_and!; try done. eexists. done.
Qed.

Lemma out_step_items (s s' : Flow.Stream Messages.Message) :
  out_step s s' ->
  (Flow.items s <> [] -> Flow.items s' <> [])
  /\ (Flow.closed s = true -> s' = s)
  /\ (Flow.closed s = true -> Flow.closed s' = true).
Proof.
  intros [->|[(Hc & Hc' & m & Hi & _)|[(Hc & Hc' & Hi)|(Hc & Hc' & _ & m & Hi & _)]]];
    split_and!; try done; try congruence;
    intros _; rewrite Hi; try done; by destruct (Flow.items s).
Qed.

Lemma out_step_start_first (s s' : Flow.Stream Messages.Message) :
  out_step s s' -> start_first (Flow.items s) -> start_first (Flow.items s').
Proof.
  intros [->|[(Hc & Hc' & m & Hi & Hm & Hs)|[(Hc & Hc' & Hi)|(Hc & Hc' & Hne & m & Hi & Hm)]]] H;
    try done; rewrite Hi; try done.
  - destruct (Messages.is_Start m) eqn:Hst.
    + rewrite Hs. cbn. split; [done | by apply Forall_nil].
    + destruct (Flow.items s) as [|m0 l]; [done|]. cbn in *.
      destruct H as [H0 Hl]. split; [done|].
      apply Forall_app. split; [done|]. apply Forall_cons. split; [done|].
      by apply Forall_nil.
  - destruct (Flow.items s) as [|m0 l]; [done|]. cbn in *.
    destruct H as [H0 Hl]. split; [done|].
    apply Forall_app. split; [done|]. apply Forall_cons.
    split; [by destruct m | by apply Forall_nil].
Qed.

Lemma exit_last_open (s : Flow.Stream Messages.Message) :
  exit_last s -> Flow.closed s = false ->
  Forall (fun m => is_exit m = false) (Flow.items s).
Proof. intros [H|[Hc _]] Ho; [done | congruence]. Qed.

Lemma out_step_exit_last (s s' : Flow.Stream Messages.Message) :
  out_step s s' -> exit_last s -> exit_last s'.
Proof.
  intros [->|[(Hc & Hc' & m & Hi & Hm & Hs)|[(Hc & Hc' & Hi)|(Hc & Hc' & Hne & m & Hi & Hm)]]] H;
    try done; pose proof (exit_last_open s H Hc) as Ho; unfold exit_last.
  - left. rewrite Hi. apply Forall_app. split; [done|].
    apply Forall_cons. split; [done | by apply Forall_nil].
  - left. rewrite Hi. done.
  - right. split; [done|]. exists (Flow.items s), m. done.
Qed.

Lemma Close_closed {T} (s : Flow.Stream T) (xs : list T) :
  Flow.closed (Flow.Close s xs) = true.
Proof. unfold Flow.Close. destruct (Flow.closed s) eqn:E; done. Qed.

Lemma Close_items {T} (s : Flow.Stream T) (xs : list T) :
  Flow.items s <> [] -> Flow.items (Flow.Close s xs) <> [].
Proof.
  unfold Flow.Close. destruct (Flow.closed s); [done|].
  cbn. by destruct (Flow.items s).
Qed.

Lemma Push_items {T} (s : Flow.Stream T) (x : T) :
  Flow.closed s = false \/ Flow.items s <> [] ->
  Flow.items (Flow.Push s [x]) <> [].
Proof.
  unfold Flow.Push. intros [H|H].
  - rewrite H. cbn. by destruct (Flow.items s).
  - destruct (Flow.closed s); [done|]. cbn. by destruct (Flow.items s).
Qed.

(** One turn of the pump: what it leaves alone and what it does to the
    output stream. *)
Lemma pipeInput_iter_frame2 (x : Ext) (cur : nat) (c : Cmd) :
  match pipeInput_iter x cur c with
  | Continue c' | Return c' _ =>
      closes (stdin c') = closes (stdin c) /\ stop c' = stop c
      /\ running c' = running c
      /\ (out c' = out c
          \/ exists m, out c' = Flow.Push (out c) [m]
                       /\ is_exit m = false /\ Messages.is_Start m = false)
  | Block => True
  end.
Proof.
  unfold pipeInput_iter.
  destruct (ctx c); [split_and!; try done; left; done|].
  destruct (Flow.recv (in_ c) cur); [|split_and!; try done; left; done|done].
  destruct (write_fail x); [|destruct (Nat.leb _ _)]; cbn;
    split_and!; try done; right; eexists; done.
Qed.

Ltac ok2_goal :=
  first
    [ done
    | lia
    | congruence
    | apply Close_closed
    | apply Close_items; done
    | apply Push_items; left; done
    | apply Push_items; right; done
    | apply out_step_Close
    | apply out_step_Exit; done
    | apply out_step_Push; [done | cbn; done]
    | left; done
    | right; left; done
    | right; split; done
    | intros _; right; done
    | by destruct (Flow.items _)
    | intros; simplify_eq; done ].

Lemma thread_step_ok2 (x : Ext) (p p' : pc) (c c' : Cmd) (new : list pc) :
  thread_step x p c = Some (c', p', new) ->
  pc_ok c p -> pc_ok2 c p ->
  (started c = false -> Flow.items (out c) = []) ->
  (holder p = 1 -> killOnce c = Running) ->
  pc_ok2 c' p' /\ Forall (pc_ok2 c') new
  /\ out_step (out c) (out c')
  /\ mono c c'
  /\ (running c' = true -> running c = true \/ Flow.items (out c) <> [])
  /\ (wait c' = wait c
      \/ (Flow.closed (out c) = true /\ 1 <= closes (stdin c)))
  /\ closes (stdin c') + pipe_closer p' + sum_list_with pipe_closer new
     + b2n (started c) + runner p
     = closes (stdin c) + pipe_closer p + b2n (started c') + runner p'
       + sum_list_with runner new
  /\ holder p' + sum_list_with holder new + held (killOnce c)
     = holder p + held (killOnce c')
  /\ (Flow.items (out c') = Flow.items (out c) \/ closer p = 1
      \/ Flow.items (out c) <> []).
Proof.
  intros H Hp Hp2 Hcr Hho. unfold mono in *.
  destruct p; try discriminate.
  all: try (step_cases H; use_hyps; unfold final_exit, cancelled in *;
            destruct_and?; split_and!;
            repeat (first [apply Forall_nil | apply Forall_cons; split]);
            cbn; unfold cancelled; split_and?; ok2_goal).
  (* the pump *)
  cbn in H, Hp2.
  match type of H with
  | context [pipeInput_iter ?x ?cur ?c] =>
      pose proof (pipeInput_iter_frame x cur c) as Hf;
      pose proof (pipeInput_iter_frame2 x cur c) as Hg;
      destruct (pipeInput_iter x cur c)
  end; simplify_eq;
    destruct Hf as (F1 & F2 & _ & F4 & _ & _ & _ & F8 & _);
    destruct Hg as (G1 & G2 & G3 & G4);
    rewrite F1, F2, F4, F8, G1, G2, G3;
    (assert (Hout : out_step (out c) (out c')
                    /\ Flow.items (out c') <> []);
     [destruct G4 as [->|(m & -> & Hm1 & Hm2)];
      [split; [left; done | done]
      |split; [apply out_step_Push; [done | rewrite Hm2; done]
              |apply Push_items; right; done]]
     |]);
    destruct Hout as [Ho1 Ho2]; cbn;
    split_and!; try done; try lia; try (left; done);
    try (by apply Forall_nil); right; right; done.
Qed.

Lemma stable_ok2 (c c' : Cmd) (q : pc) :
  mono c c' -> out_step (out c) (out c') ->
  (q = Run_push_start -> Flow.items (out c') = Flow.items (out c)) ->
  pc_ok2 c q -> pc_ok2 c' q.
Proof.
  intros (M1 & M2 & M3 & M4 & M5) Ho Hi Hq.
  destruct (out_step_items _ _ Ho) as (O1 & _ & O3).
  destruct q; cbn in *; unfold cancelled in *; destruct_and?;
    split_and?; eauto; try lia.
  rewrite Hi; done.
Qed.

Lemma stable_ok2' (c c' : Cmd) (q : pc) :
  mono c c' -> out_step (out c) (out c') ->
  (Flow.items (out c') = Flow.items (out c) \/ Flow.items (out c) <> []) ->
  pc_ok2 c q -> pc_ok2 c' q.
Proof.
  intros Hm Ho Hi Hq. eapply stable_ok2; try eassumption.
  intros ->. cbn in Hq. destruct Hq as [_ Hq]. destruct Hi as [Hi|Hi]; done.
Qed.

Lemma Inv2_New : Inv2 New.
Proof.
  split; cbn; try done; try lia.
  left. by apply Forall_nil.
Qed.

Lemma Inv2_extend (w : World) (c' : Cmd) (new : list pc) :
  Inv2 w -> mono (cmd w) c' -> out_step (out (cmd w)) (out c') ->
  (Flow.items (out c') = Flow.items (out (cmd w))
   \/ Flow.items (out (cmd w)) <> []) ->
  started c' = started (cmd w) -> running c' = running (cmd w) ->
  wait c' = wait (cmd w) -> closes (stdin c') = closes (stdin (cmd w)) ->
  killOnce c' = killOnce (cmd w) ->
  Forall (fun p => pipe_closer p = 0 /\ holder p = 0 /\ runner p = 0
                   /\ pc_ok2 c' p) new ->
  Inv2 {| cmd := c'; threads := threads w ++ new |}.
Proof.
  intros [J1 J2 J3 J4 J5 J6 J7 J8] Hm Ho Hi Hs Hr Hw Hc Hk Hnew.
  assert (Hsum : forall f, Forall (fun p => f p = 0) new ->
                           sum_list_with f (threads w ++ new)
                           = sum_list_with f (threads w)).
  { intros f Hz. rewrite sum_list_with_app, (sum_zero f new Hz). lia. }
  destruct (out_step_items _ _ Ho) as (O1 & O2 & O3).
  unfold count in *.
  split; unfold count; cbn [cmd threads].
  - apply Forall_app. split.
    + eapply Forall_impl; [exact J1|]. intros q. by apply stable_ok2'.
    + eapply Forall_impl; [exact Hnew|]. intros ? (?&?&?&?). done.
  - rewrite Hs. intros Hst. destruct Hi as [->|Hi]; [auto|].
    specialize (J2 Hst). done.
  - rewrite Hr. auto.
  - by eapply out_step_start_first.
  - by eapply out_step_exit_last.
  - rewrite Hw, Hc. intros H1. destruct (J6 H1). split; [auto | done].
  - rewrite !Hsum, Hc, Hs; [done| |];
      (eapply Forall_impl; [exact Hnew|]; intros ? (?&?&?&?); done).
  - rewrite Hsum, Hk; [done|].
    eapply Forall_impl; [exact Hnew|]. intros ? (?&?&?&?). done.
Qed.

Lemma step_Inv2 (w w' : World) (a : action) :
  Inv w -> Inv2 w -> step w a = Some w' -> Inv2 w'.
Proof.
  intros HI HJ H. unfold step in H.
  destruct (negb (alive w)); [discriminate|].
  destruct a as [tid x| |t|inputs|e|K t b].
  - destruct (threads w !! tid) as [p|] eqn:Hp; [|discriminate].
    destruct (thread_step x p (cmd w)) as [[[c' p'] new]|] eqn:Hs;
      [|discriminate].
    simplify_eq.
    pose proof (Forall_lookup_1 _ _ _ _ (inv_pcs w HI) Hp) as Hpok.
    pose proof (Forall_lookup_1 _ _ _ _ (i2_pcs w HJ) Hp) as Hpok2.
    assert (Hex : closer p = 1 ->
                  wait (cmd w) = 0 /\ started (cmd w) = true
                  /\ forall j q, j <> tid -> threads w !! j = Some q ->
                                 closer q = 0)
      by (apply exclusive; assumption).
    assert (Hho : holder p = 1 -> killOnce (cmd w) = Running).
    { intros E. pose proof (i2_once w HJ) as Ho. unfold count in Ho.
      pose proof (sum_lookup holder _ _ _ Hp).
      destruct (killOnce (cmd w)); cbn in Ho; done || lia. }
    destruct (thread_step_ok2 _ _ _ _ _ _ Hs Hpok Hpok2 (i2_created w HJ) Hho)
      as (O1 & O2 & O3 & O4 & O5 & O6 & O7 & O8 & O9).
    assert (Hsum : forall f,
              sum_list_with f (<[tid := p']> (threads w) ++ new) + f p
              = sum_list_with f (threads w) + f p' + sum_list_with f new).
    { intros f. rewrite sum_list_with_app.
      pose proof (sum_insert f _ _ _ p' Hp). lia. }
    destruct (out_step_items _ _ O3) as (S1 & S2 & S3).
    pose proof O4 as (M1 & M2 & M3 & M4 & M5).
    destruct HJ as [J1 J2 J3 J4 J5 J6 J7 J8]. unfold count in *.
    split; unfold count; cbn [cmd threads].
    + apply Forall_app. split; [|exact O2].
      apply Forall_lookup. intros j q Hj.
      destruct (decide (j = tid)) as [->|Hne].
      * rewrite list_lookup_insert_eq in Hj
          by (eapply lookup_lt_Some; exact Hp).
        simplify_eq. exact O1.
      * rewrite list_lookup_insert_ne in Hj by done.
        pose proof (Forall_lookup_1 _ _ _ _ J1 Hj) as Hq.
        destruct O9 as [E|[E|E]].
        -- eapply stable_ok2'; [exact O4 | exact O3 | left; exact E | exact Hq].
        -- destruct (Hex E) as (_ & _ & Hothers).
           pose proof (Hothers j q Hne Hj) as Hq0.
           eapply stable_ok2; [exact O4 | exact O3 | | exact Hq].
           intros ->. discriminate Hq0.
        -- eapply stable_ok2'; [exact O4 | exact O3 | right; exact E | exact Hq].
    + intros Hst.
      assert (Hst0 : started (cmd w) = false).
      { destruct (started (cmd w)); [|done]. rewrite M3 in Hst; done. }
      destruct O9 as [E|[E|E]].
      * rewrite E. auto.
      * destruct (Hex E) as (_ & Hst' & _). congruence.
      * specialize (J2 Hst0). done.
    + intros Hr. destruct (O5 Hr) as [E|E]; auto.
    + by eapply out_step_start_first.
    + by eapply out_step_exit_last.
    + intros Hw. destruct O6 as [E|[E1 E2]].
      * rewrite E in Hw. destruct (J6 Hw). split; [auto | lia].
      * split; [auto | lia].
    + pose proof (Hsum pipe_closer). pose proof (Hsum runner). lia.
    + pose proof (Hsum holder). lia.
  - simplify_eq. apply Inv2_extend; try done;
      try apply mono_refl; try (left; done).
    apply Forall_cons. split; [done | by apply Forall_nil].
  - simplify_eq. apply Inv2_extend; try done;
      try apply mono_refl; try (left; done).
    apply Forall_cons. split; [done | by apply Forall_nil].
  - simplify_eq. rewrite <- (app_nil_r (threads w)).
    apply Inv2_extend; try done; try apply mono_refl; try (left; done).
  - unfold cancel in H.
    destruct (ctx (cmd w)) as [e0|] eqn:He; [|destruct (stop (cmd w)) eqn:Hst];
      simplify_eq; cbn.
    all: apply Inv2_extend; try done; try (left; done);
      try apply mono_refl;
      try (unfold mono; cbn; rewrite ?Hst, ?He; split_and!; done || lia);
      try (apply Forall_cons; split; [done | by apply Forall_nil]).
  - destruct (running (cmd w)) eqn:Hrun; [|discriminate]. simplify_eq.
    rewrite <- (app_nil_r (threads w)).
    pose proof (i2_running w HJ Hrun) as Hne.
    unfold kindWriter_Write.
    destruct (ctx (cmd w)) as [e0|] eqn:He; cbn.
    + apply Inv2_extend; try done; try apply mono_refl; left; done.
    + apply Inv2_extend; try done;
        try (unfold mono; cbn; rewrite ?He; split_and!; done || lia);
        try (right; done).
      cbn. apply out_step_Push; [by destruct K | by destruct K].
Qed.

Lemma run_Inv2 (sched : list action) : forall w w',
  Inv w -> Inv2 w -> run w sched = Some w' -> Inv2 w'.
Proof.
  induction sched as [|a sched IH]; intros w w' HI HJ H; cbn in H.
  - simplify_eq. exact HJ.
  - destruct (step w a) as [w1|] eqn:Hs; [|discriminate].
    eapply IH; [| |exact H]; [eapply step_Inv | eapply step_Inv2]; eassumption.
Qed.

Lemma reachable_Inv2 (w : World) : reachable w -> Inv2 w.
Proof.
  intros [sched H]. eapply run_Inv2; [apply Inv_New | apply Inv2_New | exact H].
Qed.

(** *** Shutdowns without a timeout *)

Lemma thread_step_NT (x : Ext) (p p' : pc) (c c' : Cmd) (new : list pc) :
  thread_step x p c = Some (c', p', new) ->
  pc_no_timeout p -> (closer p = 1 -> wait c = 0) ->
  panic c = None -> killed c = 0 ->
  pc_no_timeout p' /\ Forall pc_no_timeout new
  /\ panic c' = None /\ killed c' = 0.
Proof.
  intros H Hp Hw Hpa Hk. destruct p; try discriminate; try done.
  all: try solve
    [step_cases H; cbn in *; try (specialize (Hw eq_refl)); try lia;
     split_and!; try done; try lia;
     try (by apply Forall_nil);
     try (apply Forall_cons; split; [done | by apply Forall_nil])].
  cbn in H.
  match type of H with
  | context [pipeInput_iter ?x ?cur ?c] =>
      pose proof (pipeInput_iter_frame x cur c) as Hf;
      destruct (pipeInput_iter x cur c)
  end; simplify_eq;
    destruct Hf as (_ & _ & _ & _ & Hf1 & _ & _ & _ & Hf2 & _); cbn;
    split_and!; try done; try congruence; by apply Forall_nil.
Qed.

Lemma step_InvNT (w w' : World) (a : action) :
  Inv w -> InvNT w ->
  match a with CallClose t => (t <= 0)%Z | _ => True end ->
  step w a = Some w' -> InvNT w'.
Proof.
  intros HI [N1 N2 N3] Ha H. unfold step in H.
  destruct (negb (alive w)); [discriminate|].
  destruct a as [tid x| |t|inputs|e|K t b].
  - destruct (threads w !! tid) as [p|] eqn:Hp; [|discriminate].
    destruct (thread_step x p (cmd w)) as [[[c' p'] new]|] eqn:Hs;
      [|discriminate].
    simplify_eq.
    assert (Hw : closer p = 1 -> wait (cmd w) = 0).
    { intros E. by destruct (exclusive w tid p HI Hp E). }
    destruct (thread_step_NT _ _ _ _ _ _ Hs
                (Forall_lookup_1 _ _ _ _ N1 Hp) Hw N2 N3)
      as (S1 & S2 & S3 & S4).
    split; cbn [cmd threads]; try done.
    apply Forall_app. split; [|exact S2].
    apply Forall_insert; assumption.
  - simplify_eq. split; cbn [cmd threads]; try done.
    apply Forall_app. split; [done|].
    apply Forall_cons; split; [done | by apply Forall_nil].
  - simplify_eq. split; cbn [cmd threads]; try done.
    apply Forall_app. split; [done|].
    apply Forall_cons; split; [done | by apply Forall_nil].
  - simplify_eq. split; done.
  - unfold cancel in H.
    destruct (ctx (cmd w)); [|destruct (stop (cmd w))]; simplify_eq;
      split; cbn [cmd threads]; try done;
      apply Forall_app; (split; [done|]);
      try (by apply Forall_nil);
      apply Forall_cons; split; [done | by apply Forall_nil].
  - destruct (running (cmd w)); [|discriminate]. simplify_eq.
    unfold kindWriter_Write. destruct (ctx (cmd w)); split; done.
Qed.

Lemma run_InvNT (sched : list action) : forall w w',
  no_timeout sched = true -> Inv w -> InvNT w ->
  run w sched = Some w' -> InvNT w'.
Proof.
  induction sched as [|a sched IH]; intros w w' Hnt HI HN H; cbn in H.
  - simplify_eq. exact HN.
  - destruct (step w a) as [w1|] eqn:Hs; [|discriminate].
    cbn in Hnt. apply andb_prop in Hnt as [Ha Hnt].
    eapply IH; [exact Hnt | eapply step_Inv; eassumption | | exact H].
    eapply step_InvNT; [exact HI | exact HN | | exact Hs].
    destruct a; try done. by apply Z.leb_le.
Qed.

Lemma InvNT_New : InvNT New.
Proof. split; cbn; done. Qed.

Lemma In_lookup (p : pc) (l : list pc) :
  In p l -> exists i, l !! i = Some p.
Proof.
  induction l as [|a l IH]; cbn; [done|]. intros [->|H].
  - by exists 0.
  - destruct (IH H) as [i Hi]. by exists (S i).
Qed.

Lemma step_thread (w : World) (tid : nat) (x : Ext) (p : pc) :
  alive w = true -> threads w !! tid = Some p ->
  thread_step x p (cmd w) <> None -> can_step w.
Proof.
  intros Ha Hp Hs. unfold can_step, step. exists tid, x.
  rewrite Ha, Hp. cbn.
  destruct (thread_step x p (cmd w)) as [[[c' p'] new]|]; [|done].
  eauto.
Qed.

(** X12.  The stream from its first message to its last: the output stream of
    a reachable controller begins with its only Start message, and an
    Exit message, if there is one, is the last message and the stream
    was ended with it. *)
Theorem out_stream_shape (w : World) :
  reachable w ->
  start_first (Flow.items (out (cmd w))) /\ exit_last (out (cmd w)).
Proof.
  intros Hr. pose proof (reachable_Inv2 w Hr) as HJ.
  split; [exact (i2_start w HJ) | exact (i2_exit w HJ)].
Qed.

Lemma out_stream_shape_witness :
  start_first (Flow.items (out (cmd (world_after shutdown_run))))
  /\ exit_last (out (cmd (world_after shutdown_run))).
Proof.
  apply (out_stream_shape (world_after shutdown_run)).
  exists shutdown_run. vm_compute. reflexivity.
Defined.

(** X13.  Once [runCmd] has returned with the exit code [code], the
    output stream is a Start message, then messages that are neither
    Start nor Exit, then an Exit message whose code is [code], and the
    stream is ended. *)
Theorem finished_run_stream (w : World) (err : option error) (code : Z)
    (cerr : option error) :
  reachable w -> In (Run_done err code cerr) (threads w) ->
  exists m0 body mx,
    Flow.items (out (cmd w)) = m0 :: body ++ [Messages.MExit mx]
    /\ Messages.Code mx = code
    /\ Messages.is_Start m0 = true
    /\ Forall (fun m => Messages.is_Start m = false /\ is_exit m = false) body
    /\ Flow.closed (out (cmd w)) = true.
Proof.
  intros Hr Hin. pose proof (reachable_Inv2 w Hr) as HJ.
  pose proof (reachable_Inv w Hr) as HI.
  destruct (In_lookup _ _ Hin) as (i & Hi).
  pose proof (Forall_lookup_1 _ _ _ _ (inv_pcs w HI) Hi) as Hp.
  cbn in Hp. destruct Hp as (_ & _ & _ & (Hcl & mx & Hlast & Hmx) & _).
  destruct mx as [|mx|]; try discriminate Hmx.
  cbn in Hmx. apply Z.eqb_eq in Hmx.
  pose proof (i2_start w HJ) as Hs. pose proof (i2_exit w HJ) as He.
  destruct He as [He|(_ & body & m & Hitems & Hbody & Hm)].
  { apply last_Some in Hlast as (l' & Hl'). rewrite Hl' in He.
    apply Forall_app in He as [_ He]. apply Forall_cons in He as [He _].
    discriminate He. }
  rewrite Hitems in Hlast, Hs. rewrite last_snoc in Hlast. simplify_eq.
  destruct body as [|m0 body]; cbn in Hs; [destruct Hs as [Hs _]; done|].
  destruct Hs as [Hs0 Hs]. apply Forall_app in Hs as [Hs _].
  exists m0, body, mx. rewrite Hitems. split_and!; try done.
  apply Forall_cons in Hbody as [_ Hbody].
  apply Forall_forall. intros m Hmem.
  split; [exact (proj1 (Forall_forall _ _) Hs m Hmem)
         | exact (proj1 (Forall_forall _ _) Hbody m Hmem)].
Qed.

Lemma finished_run_stream_witness :
  exists m0 body mx,
    Flow.items (out (cmd (world_after shutdown_run)))
    = m0 :: body ++ [Messages.MExit mx]
    /\ Messages.Code mx = 3%Z
    /\ Messages.is_Start m0 = true
    /\ Forall (fun m => Messages.is_Start m = false /\ is_exit m = false) body
    /\ Flow.closed (out (cmd (world_after shutdown_run))) = true.
Proof.
  apply (finished_run_stream (world_after shutdown_run)
           (Some (ExitError 3)) 3 None).
  - exists shutdown_run. vm_compute. reflexivity.
  - vm_compute. right. left. reflexivity.
Defined.

(** X14.  When [Done()] is closed, the controller was started or closed, its
    output stream is ended and its pipe to the process was closed. *)
Theorem Done_means_released (w : World) :
  reachable w -> 1 <= wait (cmd w) ->
  started (cmd w) = true
  /\ Flow.closed (out (cmd w)) = true
  /\ 1 <= closes (stdin (cmd w)).
Proof.
  intros Hr Hw. pose proof (reachable_Inv2 w Hr) as HJ.
  pose proof (reachable_Inv w Hr) as HI.
  destruct (i2_done w HJ Hw) as [H1 H2].
  pose proof (inv_tokens w HI) as Ht.
  destruct (started (cmd w)); cbn in Ht; [done | lia].
Qed.

Lemma Done_means_released_witness :
  started (cmd (world_after started_run)) = true
  /\ Flow.closed (out (cmd (world_after started_run))) = true
  /\ 1 <= closes (stdin (cmd (world_after started_run))).
Proof.
  apply (Done_means_released (world_after started_run)).
  - exists started_run. vm_compute. reflexivity.
  - vm_compute. lia.
Defined.

(** X15.  When a call of [CloseTimeout] has returned, the context is
    cancelled, the watcher of the context is no longer armed, the
    output stream is ended and the pipe to the process was closed. *)
Theorem CloseTimeout_returns_released (w : World) (e : option error) :
  reachable w -> In (Returned e) (threads w) ->
  ctx (cmd w) <> None /\ stop (cmd w) <> Armed
  /\ Flow.closed (out (cmd w)) = true
  /\ 1 <= closes (stdin (cmd w)).
Proof.
  intros Hr Hin. pose proof (reachable_Inv2 w Hr) as HJ.
  pose proof (reachable_Inv w Hr) as HI.
  destruct (In_lookup _ _ Hin) as (i & Hi).
  pose proof (Forall_lookup_1 _ _ _ _ (inv_pcs w HI) Hi) as Hp.
  pose proof (Forall_lookup_1 _ _ _ _ (i2_pcs w HJ) Hi) as Hp2.
  cbn in Hp, Hp2. destruct Hp as [Hw _]. destruct Hp2 as [[Hc Hs] _].
  destruct (i2_done w HJ Hw) as [H1 H2]. done.
Qed.

Lemma CloseTimeout_returns_released_witness :
  ctx (cmd (world_after two_closers)) <> None
  /\ stop (cmd (world_after two_closers)) <> Armed
  /\ Flow.closed (out (cmd (world_after two_closers))) = true
  /\ 1 <= closes (stdin (cmd (world_after two_closers))).
Proof.
  apply (CloseTimeout_returns_released (world_after two_closers) None).
  - exists two_closers. vm_compute. reflexivity.
  - vm_compute. left. reflexivity.
Defined.

(** X16.  The pipe to the process is closed once by [cleanupCmd] and once by
    the pump of a started controller, and by nobody else: the calls of
    its [Close] made and still to come are one for the controller
    having left its initial state and one for [runCmd]; a controller
    that is still new has made none, and there are never more than
    two. *)
Theorem stdin_closes (w : World) :
  reachable w ->
  closes (stdin (cmd w)) + count pipe_closer w
  = b2n (started (cmd w)) + count runner w
  /\ closes (stdin (cmd w)) <= 2
  /\ (started (cmd w) = false -> closes (stdin (cmd w)) = 0).
Proof.
  intros Hr. pose proof (reachable_Inv2 w Hr) as HJ.
  pose proof (reachable_Inv w Hr) as HI.
  pose proof (i2_pipe w HJ) as Hp. pose proof (inv_runs w HI) as Hn.
  split; [exact Hp|].
  destruct (started (cmd w)); cbn in *; split; try done; try lia.
Qed.

Lemma stdin_closes_witness :
  closes (stdin (cmd (world_after shutdown_run)))
  + count pipe_closer (world_after shutdown_run)
  = b2n (started (cmd (world_after shutdown_run)))
    + count runner (world_after shutdown_run)
  /\ closes (stdin (cmd (world_after shutdown_run))) <= 2
  /\ (started (cmd (world_after shutdown_run)) = false ->
      closes (stdin (cmd (world_after shutdown_run))) = 0).
Proof.
  apply (stdin_closes (world_after shutdown_run)).
  exists shutdown_run. vm_compute. reflexivity.
Defined.



(** X18.  A shutdown does not get stuck: while a caller of
    [CloseTimeout] has not returned and nothing has panicked, some
    goroutine of the controller can take a step (the timer of a
    caller that waits in its [select] fires in the end). *)
Theorem shutdown_progress (w : World) (p : pc) :
  reachable w -> alive w = true -> In p (threads w) -> pending p = true ->
  can_step w.
Proof.
  intros Hr Ha Hin Hp. pose proof (reachable_Inv2 w Hr) as HJ.
  pose proof (reachable_Inv w Hr) as HI.
  destruct (In_lookup _ _ Hin) as (i & Hi).
  pose proof (Forall_lookup_1 _ _ _ _ (i2_pcs w HJ) Hi) as Hp2.
  assert (Hheld : killOnce (cmd w) = Running -> can_step w).
  { intros Hk. pose proof (i2_once w HJ) as Ho. rewrite Hk in Ho. cbn in Ho.
    destruct (sum_positive holder (threads w)) as (j & q & Hj & Hq);
      [unfold count in Ho; lia|].
    apply (step_thread w j fired q Ha Hj).
    destruct q; cbn in Hq; try lia; cbn; try done.
    destruct (Process (cmd w)); done. }
  assert (Hwait : started (cmd w) = true -> wait (cmd w) = 0 -> can_step w).
  { intros Hs Hw. pose proof (inv_tokens w HI) as Ht.
    rewrite Hs, Hw in Ht. cbn in Ht.
    destruct (sum_positive closer (threads w)) as (j & q & Hj & Hq);
      [unfold count in Ht; lia|].
    apply (step_thread w j quiet q Ha Hj). apply closer_steps.
    destruct (closer_01 q); lia. }
  destruct p; try discriminate Hp; cbn in Hp2.
  all: try (apply (step_thread w i fired _ Ha Hi); cbn;
            repeat case_match; done).
  - destruct (killOnce (cmd w)) eqn:Hk; [| by apply Hheld |];
      apply (step_thread w i quiet _ Ha Hi); cbn; rewrite Hk; done.
  - destruct (killOnce (cmd w)) eqn:Hk; [| by apply Hheld |];
      apply (step_thread w i quiet _ Ha Hi); cbn; rewrite Hk; done.
  - destruct (wait (cmd w)) as [|n] eqn:Hw.
    + apply Hwait; [by destruct Hp2 | done].
    + apply (step_thread w i quiet _ Ha Hi). cbn. rewrite Hw. done.
Qed.

Lemma shutdown_progress_witness :
  can_step (world_after (CallClose 9 :: replicate 3 (Step 0 quiet))).
Proof.
  apply (shutdown_progress
           (world_after (CallClose 9 :: replicate 3 (Step 0 quiet)))
           Close_cleanup_out).
  - exists (CallClose 9 :: replicate 3 (Step 0 quiet)).
    vm_compute. reflexivity.
  - vm_compute. reflexivity.
  - vm_compute. left. reflexivity.
  - reflexivity.
Defined.

(** *** [Start] after [Close] *)

Lemma step_no_runner (w w' : World) (a : action) :
  step w a = Some w' -> started (cmd w) = true -> count runner w = 0 ->
  started (cmd w') = true /\ count runner w' = 0.
Proof.
  intros H Hst Hn. unfold step in H. unfold count in *.
  destruct (negb (alive w)); [discriminate|].
  destruct a as [tid x| |t|inputs|e|K t b].
  - destruct (threads w !! tid) as [p|] eqn:Hp; [|discriminate].
    destruct (thread_step x p (cmd w)) as [[[c' p'] new]|] eqn:Hs;
      [|discriminate].
    simplify_eq. cbn [cmd threads].
    destruct (thread_step_counts _ _ _ _ _ _ Hs) as (_ & Hr & _ & _ & Hs').
    specialize (Hs' Hst). rewrite Hst, Hs' in Hr. cbn in Hr.
    pose proof (sum_lookup runner _ _ _ Hp).
    pose proof (sum_insert runner _ _ _ p' Hp).
    rewrite sum_list_with_app. split; [done | lia].
  - simplify_eq. cbn [cmd threads]. rewrite sum_list_with_app. cbn.
    split; [done | lia].
  - simplify_eq. cbn [cmd threads]. rewrite sum_list_with_app. cbn.
    split; [done | lia].
  - simplify_eq. done.
  - unfold cancel in H.
    destruct (ctx (cmd w)); [|destruct (stop (cmd w))]; simplify_eq;
      cbn [cmd threads]; rewrite sum_list_with_app; cbn; split; done || lia.
  - destruct (running (cmd w)); [|discriminate]. simplify_eq.
    unfold kindWriter_Write. destruct (ctx (cmd w)); done.
Qed.

(** X19.  Once a call of [CloseTimeout] has found the controller not started
    and taken its place, no later call of [Start] runs [runCmd]: the
    process is never started, whatever happens afterwards. *)
Theorem Start_after_Close (w w' : World) (sched : list action) :
  reachable w -> started (cmd w) = true -> count runner w = 0 ->
  run w sched = Some w' ->
  count runner w' = 0 /\ spawned (cmd w') = 0.
Proof.
  intros Hr Hst Hn H.
  assert (HI' : Inv w') by (eapply run_Inv; [apply reachable_Inv, Hr | exact H]).
  assert (Hn' : count runner w' = 0).
  { clear Hr HI'. revert w Hst Hn H.
    induction sched as [|a sched IH]; intros w Hst Hn H; cbn in H.
    - by simplify_eq.
    - destruct (step w a) as [w1|] eqn:Hs; [|discriminate].
      destruct (step_no_runner _ _ _ Hs Hst Hn) as [Hst1 Hn1].
      exact (IH w1 Hst1 Hn1 H). }
  split; [exact Hn'|].
  pose proof (inv_spawn w' HI'). lia.
Qed.

Lemma Start_after_Close_witness :
  count runner (world_after (close_first ++ [CallStart; Step 2 quiet])) = 0
  /\ spawned (cmd (world_after (close_first ++ [CallStart; Step 2 quiet]))) = 0
  /\ threads (world_after (close_first ++ [CallStart; Step 2 quiet])) !! 2
     = Some Start_done.
Proof.
  assert (H : count runner (world_after (close_first ++ [CallStart; Step 2 quiet])) = 0
              /\ spawned (cmd (world_after (close_first ++ [CallStart; Step 2 quiet]))) = 0).
  { apply (Start_after_Close (world_after close_first) _ [CallStart; Step 2 quiet]).
    - exists close_first. vm_compute. reflexivity.
    - vm_compute. reflexivity.
    - vm_compute. reflexivity.
    - vm_compute. reflexivity. }
  destruct H as [H1 H2]. split; [exact H1|]. split; [exact H2|].
  vm_compute. reflexivity.
Defined.
End ShutdownFacts.

